(** * Speech-to-Sign: text-to-sign mapping and streaming session controller

    A shallow embedding of
    - class [MappingService] of [backend/src/services/mappingService.js],
    - class [StreamController], which [server.js] requires as
      [./controllers/streamController] (its text follows
      [backend/test-speech-auth.js] in the sources), and
    - class [SpeechService] of [backend/src/services/speechService.js]:
      the streaming recognition that the controller opens, and the
      transcription of a recording by either provider,
    - the counters [trackError] and [trackProcessingTime] of
      [backend/src/middleware/monitoring.js], and
    - the three POST endpoints of [backend/src/server.js],
    together with the properties of the specification that concern them.

    JavaScript strings are sequences of UTF-16 code units.  The embedding
    uses [string], whose characters are read as the code units 0..255
    (ASCII and the Latin-1 block); the string primitives below follow
    ECMAScript on that range.  Numbers that the code computes with
    ([confidence]) are exact rationals. *)

From Stdlib Require Import String Ascii List ZArith QArith Lia Bool.
From Stdlib Require Import Sorting.Permutation Sorting.Sorted.
From stdpp Require Import gmap.
Import ListNotations.

Local Open Scope string_scope.
Local Open Scope list_scope.

(** ** ECMAScript string primitives used by the services *)

Module JSString.

Definition code (c : ascii) : nat := nat_of_ascii c.

(** [String.prototype.toLowerCase] on one code unit: [A-Z] and the
    Latin-1 capitals U+00C0..U+00DE (U+00D7, the multiplication sign,
    has no case) move up by 32. *)
Definition lower_char (c : ascii) : ascii :=
  let n := code c in
  if ((65 <=? n) && (n <=? 90))%nat then ascii_of_nat (n + 32)
  else if ((192 <=? n) && (n <=? 222) && negb (n =? 215))%nat
       then ascii_of_nat (n + 32)
  else c.

Fixpoint toLowerCase (s : string) : string :=
  match s with
  | EmptyString => EmptyString
  | String c r => String (lower_char c) (toLowerCase r)
  end.

(** The class [\s] of a regular expression, which is also the set that
    [trim] strips: TAB, LF, VT, FF, CR, SPACE and NBSP. *)
Definition is_space (c : ascii) : bool :=
  let n := code c in
  ((9 <=? n) && (n <=? 13) || (n =? 32) || (n =? 160))%nat.

(** The class [\w]: [A-Za-z0-9_]. *)
Definition is_word (c : ascii) : bool :=
  let n := code c in
  ((65 <=? n) && (n <=? 90) || (97 <=? n) && (n <=? 122)
   || (48 <=? n) && (n <=? 57) || (n =? 95))%nat.

Fixpoint trimStart (s : string) : string :=
  match s with
  | EmptyString => EmptyString
  | String c r => if is_space c then trimStart r else s
  end.

Fixpoint trimEnd (s : string) : string :=
  match s with
  | EmptyString => EmptyString
  | String c r =>
      match trimEnd r with
      | EmptyString => if is_space c then EmptyString else String c EmptyString
      | r' => String c r'
      end
  end.

(** [String.prototype.trim] *)
Definition trim (s : string) : string := trimEnd (trimStart s).

(** [s.replace(/[^\w\s]/g, '')] *)
Fixpoint strip_punctuation (s : string) : string :=
  match s with
  | EmptyString => EmptyString
  | String c r =>
      if is_word c || is_space c then String c (strip_punctuation r)
      else strip_punctuation r
  end.

(** [s.replace(/\s+/g, ' ')]; [in_run] tells that the previous code unit
    belonged to the run of white space being replaced. *)
Fixpoint collapse_from (in_run : bool) (s : string) : string :=
  match s with
  | EmptyString => EmptyString
  | String c r =>
      if is_space c
      then (if in_run then collapse_from true r
            else String " " (collapse_from true r))
      else String c (collapse_from false r)
  end.

Definition collapse_whitespace (s : string) : string := collapse_from false s.

Fixpoint drop (n : nat) (s : string) : string :=
  match n, s with
  | O, _ => s
  | S n', String _ r => drop n' r
  | S _, EmptyString => EmptyString
  end.

(** [s.includes(sub)] *)
Fixpoint includes (s sub : string) : bool :=
  String.prefix sub s ||
  match s with
  | EmptyString => false
  | String _ r => includes r sub
  end.

(** [s.replace(sub, '')] with a string pattern: the first occurrence only. *)
Fixpoint remove_first (s sub : string) : string :=
  if String.prefix sub s then drop (String.length sub) s
  else match s with
       | EmptyString => EmptyString
       | String c r => String c (remove_first r sub)
       end.

(** [s.split(' ')]: never an empty array. *)
Fixpoint split_space (s : string) : list string :=
  match s with
  | EmptyString => [EmptyString]
  | String c r =>
      if Ascii.eqb c " "%char then EmptyString :: split_space r
      else match split_space r with
           | w :: ws => String c w :: ws
           | [] => [String c EmptyString]
           end
  end.

Definition is_empty (s : string) : bool :=
  match s with EmptyString => true | _ => false end.

(** [s.split(sep)] for a separator of one code unit. *)
Fixpoint split_on (sep : ascii) (s : string) : list string :=
  match s with
  | EmptyString => [EmptyString]
  | String c r =>
      if Ascii.eqb c sep then EmptyString :: split_on sep r
      else match split_on sep r with
           | w :: ws => String c w :: ws
           | [] => [String c EmptyString]
           end
  end.

(** [pieces.join(sep)] *)
Fixpoint join (sep : string) (pieces : list string) : string :=
  match pieces with
  | [] => EmptyString
  | [piece] => piece
  | piece :: rest => piece ++ sep ++ join sep rest
  end.

End JSString.

Import JSString.

(** ** Results of operations that may throw *)

Inductive result (E A : Type) : Type :=
| Ok (a : A)
| Err (e : E).
Arguments Ok {E A} a.
Arguments Err {E A} e.

Definition bind {E A B} (r : result E A) (k : A -> result E B) : result E B :=
  match r with
  | Ok a => k a
  | Err e => Err e
  end.

Notation "'try!' x ':=' r 'in' k" := (bind r (fun x => k))
  (at level 10, x name, r at level 100, k at level 200).

(** A [for ... of] loop whose body may throw. *)
Fixpoint for_each {E S X} (body : S -> X -> result E S) (xs : list X) (s : S)
  : result E S :=
  match xs with
  | [] => Ok s
  | x :: xs' => try! s' := body s x in for_each body xs' s'
  end.

(** ** mappingService.js *)

Module MappingService.

(** [mappingData] is a plain object (the result of [JSON.parse], or the
    literal of [createFallbackMapping]) from phrases to arrays of video
    file names.  It is represented by its own properties in the order in
    which [Object.keys] enumerates them. *)
Definition dictionary : Type := list (string * list string).

(** A row of [vocabulary.csv] as built by [parseCSVToJSON]; a column the
    file does not have leaves the field [undefined] ([None]). *)
Record vocabEntry : Type := {
  video_filename : option string;
  duration_ms : option string
}.

Record service : Type := {
  mappingData : option dictionary;
  vocabularyData : option (list vocabEntry);
  cdnBaseUrl : string
}.

Inductive error : Type :=
| InvalidTextInput   (* new Error('Invalid text input') *)
| NotIterable.       (* TypeError raised by spreading a non-iterable *)

(** What reading [this.mappingData[key]] yields. *)
Inductive property : Type :=
| Undefined
| Videos (files : list string)
| Inherited.         (* a member of Object.prototype: truthy, not iterable *)

Definition object_prototype_names : list string :=
  [ "constructor"; "__defineGetter__"; "__defineSetter__"; "hasOwnProperty";
    "__lookupGetter__"; "__lookupSetter__"; "isPrototypeOf";
    "propertyIsEnumerable"; "toString"; "valueOf"; "__proto__";
    "toLocaleString" ].

Definition inherited_name (key : string) : bool :=
  existsb (String.eqb key) object_prototype_names.

Fixpoint own (d : dictionary) (key : string) : option (list string) :=
  match d with
  | [] => None
  | (k, v) :: d' => if String.eqb k key then Some v else own d' key
  end.

(** Property read on the plain object: own properties first, then the
    prototype chain. *)
Definition get (d : dictionary) (key : string) : property :=
  match own d key with
  | Some v => Videos v
  | None => if inherited_name key then Inherited else Undefined
  end.

(** [createFallbackMapping] *)
Definition createFallbackMapping : dictionary :=
  [ ("hello", ["HELLO.mp4"]);
    ("hi", ["HELLO.mp4"]);
    ("thank you", ["THANK-YOU.mp4"]);
    ("thanks", ["THANK-YOU.mp4"]);
    ("yes", ["YES.mp4"]);
    ("no", ["NO.mp4"]);
    ("please", ["PLEASE.mp4"]);
    ("sorry", ["SORRY.mp4"]);
    ("help", ["HELP.mp4"]);
    ("stop", ["STOP.mp4"]);
    ("water", ["NEED-WATER.mp4"]);
    ("bathroom", ["BATHROOM.mp4"]);
    ("emergency", ["EMERGENCY.mp4"]) ].

(** [normalizeText] *)
Definition normalizeText (text : string) : string :=
  collapse_whitespace (strip_punctuation (trim (toLowerCase text))).

(** [keys.sort((a, b) => b.length - a.length)]: [Array.prototype.sort] is
    stable, so keys of one length keep their enumeration order. *)
Fixpoint insert_by_length (k : string) (sorted : list string) : list string :=
  match sorted with
  | [] => [k]
  | x :: rest =>
      if (String.length k <? String.length x)%nat
      then x :: insert_by_length k rest
      else k :: sorted
  end.

Fixpoint sort_longest_first (keys : list string) : list string :=
  match keys with
  | [] => []
  | k :: rest => insert_by_length k (sort_longest_first rest)
  end.

Record matches : Type := {
  videoFiles : list string;
  captions : list string;
  confidence : Q;
  matchedPhrases : list string
}.

(** The local variables of [findMatches] that its two loops update. *)
Record scan : Type := {
  found : matches;
  remainingText : string;
  totalConfidence : Q;
  matchCount : nat
}.

Definition record_match (sc : scan) (phrase : string) (files : list string)
    (rest : string) (weight : Q) : scan :=
  {| found := {| videoFiles := videoFiles (found sc) ++ files;
                 captions := captions (found sc) ++ [phrase];
                 confidence := confidence (found sc);
                 matchedPhrases := matchedPhrases (found sc) ++ [phrase] |};
     remainingText := rest;
     totalConfidence := totalConfidence sc + weight;
     matchCount := S (matchCount sc) |}.

(** Body of [for (const phrase of phrases)]. *)
Definition phrase_step (d : dictionary) (sc : scan) (phrase : string)
  : result error scan :=
  if includes (remainingText sc) phrase then
    match get d phrase with
    | Videos files =>
        Ok (record_match sc phrase files
              (trim (remove_first (remainingText sc) phrase)) 1)
    | _ => Err NotIterable
    end
  else Ok sc.

(** Body of [for (const word of remainingWords)]. *)
Definition word_step (d : dictionary) (sc : scan) (word : string)
  : result error scan :=
  match get d word with
  | Undefined => Ok sc
  | Videos files => Ok (record_match sc word files (remainingText sc) (8 # 10))
  | Inherited => Err NotIterable
  end.

Definition no_matches : matches :=
  {| videoFiles := []; captions := []; confidence := 0; matchedPhrases := [] |}.

Definition fallback : matches :=
  {| videoFiles := ["NOT-UNDERSTAND.mp4"];
     captions := ["I don't understand"];
     confidence := 1 # 10;
     matchedPhrases := ["fallback"] |}.

Definition finish (sc : scan) (totalWords : nat) : matches :=
  match videoFiles (found sc) with
  | [] => fallback
  | _ :: _ =>
      {| videoFiles := videoFiles (found sc);
         captions := captions (found sc);
         confidence :=
           if (0 <? matchCount sc)%nat
           then totalConfidence sc / inject_Z (Z.of_nat totalWords)
           else 0;
         matchedPhrases := matchedPhrases (found sc) |}
  end.

(** [findMatches] *)
Definition findMatches (svc : service) (text : string) : result error matches :=
  match mappingData svc with
  | None => Ok no_matches
  | Some d =>
      match get d text with
      | Videos files =>
          Ok {| videoFiles := files; captions := [text];
                confidence := 1; matchedPhrases := [text] |}
      | Inherited => Err NotIterable
      | Undefined =>
          let phrases := sort_longest_first (map fst d) in
          let words := split_space text in
          let start := {| found := no_matches; remainingText := text;
                          totalConfidence := 0; matchCount := 0 |} in
          try! sc := for_each (phrase_step d) phrases start in
          let remainingWords :=
            List.filter (fun w => negb (is_empty w))
                        (split_space (remainingText sc)) in
          try! sc' := for_each (word_step d) remainingWords sc in
          Ok (finish sc' (List.length words))
      end
  end.

(** A JavaScript number that [parseInt] can return. *)
Inductive number : Type :=
| Num (z : Z)
| NaN.

Definition digit_value (c : ascii) : option Z :=
  let n := code c in
  if ((48 <=? n) && (n <=? 57))%nat then Some (Z.of_nat n - 48)%Z
  else if ((97 <=? n) && (n <=? 122))%nat then Some (Z.of_nat n - 87)%Z
  else if ((65 <=? n) && (n <=? 90))%nat then Some (Z.of_nat n - 55)%Z
  else None.

(** The longest prefix of digits of the radix; [None] when there is none. *)
Fixpoint parse_digits (radix : Z) (s : string) (acc : option Z) : option Z :=
  match s with
  | EmptyString => acc
  | String c r =>
      match digit_value c with
      | Some v =>
          if (v <? radix)%Z
          then parse_digits radix r
                 (Some (match acc with
                        | Some a => a * radix + v
                        | None => v
                        end)%Z)
          else acc
      | None => acc
      end
  end.

(** [parseInt(s)] without a radix argument: leading white space, a sign,
    a [0x] prefix, then digits.  Integers are exact here; the double of
    JavaScript rounds them beyond 2^53. *)
Definition parseInt (s : string) : number :=
  let s1 := trimStart s in
  let '(negative, s2) :=
    match s1 with
    | String "-" r => (true, r)
    | String "+" r => (false, r)
    | _ => (false, s1)
    end in
  let '(radix, s3) :=
    match s2 with
    | String "0" (String "x" r) => (16%Z, r)
    | String "0" (String "X" r) => (16%Z, r)
    | _ => (10%Z, s2)
    end in
  match parse_digits radix s3 None with
  | Some v => Num (if negative then - v else v)
  | None => NaN
  end.

Definition names (filename : string) (item : vocabEntry) : bool :=
  match video_filename item with
  | Some f => String.eqb f filename
  | None => false
  end.

(** [getVideoDuration] *)
Definition getVideoDuration (svc : service) (filename : string) : number :=
  match vocabularyData svc with
  | Some vocabulary =>
      match List.find (names filename) vocabulary with
      | Some entry =>
          match duration_ms entry with
          | Some (String c r) => parseInt (String c r)
          | _ => Num 2000
          end
      | None => Num 2000
      end
  | None => Num 2000
  end.

Record sign : Type := {
  url : string;
  filename : string;
  duration : number
}.

Definition to_sign (svc : service) (file : string) : sign :=
  {| url := cdnBaseUrl svc ++ file;
     filename := file;
     duration := getVideoDuration svc file |}.

(** The object that [mapTextToSigns] resolves to, without its
    [processingTime] (a difference of two clock readings). *)
Record mapping : Type := {
  signs : list sign;
  mapCaptions : list string;
  mapConfidence : Q;
  mapMatchedPhrases : list string
}.

(** An argument of [mapTextToSigns]: a string, or any other value. *)
Inductive value : Type :=
| JString (s : string)
| JOther.

(** [mapTextToSigns]: the promise resolves ([Ok]) or rejects ([Err]). *)
Definition mapTextToSigns (svc : service) (text : value) : result error mapping :=
  match text with
  | JOther => Err InvalidTextInput
  | JString EmptyString => Err InvalidTextInput
  | JString text =>
      let normalizedText := normalizeText text in
      try! found := findMatches svc normalizedText in
      Ok {| signs := map (to_sign svc) (videoFiles found);
            mapCaptions := captions found;
            mapConfidence := confidence found;
            mapMatchedPhrases := matchedPhrases found |}
  end.

End MappingService.
(** ** A JavaScript [Map] keyed by strings

    Entries are kept in insertion order, which is the order of iteration. *)

Module JSMap.
Section Ops.
Context {V : Type}.

Fixpoint get (key : string) (m : list (string * V)) : option V :=
  match m with
  | [] => None
  | (k, v) :: rest => if String.eqb k key then Some v else get key rest
  end.

(** [set] keeps the position of a key already present. *)
Fixpoint set (key : string) (v : V) (m : list (string * V))
  : list (string * V) :=
  match m with
  | [] => [(key, v)]
  | (k, v') :: rest =>
      if String.eqb k key then (k, v) :: rest
      else (k, v') :: set key v rest
  end.

Fixpoint delete (key : string) (m : list (string * V)) : list (string * V) :=
  match m with
  | [] => []
  | (k, v) :: rest =>
      if String.eqb k key then delete key rest
      else (k, v) :: delete key rest
  end.

Definition keys (m : list (string * V)) : list string := map fst m.
End Ops.
End JSMap.

(** ** mappingService.js: the vocabulary file *)

Module Vocabulary.

Definition quote : ascii := ascii_of_nat 34.
Definition comma : ascii := ","%char.
Definition newline : ascii := ascii_of_nat 10.

(** The loop of [parseCSVLine]: [current] is the field being read. *)
Fixpoint parse_fields (line current : string) (inQuotes : bool) : list string :=
  match line with
  | EmptyString => [current]
  | String char rest =>
      if Ascii.eqb char quote then parse_fields rest current (negb inQuotes)
      else if Ascii.eqb char comma && negb inQuotes
           then current :: parse_fields rest EmptyString inQuotes
      else parse_fields rest (current ++ String char EmptyString) inQuotes
  end.

(** [parseCSVLine] *)
Definition parseCSVLine (line : string) : list string :=
  parse_fields line EmptyString false.

(** A row object of [parseCSVToJSON]: its own properties, which the code
    only reads by name. *)
Definition object : Type := list (string * string).

(** [obj[key] = value] for a string [value]: assigning a string to
    [__proto__] does nothing. *)
Definition assign (key value : string) (obj : object) : object :=
  if String.eqb key "__proto__" then obj else JSMap.set key value obj.

(** [values[index]?.trim() || ''] *)
Definition cell (values : list string) (index : nat) : string :=
  match nth_error values index with
  | Some v => trim v
  | None => EmptyString
  end.

(** [headers.forEach((header, index) => ...)], from [index] on. *)
Fixpoint fill (headers : list string) (index : nat) (values : list string)
    (obj : object) : object :=
  match headers with
  | [] => obj
  | header :: rest =>
      fill rest (S index) values (assign (trim header) (cell values index) obj)
  end.

(** [parseCSVToJSON] *)
Definition parseCSVToJSON (csvContent : string) : list object :=
  match split_on newline (trim csvContent) with
  | [] => []
  | first :: lines =>
      let headers := split_on comma first in
      map (fun line => fill headers 0 (parseCSVLine line) []) lines
  end.

(** The two members that [getVideoDuration] reads. *)
Definition entry_of (item : object) : MappingService.vocabEntry :=
  {| MappingService.video_filename := JSMap.get "video_filename" item;
     MappingService.duration_ms := JSMap.get "duration_ms" item |}.

(** What [loadMappingData] stores when both files could be read. *)
Definition loaded_service (mapping : MappingService.dictionary)
    (vocabularyCsv cdn : string) : MappingService.service :=
  {| MappingService.mappingData := Some mapping;
     MappingService.vocabularyData :=
       Some (map entry_of (parseCSVToJSON vocabularyCsv));
     MappingService.cdnBaseUrl := cdn |}.





(** [[...new Set(xs)]]: the first occurrence of every value, in order. *)
Fixpoint distinct (seen xs : list (option string)) : list (option string) :=
  match xs with
  | [] => []
  | x :: rest =>
      if existsb (fun y => if decide (x = y) then true else false) seen
      then distinct seen rest
      else x :: distinct (x :: seen) rest
  end.

Record serviceStats : Type := {
  totalMappings : nat;
  totalVocabulary : nat;
  categories : list (option string);
  statsCdnBaseUrl : string
}.

(** [getStats] of the mapping service. *)
Definition getStats (mappingData : option MappingService.dictionary)
    (vocabularyData : option (list object)) (cdn : string) : serviceStats :=
  {| totalMappings :=
       match mappingData with
       | Some d => List.length (map fst d)
       | None => 0
       end;
     totalVocabulary :=
       match vocabularyData with
       | Some rows => List.length rows
       | None => 0
       end;
     categories :=
       match vocabularyData with
       | Some rows => distinct [] (map (JSMap.get "category") rows)
       | None => []
       end;
     statsCdnBaseUrl := cdn |}.

End Vocabulary.

(** ** streamController.js *)

Module StreamController.

Abbreviation socketId := string (only parsing).

(** The identity of a stream object returned by the speech provider. *)
Abbreviation handle := nat (only parsing).

(** The payload of [start-streaming]; an absent member is [None]. *)
Record options : Type := {
  optEncoding : option string;
  optSampleRate : option Z;
  optLanguageCode : option string;
  optInterimResults : option bool
}.

Record sessionConfig : Type := {
  encoding : string;
  sampleRate : Z;
  languageCode : string;
  interimResults : bool;
  enableWordTimeOffsets : bool;
  model : string;
  useEnhanced : bool
}.

(** [x || dflt] on an optional string: absent and empty are falsy. *)
Definition or_string (x : option string) (dflt : string) : string :=
  match x with
  | Some (String c r) => String c r
  | _ => dflt
  end.

(** [x || dflt] on an optional number: absent and zero are falsy. *)
Definition or_number (x : option Z) (dflt : Z) : Z :=
  match x with
  | Some z => if (z =? 0)%Z then dflt else z
  | None => dflt
  end.

Definition make_config (opts : options) : sessionConfig :=
  {| encoding := or_string (optEncoding opts) "WEBM_OPUS";
     sampleRate := or_number (optSampleRate opts) 48000;
     languageCode := or_string (optLanguageCode opts) "en-US";
     interimResults :=
       match optInterimResults opts with
       | Some false => false
       | _ => true
       end;
     enableWordTimeOffsets := false;
     model := "latest_short";
     useEnhanced := true |}.

(** An entry of [activeConnections]. *)
Record connection : Type := {
  recognizeStream : handle;
  config : sessionConfig;
  startTime : Z;
  lastActivity : Z
}.

(** An [audio-data] payload, and the buffer written to the stream; the
    base64 decoding of [Buffer.from] is kept symbolic. *)
Inductive audioData : Type :=
| AudioString (s : string)
| AudioArrayBuffer (bytes : list N)
| AudioBuffer (bytes : list N).

Inductive audioBuffer : Type :=
| FromBase64 (s : string)
| Bytes (bytes : list N).

Definition to_buffer (audio : audioData) : audioBuffer :=
  match audio with
  | AudioString s => FromBase64 s
  | AudioArrayBuffer b => Bytes b
  | AudioBuffer b => Bytes b
  end.

(** The provider's duplex stream: its [destroyed] flag, the number of
    calls of [end()], the chunks written, and the socket that the
    listeners installed by [startStreamingRecognition] close over. *)
Record stream : Type := {
  destroyed : bool;
  ended : nat;
  written : list audioBuffer;
  owner : socketId
}.

(** Events emitted to a client, without their [timestamp] members
    (clock readings). *)
Inductive event : Type :=
| StreamingStarted (sessionId : socketId) (cfg : sessionConfig)
| TranscriptUpdate (transcript : string) (confidence : Q) (isFinal : bool)
| SignsUpdate (originalText : string) (mappedSigns : list MappingService.sign)
              (captions : list string) (confidence : Q)
| MappingError (message : string) (error : MappingService.error)
| StreamingError (message : string) (error : option string)
| ErrorEvent (message : string) (error : option string)
| StreamingEnded
| StreamingStopped.

(** The controller, the stream objects it has obtained, and the events
    emitted so far, oldest first. *)
Record state : Type := {
  activeConnections : list (socketId * connection);
  streams : gmap handle stream;
  emitted : list (socketId * event)
}.

Definition initial : state :=
  {| activeConnections := []; streams := ∅; emitted := [] |}.

(** [socket.emit(ev)] *)
Definition emit (socket : socketId) (ev : event) (st : state) : state :=
  {| activeConnections := activeConnections st;
     streams := streams st;
     emitted := emitted st ++ [(socket, ev)] |}.

Definition with_connections (m : list (socketId * connection)) (st : state)
  : state :=
  {| activeConnections := m; streams := streams st; emitted := emitted st |}.

Definition with_stream (h : handle) (s : stream) (st : state) : state :=
  {| activeConnections := activeConnections st;
     streams := <[h := s]> (streams st);
     emitted := emitted st |}.

(** [stream.destroyed] *)
Definition is_destroyed (h : handle) (st : state) : bool :=
  match streams st !! h with
  | Some s => destroyed s
  | None => true
  end.

(** A method of the stream object [h] that changes its state. *)
Definition update_stream (f : stream -> stream) (h : handle) (st : state)
  : state :=
  match streams st !! h with
  | Some s => with_stream h (f s) st
  | None => st
  end.

(** [stream.end()] *)
Definition end_stream : handle -> state -> state :=
  update_stream (fun s => {| destroyed := destroyed s; ended := S (ended s);
                             written := written s; owner := owner s |}).

(** [stream.write(chunk)] *)
Definition write_stream (h : handle) (chunk : audioBuffer) : state -> state :=
  update_stream (fun s => {| destroyed := destroyed s; ended := ended s;
                             written := written s ++ [chunk];
                             owner := owner s |}) h.

(** The runtime destroys a stream (the provider closed it, or it failed). *)
Definition destroy_stream : handle -> state -> state :=
  update_stream (fun s => {| destroyed := true; ended := ended s;
                             written := written s; owner := owner s |}).

(** How a call completes. *)
Inductive completion : Type :=
| Normal
| Throw (message : string).

(** [speechService.createStreamingRecognition], as far as the controller
    sees it: it throws without a Google client, and otherwise returns a
    new stream object. *)
Record speechService : Type := { googleClient : bool }.

Definition createStreamingRecognition (speech : speechService) (st : state)
  : result string handle :=
  if googleClient speech then Ok (fresh (dom (streams st)))
  else Err "Google Cloud Speech client not available for streaming".

(** [startStreamingRecognition]; [now] is the reading of [Date.now()]. *)
Definition startStreamingRecognition (speech : speechService)
    (socket : socketId) (opts : options) (now : Z) (st : state)
  : state * completion :=
  let sessionConfig := make_config opts in
  match createStreamingRecognition speech st with
  | Ok h =>
      let st1 :=
        with_stream h {| destroyed := false; ended := 0; written := [];
                         owner := socket |} st in
      let st2 :=
        with_connections
          (JSMap.set socket
             {| recognizeStream := h; config := sessionConfig;
                startTime := now; lastActivity := now |}
             (activeConnections st1)) st1 in
      (emit socket (StreamingStarted socket sessionConfig) st2, Normal)
  | Err message =>
      (emit socket
         (StreamingError "Failed to start streaming recognition" (Some message))
         st,
       Throw message)
  end.

(** [stopStreamingRecognition] *)
Definition stopStreamingRecognition (socket : socketId) (st : state) : state :=
  match JSMap.get socket (activeConnections st) with
  | Some connection =>
      let h := recognizeStream connection in
      let st1 := if is_destroyed h st then st else end_stream h st in
      let st2 :=
        with_connections (JSMap.delete socket (activeConnections st1)) st1 in
      emit socket StreamingStopped st2
  | None => emit socket StreamingStopped st
  end.

(** [processStreamingAudio] *)
Definition processStreamingAudio (socket : socketId) (audio : audioData)
    (now : Z) (st : state) : state :=
  match JSMap.get socket (activeConnections st) with
  | None => emit socket (ErrorEvent "No active streaming session" None) st
  | Some connection =>
      let touched :=
        {| recognizeStream := recognizeStream connection;
           config := config connection;
           startTime := startTime connection;
           lastActivity := now |} in
      let st1 :=
        with_connections (JSMap.set socket touched (activeConnections st)) st in
      let audioBuffer := to_buffer audio in
      let h := recognizeStream connection in
      if is_destroyed h st1
      then emit socket (StreamingError "Streaming session ended" None) st1
      else write_stream h audioBuffer st1
  end.

(** What the provider's stream delivers with a [data] event. *)
Record alternative : Type := {
  transcript : string;
  altConfidence : option Q
}.

Record recognition : Type := {
  alternatives : list alternative;
  isFinal : bool
}.

Record streamingData : Type := {
  results : option (list recognition)
}.

(** [c || 0.8] on an optional number. *)
Definition or_confidence (c : option Q) : Q :=
  match c with
  | Some q => if Qeq_bool q 0 then 8 # 10 else q
  | None => 8 # 10
  end.

(** [handleStreamingResult].  [mapTextToSigns] awaits nothing, so the
    promise awaited here is already settled and the continuation runs
    before the next event of the stream is delivered: the handler is
    one step. *)
Definition handleStreamingResult (mapping : MappingService.service)
    (socket : socketId) (data : streamingData) (st : state) : state :=
  match results data with
  | None | Some [] => st
  | Some (result :: _) =>
      match alternatives result with
      | [] =>
          emit socket
            (ErrorEvent "Failed to process recognition result"
               (Some "Cannot read properties of undefined (reading 'transcript')"))
            st
      | first :: _ =>
          let transcript := transcript first in
          let confidence := or_confidence (altConfidence first) in
          let st1 :=
            emit socket (TranscriptUpdate transcript confidence (isFinal result))
                 st in
          if isFinal result && negb (is_empty (trim transcript)) then
            match MappingService.mapTextToSigns mapping
                    (MappingService.JString transcript) with
            | Ok mappingResult =>
                emit socket
                  (SignsUpdate transcript
                     (MappingService.signs mappingResult)
                     (MappingService.mapCaptions mappingResult)
                     (MappingService.mapConfidence mappingResult))
                  st1
            | Err mappingError =>
                emit socket
                  (MappingError "Failed to map text to signs" mappingError) st1
            end
          else st1
      end
  end.

(** What the provider's stream can emit. *)
Inductive providerEvent : Type :=
| Data (data : streamingData)
| Failure (message : string)
| End.

(** The listeners that [startStreamingRecognition] installs on a stream;
    [socket] is the socket they close over. *)
Definition listener (mapping : MappingService.service) (socket : socketId)
    (ev : providerEvent) (st : state) : state :=
  match ev with
  | Data data => handleStreamingResult mapping socket data st
  | Failure message =>
      stopStreamingRecognition socket
        (emit socket (StreamingError "Speech recognition error" (Some message))
              st)
  | End =>
      stopStreamingRecognition socket (emit socket StreamingEnded st)
  end.

(** The stream [h] emits [ev]. *)
Definition deliver (mapping : MappingService.service) (h : handle)
    (ev : providerEvent) (st : state) : state :=
  match streams st !! h with
  | Some s => listener mapping (owner s) ev st
  | None => st
  end.

(** The sweep of [startCleanupTimer], run once with clock reading [now]. *)
Definition timeout : Z := 5 * 60 * 1000.

Definition stale (now : Z) (connection : connection) : bool :=
  (timeout <? now - lastActivity connection)%Z.

Definition sweep_entry (now : Z) (st : state) (entry : socketId * connection)
  : state :=
  let '(socketId, connection) := entry in
  if stale now connection then
    let st1 :=
      with_connections (JSMap.delete socketId (activeConnections st)) st in
    let h := recognizeStream connection in
    if is_destroyed h st1 then st1 else end_stream h st1
  else st.

Definition cleanup (now : Z) (st : state) : state :=
  fold_left (sweep_entry now) (activeConnections st) st.

(** The handlers that [setupEventHandlers] attaches to a socket. *)
Definition on_start_streaming (speech : speechService) (socket : socketId)
    (opts : options) (now : Z) (st : state) : state :=
  match startStreamingRecognition speech socket opts now st with
  | (st', Normal) => st'
  | (st', Throw _) =>
      emit socket (ErrorEvent "Failed to start streaming recognition" None) st'
  end.

Definition on_audio_data (socket : socketId) (audio : audioData) (now : Z)
    (st : state) : state :=
  processStreamingAudio socket audio now st.

Definition on_stop_streaming (socket : socketId) (st : state) : state :=
  stopStreamingRecognition socket st.

Definition on_disconnect (socket : socketId) (st : state) : state :=
  stopStreamingRecognition socket st.

(** Everything that can happen to the controller. *)
Inductive input : Type :=
| StartStreaming (socket : socketId) (opts : options)
| AudioData (socket : socketId) (audio : audioData)
| StopStreaming (socket : socketId)
| Disconnect (socket : socketId)
| Provider (h : handle) (ev : providerEvent)
| Destroyed (h : handle)
| Tick.

Record services : Type := {
  speech : speechService;
  mappings : MappingService.service
}.

Definition step (env : services) (now : Z) (i : input) (st : state) : state :=
  match i with
  | StartStreaming socket opts =>
      on_start_streaming (speech env) socket opts now st
  | AudioData socket audio => on_audio_data socket audio now st
  | StopStreaming socket => on_stop_streaming socket st
  | Disconnect socket => on_disconnect socket st
  | Provider h ev => deliver (mappings env) h ev st
  | Destroyed h => destroy_stream h st
  | Tick => cleanup now st
  end.

(** A run: inputs with the clock reading at which each is handled. *)
Definition run (env : services) (inputs : list (Z * input)) (st : state)
  : state :=
  fold_left (fun st '(now, i) => step env now i st) inputs st.

(** The events one client has observed. *)
Definition observed (socket : socketId) (st : state) : list event :=
  map snd (List.filter (fun e => String.eqb (fst e) socket) (emitted st)).

(** [getStats]; [now] is the reading of [Date.now()]. *)
Record connectionStats : Type := {
  statId : socketId;
  statStartTime : Z;
  statLastActivity : Z;
  statDuration : Z;
  statConfig : sessionConfig
}.

Record stats : Type := {
  activeCount : nat;
  connections : list connectionStats
}.

Definition getStats (now : Z) (st : state) : stats :=
  {| activeCount := List.length (activeConnections st);
     connections :=
       map (fun '(id, conn) =>
              {| statId := id;
                 statStartTime := startTime conn;
                 statLastActivity := lastActivity conn;
                 statDuration := now - startTime conn;
                 statConfig := config conn |})
           (activeConnections st) |}.

End StreamController.

(** ** middleware/monitoring.js *)

Module Monitoring.

(** [metrics.processing] *)
Record processing : Type := {
  transcriptions : nat;
  mappings : nat;
  avgLatency : Q;
  latencyHistory : list Z
}.

(** [latencyHistory.reduce((sum, lat) => sum + lat, 0)] *)
Definition total_latency (history : list Z) : Z :=
  fold_left Z.add history 0%Z.

(** [trackProcessingTime] *)
Definition trackProcessingTime (type : string) (duration : Z) (p : processing)
  : processing :=
  let pushed := latencyHistory p ++ [duration] in
  let history :=
    if (100 <? List.length pushed)%nat then List.tl pushed else pushed in
  {| transcriptions :=
       if String.eqb type "transcription" then S (transcriptions p)
       else transcriptions p;
     mappings :=
       if String.eqb type "transcription" then mappings p
       else if String.eqb type "mapping" then S (mappings p)
       else mappings p;
     avgLatency :=
       inject_Z (total_latency history) /
       inject_Z (Z.of_nat (List.length history));
     latencyHistory := history |}.

(** A member of [metrics.errors.byType]: a count, or [NaN]. *)
Inductive tally : Type :=
| Count (n : nat)
| NotANumber.

(** [metrics.errors]; [byType] is a plain object. *)
Record errors : Type := {
  total : nat;
  byType : list (string * tally)
}.

(** [if (!byType[type]) byType[type] = 0; byType[type]++].  A name that
    [byType] inherits from Object.prototype is truthy, and incrementing it
    stores [NaN] -- except under [__proto__], where the store has no
    effect. *)
Definition bump (type : string) (counts : list (string * tally))
  : list (string * tally) :=
  match JSMap.get type counts with
  | Some (Count (S n)) => JSMap.set type (Count (S (S n))) counts
  | Some (Count O) | Some NotANumber => JSMap.set type (Count 1) counts
  | None =>
      if String.eqb type "__proto__" then counts
      else if MappingService.inherited_name type
           then JSMap.set type NotANumber counts
      else JSMap.set type (Count 1) counts
  end.

(** [trackError] *)
Definition trackError (type : string) (e : errors) : errors :=
  {| total := S (total e); byType := bump type (byType e) |}.

(** [resetMetrics], for the two parts above. *)
Definition reset_processing : processing :=
  {| transcriptions := 0; mappings := 0; avgLatency := 0;
     latencyHistory := [] |}.

Definition reset_errors : errors := {| total := 0; byType := [] |}.

End Monitoring.

(** ** services/speechService.js: transcription of a recording *)

Module Transcription.

(** A Node [Buffer]. *)
Definition buffer : Type := list N.

(** The members of [ERROR_TYPES] that the service uses. *)
Inductive errorType : Type :=
| AUTH_MISSING_CREDENTIALS
| AUTH_INSUFFICIENT_PERMISSIONS
| SPEECH_SERVICE_UNAVAILABLE
| SPEECH_RECOGNITION_FAILED
| SPEECH_AUDIO_TOO_LARGE
| SPEECH_AUDIO_INVALID_FORMAT
| SPEECH_NO_AUDIO_DETECTED
| SPEECH_QUOTA_EXCEEDED.

(** [new AppError(message, statusCode, errorType)] *)
Record appError : Type := {
  message : string;
  statusCode : Z;
  type : errorType
}.

Inductive thrown : Type :=
| AppError (e : appError)
| PlainError (message : string).     (* new Error(message) *)

(** [error.code] of an error that the Google client rejects with. *)
Inductive code : Type :=
| Numeric (n : Z)
| Named (name : string)
| NoCode.

Record failure : Type := {
  failureCode : code;
  failureMessage : string
}.

(** The part of the request [config] that depends on the options. *)
Record config : Type := {
  encoding : string;
  sampleRateHertz : Z;
  languageCode : string
}.

Definition make_config (options : StreamController.options) : config :=
  {| encoding :=
       StreamController.or_string (StreamController.optEncoding options)
                                  "WEBM_OPUS";
     sampleRateHertz :=
       StreamController.or_number (StreamController.optSampleRate options)
                                  48000;
     languageCode :=
       StreamController.or_string (StreamController.optLanguageCode options)
                                  "en-US" |}.

(** What [googleClient.recognize] settles with: a response, which may be
    missing or lack [results], or a rejection.  A result is given by its
    array of alternatives. *)
Record response : Type := {
  results : option (list (list StreamController.alternative))
}.

Inductive reply : Type :=
| Resolves (r : option response)
| Rejects (f : failure).

Definition recognizer : Type := buffer -> config -> reply.

(** The object that [transcribeWithGoogle] returns. *)
Record transcription : Type := {
  transcript : string;
  confidence : Q;
  language : string;
  service : string
}.

Definition has_code (f : failure) (n : Z) (name : string) : bool :=
  match failureCode f with
  | Numeric m => Z.eqb m n
  | Named s => String.eqb s name
  | NoCode => false
  end.

Definition has_name (f : failure) (name : string) : bool :=
  match failureCode f with
  | Named s => String.eqb s name
  | _ => false
  end.

(** The [catch] block of [transcribeWithGoogle], for an error that is not
    an [AppError]. *)
Definition classify (f : failure) : appError :=
  if has_code f 3 "INVALID_ARGUMENT" then
    {| message := "Invalid audio format or configuration";
       statusCode := 400; type := SPEECH_AUDIO_INVALID_FORMAT |}
  else if has_code f 7 "PERMISSION_DENIED" then
    {| message := "Google Cloud Speech permission denied";
       statusCode := 403; type := AUTH_INSUFFICIENT_PERMISSIONS |}
  else if has_code f 16 "UNAUTHENTICATED" then
    {| message := "Google Cloud Speech authentication failed";
       statusCode := 401; type := AUTH_MISSING_CREDENTIALS |}
  else if has_code f 8 "RESOURCE_EXHAUSTED" then
    {| message := "Google Cloud Speech quota exceeded";
       statusCode := 429; type := SPEECH_QUOTA_EXCEEDED |}
  else if has_name f "ENOTFOUND" || has_name f "ECONNREFUSED" then
    {| message := "Unable to connect to Google Cloud Speech service";
       statusCode := 503; type := SPEECH_SERVICE_UNAVAILABLE |}
  else
    {| message := "Google Cloud Speech failed: " ++ failureMessage f;
       statusCode := 500; type := SPEECH_RECOGNITION_FAILED |}.

(** The TypeError of reading [transcript] of a missing first alternative. *)
Definition missing_alternative : failure :=
  {| failureCode := NoCode;
     failureMessage :=
       "Cannot read properties of undefined (reading 'transcript')" |}.

(** [result.alternatives[0]] of every result, unless one is missing. *)
Fixpoint first_alternatives (rs : list (list StreamController.alternative))
  : option (list StreamController.alternative) :=
  match rs with
  | [] => Some []
  | [] :: _ => None
  | (a :: _) :: rs' =>
      match first_alternatives rs' with
      | Some alts => Some (a :: alts)
      | None => None
      end
  end.

Definition no_audio (text : string) : thrown :=
  AppError {| message := text; statusCode := 400;
              type := SPEECH_NO_AUDIO_DETECTED |}.

(** [transcribeWithGoogle], called with a [Buffer]. *)
Definition transcribeWithGoogle (googleClient : option recognizer)
    (audioBuffer : buffer) (options : StreamController.options)
  : result thrown transcription :=
  match googleClient with
  | None =>
      Err (AppError {| message := "Google Cloud Speech client not initialized";
                       statusCode := 500;
                       type := SPEECH_SERVICE_UNAVAILABLE |})
  | Some recognize =>
      match audioBuffer with
      | [] => Err (no_audio "Empty audio buffer provided")
      | _ :: _ =>
          if (10 * 1024 * 1024 <? Z.of_nat (List.length audioBuffer))%Z then
            Err (AppError {| message := "Audio file too large";
                             statusCode := 400;
                             type := SPEECH_AUDIO_TOO_LARGE |})
          else
            let config := make_config options in
            match recognize audioBuffer config with
            | Rejects f => Err (AppError (classify f))
            | Resolves None
            | Resolves (Some {| results := None |})
            | Resolves (Some {| results := Some [] |}) =>
                Err (no_audio "No speech detected in audio")
            | Resolves (Some {| results := Some ([] :: _) |}) =>
                Err (AppError (classify missing_alternative))
            | Resolves (Some {| results := Some ((a :: _) :: rest) |}) =>
                match first_alternatives rest with
                | None => Err (AppError (classify missing_alternative))
                | Some alts =>
                    let transcription :=
                      join " " (map StreamController.transcript (a :: alts)) in
                    if is_empty (trim transcription) then
                      Err (no_audio "No transcribable speech found")
                    else
                      Ok {| transcript := trim transcription;
                            confidence :=
                              StreamController.or_confidence
                                (StreamController.altConfidence a);
                            language := languageCode config;
                            service := "google" |}
                end
            end
      end
  end.

(** What [openaiClient.audio.transcriptions.create] settles with. *)
Inductive whisperReply : Type :=
| WhisperText (text : string)
| WhisperRejects (message : string).

(** The OpenAI client, called with the recording and the language. *)
Definition whisper : Type := buffer -> string -> whisperReply.

(** [options.languageCode?.split('-')[0] || 'en'] *)
Definition whisper_language (options : StreamController.options) : string :=
  match StreamController.optLanguageCode options with
  | Some code =>
      StreamController.or_string (List.hd_error (split_on "-" code)) "en"
  | None => "en"
  end.

(** [transcribeWithOpenAI]; the temporary file is left out. *)
Definition transcribeWithOpenAI (openaiClient : whisper)
    (audioBuffer : buffer) (options : StreamController.options)
  : result thrown string :=
  match openaiClient audioBuffer (whisper_language options) with
  | WhisperText text =>
      if is_empty (trim text) then
        Err (PlainError
               ("OpenAI Whisper failed: " ++ "No speech detected in audio"))
      else Ok (trim text)
  | WhisperRejects message =>
      Err (PlainError ("OpenAI Whisper failed: " ++ message))
  end.

Record clients : Type := {
  googleClient : option recognizer;
  openaiClient : option whisper
}.

(** What [transcribeAudio] resolves with: the object of the Google path
    or the string of the OpenAI path. *)
Inductive outcome : Type :=
| Recognized (t : transcription)
| Text (s : string).

(** [transcribeAudio] *)
Definition transcribeAudio (c : clients) (audioBuffer : buffer)
    (options : StreamController.options) : result thrown outcome :=
  match googleClient c with
  | Some _ =>
      try! r := transcribeWithGoogle (googleClient c) audioBuffer options in
      Ok (Recognized r)
  | None =>
      match openaiClient c with
      | Some client =>
          try! s := transcribeWithOpenAI client audioBuffer options in
          Ok (Text s)
      | None => Err (PlainError "No speech recognition service configured")
      end
  end.

End Transcription.

(** ** server.js: the endpoints for recordings and text *)

Module Server.

(** A request after the body parsers and multer have run, which leave
    [req.body] an object: the buffer of the uploaded file ([req.file] is
    absent when none was sent), [req.body.audio], a string when present,
    and [req.body.text]. *)
Record request : Type := {
  file : option Transcription.buffer;
  audio : option string;
  text : MappingService.value
}.

(** The error that a handler caught. *)
Inductive cause : Type :=
| TranscriptionFailed (e : Transcription.thrown)
| MappingFailed (e : MappingService.error).

(** The JSON bodies, without their timestamps. *)
Inductive body : Type :=
| Problem (error : string)
| Failure (error : string) (caught : cause)
| Transcript (transcript : Transcription.outcome)
| Mapped (originalText : string) (mappedSigns : list MappingService.sign)
         (captions : list string) (confidence : Q)
| Signs (transcript : Transcription.outcome)
        (mappedSigns : list MappingService.sign)
        (captions : list string) (confidence : Q).

Record response : Type := {
  status : Z;
  content : body
}.

Record app : Type := {
  speechService : Transcription.clients;
  mappingService : MappingService.service
}.

(** The options of a call that passes none. *)
Definition no_options : StreamController.options :=
  {| StreamController.optEncoding := None;
     StreamController.optSampleRate := None;
     StreamController.optLanguageCode := None;
     StreamController.optInterimResults := None |}.

Fixpoint skip_lowercase (s : string) : string :=
  match s with
  | String c r =>
      if (97 <=? code c)%nat && (code c <=? 122)%nat then skip_lowercase r else s
  | EmptyString => s
  end.

(** [s.replace(/^data:audio\/[a-z]+;base64,/, '')] *)
Definition strip_data_url (s : string) : string :=
  if String.prefix "data:audio/" s then
    let rest := drop 11 s in
    let after := skip_lowercase rest in
    if (String.length after <? String.length rest)%nat
       && String.prefix ";base64," after
    then drop 8 after else s
  else s.

(** The argument with which a handler calls [mapTextToSigns]. *)
Definition as_value (o : Transcription.outcome) : MappingService.value :=
  match o with
  | Transcription.Text s => MappingService.JString s
  | Transcription.Recognized _ => MappingService.JOther
  end.

Section Handlers.

(** [Buffer.from(_, 'base64')] *)
Variable from_base64 : string -> Transcription.buffer.

Variable a : app.

(** [POST /api/transcribe] *)
Definition transcribe (req : request) (errors : Monitoring.errors)
  : response * Monitoring.errors :=
  match file req with
  | None =>
      ({| status := 400; content := Problem "No audio file provided" |}, errors)
  | Some audioData =>
      match Transcription.transcribeAudio (speechService a) audioData
                                          no_options with
      | Ok transcript =>
          ({| status := 200; content := Transcript transcript |}, errors)
      | Err error =>
          ({| status := 500;
              content := Failure "Speech recognition failed"
                                 (TranscriptionFailed error) |},
           Monitoring.trackError "transcription" errors)
      end
  end.

(** [POST /api/map] *)
Definition map_text (req : request) (errors : Monitoring.errors)
  : response * Monitoring.errors :=
  match text req with
  | MappingService.JOther | MappingService.JString EmptyString =>
      ({| status := 400;
          content := Problem "Text is required and must be a string" |},
       errors)
  | MappingService.JString text =>
      match MappingService.mapTextToSigns (mappingService a)
                                          (MappingService.JString text) with
      | Ok mappingResult =>
          ({| status := 200;
              content := Mapped text (MappingService.signs mappingResult)
                                (MappingService.mapCaptions mappingResult)
                                (MappingService.mapConfidence mappingResult) |},
           errors)
      | Err error =>
          ({| status := 500;
              content := Failure "Text to sign mapping failed"
                                 (MappingFailed error) |},
           Monitoring.trackError "mapping" errors)
      end
  end.

(** The audio input of [POST /api/speech-to-signs]. *)
Definition audio_input (req : request) : option Transcription.buffer :=
  match file req with
  | Some buffer => Some buffer
  | None =>
      match audio req with
      | Some (String c r) => Some (from_base64 (strip_data_url (String c r)))
      | _ => None
      end
  end.

(** [POST /api/speech-to-signs] *)
Definition speech_to_signs (req : request) (errors : Monitoring.errors)
  : response * Monitoring.errors :=
  match audio_input req with
  | None =>
      ({| status := 400; content := Problem "No audio data provided" |}, errors)
  | Some audioData =>
      let failed caught :=
        ({| status := 500;
            content := Failure "Speech to signs conversion failed" caught |},
         Monitoring.trackError "combined-processing" errors) in
      match Transcription.transcribeAudio (speechService a) audioData
                                          no_options with
      | Err error => failed (TranscriptionFailed error)
      | Ok transcript =>
          match MappingService.mapTextToSigns (mappingService a)
                                              (as_value transcript) with
          | Err error => failed (MappingFailed error)
          | Ok mappingResult =>
              ({| status := 200;
                  content := Signs transcript
                               (MappingService.signs mappingResult)
                               (MappingService.mapCaptions mappingResult)
                               (MappingService.mapConfidence mappingResult) |},
               errors)
          end
      end
  end.

End Handlers.

End Server.

Import MappingService.
Import StreamController.

(** ** Sample data for the examples *)

Definition sample_csv : string :=
  "phrase,gloss,category,video_filename,duration_ms,spoken_variants" ++
  String Vocabulary.newline
    ("hello,HELLO,greeting,HELLO.mp4,1500," ++
     String Vocabulary.quote ("hello,hi" ++ String Vocabulary.quote "")) ++
  String Vocabulary.newline "thank you,THANK-YOU,courtesy,THANK-YOU.mp4,,".


Definition sample_service : MappingService.service :=
  {| mappingData := Some createFallbackMapping;
     vocabularyData :=
       Some [ {| video_filename := Some "HELLO.mp4";
                 duration_ms := Some "1500" |} ];
     cdnBaseUrl := "https://your-cdn-domain.com/videos/" |}.

Definition sample_env : services :=
  {| speech := {| googleClient := true |}; mappings := sample_service |}.

Definition default_options : options :=
  {| optEncoding := None; optSampleRate := None;
     optLanguageCode := None; optInterimResults := None |}.

(** One client, "s1", has started streaming at time 1000. *)
Definition streaming_state : state :=
  run sample_env [(1000%Z, StartStreaming "s1" default_options)] initial.

(** The same, after the runtime destroyed the provider's stream. *)
Definition ended_bridge_state : state :=
  run sample_env [(1000%Z, StartStreaming "s1" default_options);
                  (2000%Z, Destroyed 0)] initial.

(** A [data] event with one result that has one alternative. *)
Definition transcript_event (text : string) (c : option Q) (final : bool)
  : providerEvent :=
  Data {| results :=
            Some [ {| alternatives :=
                        [ {| transcript := text; altConfidence := c |} ];
                      isFinal := final |} ] |}.

(** ** The invariant of the controller

    Socket ids and stream handles occur once in [activeConnections]; the
    stream of a registered connection exists and [end()] has not been
    called on it; [end()] has been called at most once on any stream. *)

Definition handle_of (entry : socketId * connection) : handle :=
  recognizeStream (snd entry).

Record wf (st : state) : Prop := {
  wf_keys : List.NoDup (JSMap.keys (activeConnections st));
  wf_handles : List.NoDup (map handle_of (activeConnections st));
  wf_open : forall socket connection,
      In (socket, connection) (activeConnections st) ->
      exists s, streams st !! recognizeStream connection = Some s /\ ended s = 0;
  wf_ended : forall (h : handle) (s : stream),
      streams st !! h = Some s -> ended s <= 1
}.

(** What the sweep and [stopStreamingRecognition] do to a stream:
    [if (!stream.destroyed) stream.end()]. *)
Definition close_if_live (s : stream) : stream :=
  if destroyed s then s
  else {| destroyed := destroyed s; ended := S (ended s);
          written := written s; owner := owner s |}.

(** Among the entries [l], is there a stale one under this key, or with
    this stream? *)
Definition stale_key (now : Z) (l : list (socketId * connection))
    (key : socketId) : bool :=
  existsb (fun e => stale now (snd e) && String.eqb (fst e) key) l.

Definition stale_handle (now : Z) (l : list (socketId * connection))
    (h : handle) : bool :=
  existsb (fun e => stale now (snd e) && Nat.eqb (handle_of e) h) l.

(** Does a run contain a [start-streaming] of this socket? *)
Definition starts (socket : socketId) (i : input) : bool :=
  match i with
  | StartStreaming socket' _ => String.eqb socket' socket
  | _ => false
  end.

Definition mentions_start (socket : socketId) (inputs : list (Z * input))
  : bool :=
  existsb (fun ti => starts socket (snd ti)) inputs.

(** A series of [audio-data] messages of one socket, with their times. *)
Definition audio_inputs (socket : socketId) (chunks : list (Z * audioData))
  : list (Z * input) :=
  map (fun tc => (fst tc, AudioData socket (snd tc))) chunks.

(** ** What it means that a text matches no dictionary key

    [findMatches] looks a key up in three ways: the whole text, every key
    as a substring of the text, and every word of what is left.  All three
    find a substring of the text, so no key matches when no key is
    included in the text. *)

Definition matches_no_key (d : dictionary) (text : string) : bool :=
  forallb (fun key => negb (includes text key)) (map fst d).

Definition no_inherited_word (text : string) : bool :=
  forallb (fun word => negb (inherited_name word)) (split_space text).

(** The shape of a normalized text: words of settled code units -- word
    characters that lowercasing leaves alone -- separated by single
    spaces.  [after_space] tells that the previous code unit was a space. *)
Definition settled (c : ascii) : bool :=
  is_word c && Ascii.eqb (lower_char c) c.

Fixpoint tidy (after_space : bool) (s : string) : bool :=
  match s with
  | EmptyString => true
  | String c r =>
      if Ascii.eqb c " " then negb after_space && tidy true r
      else settled c && tidy false r
  end.

Fixpoint every (P : ascii -> bool) (s : string) : bool :=
  match s with
  | EmptyString => true
  | String c r => P c && every P r
  end.

(** What the loops of [findMatches] maintain: the sum of the weights is
    between 0 and the number of matches, which is the number of matched
    phrases recorded. *)
Definition scan_ok (sc : scan) : Prop :=
  (0 <= totalConfidence sc)%Q /\
  (totalConfidence sc <= inject_Z (Z.of_nat (matchCount sc)))%Q /\
  List.length (matchedPhrases (found sc)) = matchCount sc.

(** The text that a transcription carries. *)
Definition spoken (o : Transcription.outcome) : string :=
  match o with
  | Transcription.Recognized t => Transcription.transcript t
  | Transcription.Text s => s
  end.

(** The status codes and error types of [transcribeWithGoogle]. *)
Definition classified : list (Z * Transcription.errorType) :=
  [ (400, Transcription.SPEECH_NO_AUDIO_DETECTED);
    (400, Transcription.SPEECH_AUDIO_TOO_LARGE);
    (400, Transcription.SPEECH_AUDIO_INVALID_FORMAT);
    (401, Transcription.AUTH_MISSING_CREDENTIALS);
    (403, Transcription.AUTH_INSUFFICIENT_PERMISSIONS);
    (429, Transcription.SPEECH_QUOTA_EXCEEDED);
    (500, Transcription.SPEECH_RECOGNITION_FAILED);
    (500, Transcription.SPEECH_SERVICE_UNAVAILABLE);
    (503, Transcription.SPEECH_SERVICE_UNAVAILABLE) ]%Z.

(** Providers and requests for the examples. *)
Definition sample_recognizer : Transcription.recognizer :=
  fun _ _ =>
    Transcription.Resolves
      (Some {| Transcription.results :=
                 Some [ [ {| transcript := " thank you";
                             altConfidence := Some (9 # 10) |} ];
                        [ {| transcript := "please ";
                             altConfidence := None |} ] ] |}).

Definition exhausted_recognizer : Transcription.recognizer :=
  fun _ _ =>
    Transcription.Rejects
      {| Transcription.failureCode := Transcription.Numeric 8;
         Transcription.failureMessage := "Quota exceeded" |}.

Definition sample_whisper : Transcription.whisper :=
  fun _ _ => Transcription.WhisperText " thank you please ".

Definition google_app : Server.app :=
  {| Server.speechService :=
       {| Transcription.googleClient := Some sample_recognizer;
          Transcription.openaiClient := Some sample_whisper |};
     Server.mappingService := sample_service |}.

Definition whisper_app : Server.app :=
  {| Server.speechService :=
       {| Transcription.googleClient := None;
          Transcription.openaiClient := Some sample_whisper |};
     Server.mappingService := sample_service |}.

Definition sample_upload : Server.request :=
  {| Server.file := Some [82; 73; 70; 70]%N;
     Server.audio := None;
     Server.text := JOther |}.

Definition sample_text_request : Server.request :=
  {| Server.file := None;
     Server.audio := None;
     Server.text := JString "Thank you!" |}.

(** [Buffer.from(_, 'base64')] of the examples: its result is not looked
    at by the providers above. *)
Definition sample_decoder : string -> Transcription.buffer :=
  fun s => map (fun c => N.of_nat (code c)) (list_ascii_of_string s).

(** How often [trackError] has counted a type. *)
Definition counted (type : string) (e : Monitoring.errors) : nat :=
  match JSMap.get type (Monitoring.byType e) with
  | Some (Monitoring.Count n) => n
  | _ => 0
  end.

(** Every member of [byType] is a count above zero. *)
Definition counts_positive (e : Monitoring.errors) : Prop :=
  forall type c, JSMap.get type (Monitoring.byType e) = Some c ->
                 exists n, c = Monitoring.Count (S n).

(** A run of [trackError] and of [trackProcessingTime]. *)
Definition track_errors (types : list string) (e : Monitoring.errors)
  : Monitoring.errors :=
  fold_left (fun e type => Monitoring.trackError type e) types e.

Definition track_times (calls : list (string * Z)) (p : Monitoring.processing)
  : Monitoring.processing :=
  fold_left (fun p call => Monitoring.trackProcessingTime (fst call) (snd call) p)
            calls p.

(** A string without its quotation marks. *)
Fixpoint unquoted (s : string) : string :=
  match s with
  | EmptyString => EmptyString
  | String c r =>
      if Ascii.eqb c Vocabulary.quote then unquoted r else String c (unquoted r)
  end.

Definition quote_free (s : string) : bool :=
  every (fun c => negb (Ascii.eqb c Vocabulary.quote)) s.

(** More of what the loops maintain: captions and matched phrases are
    the same list, one per match; without a match there is no video file;
    every match weighs at least 0.8. *)
Definition scan_consistent (sc : scan) : Prop :=
  captions (found sc) = matchedPhrases (found sc) /\
  List.length (captions (found sc)) = matchCount sc /\
  (matchCount sc = 0 -> videoFiles (found sc) = []) /\
  ((8 # 10) * inject_Z (Z.of_nat (matchCount sc)) <= totalConfidence sc)%Q.

(** * Properties of the mapping service *)

Section StringFacts.

Lemma prefix_refl (s : string) : String.prefix s s = true.
Proof.
  induction s as [|c s IH]; simpl; [reflexivity|].
  destruct (ascii_dec c c); [exact IH | congruence].
Qed.

Lemma prefix_empty (s : string) : String.prefix EmptyString s = true.
Proof. destruct s; reflexivity. Qed.

Lemma prefix_cons (c : ascii) (s t : string) :
  String.prefix (String c s) (String c t) = String.prefix s t.
Proof. simpl. destruct (ascii_dec c c); [reflexivity | congruence]. Qed.

Lemma includes_refl (s : string) : includes s s = true.
Proof. destruct s; simpl; [reflexivity|]. rewrite prefix_refl.
       destruct (ascii_dec a a); [reflexivity | congruence]. Qed.

Lemma includes_tail (c : ascii) (s w : string) :
  includes s w = true -> includes (String c s) w = true.
Proof.
  intros H. change (includes (String c s) w)
    with (String.prefix w (String c s) || includes s w).
  rewrite H. apply orb_true_r.
Qed.

Lemma includes_prefix (s w : string) :
  String.prefix w s = true -> includes s w = true.
Proof. intros H. destruct s; simpl in *; rewrite H; reflexivity. Qed.

(** The first piece of [split_space] is a prefix of the string. *)
Lemma split_space_head (s w : string) (ws : list string) :
  split_space s = w :: ws -> String.prefix w s = true.
Proof.
  revert w ws. induction s as [|c s IH]; intros w ws; simpl.
  - intros [= <- <-]. reflexivity.
  - destruct (Ascii.eqb c " ").
    + intros [= <- <-]. reflexivity.
    + destruct (split_space s) as [|w0 ws0] eqn:E.
      * intros [= <- <-]. destruct (ascii_dec c c); [|congruence].
        apply prefix_empty.
      * intros [= <- <-]. destruct (ascii_dec c c); [|congruence].
        eapply IH; reflexivity.
Qed.

(** Every piece of [split_space] occurs in the string. *)
Lemma split_space_includes (s w : string) :
  In w (split_space s) -> includes s w = true.
Proof.
  revert w. induction s as [|c s IH]; intros w; simpl.
  - intros [<- | []]. reflexivity.
  - destruct (Ascii.eqb c " ").
    + intros [<- | H].
      * reflexivity.
      * rewrite (IH _ H). apply orb_true_r.
    + destruct (split_space s) as [|w0 ws0] eqn:E.
      * intros [<- | []]. destruct (ascii_dec c c); [|congruence].
        rewrite prefix_empty. reflexivity.
      * intros [<- | H].
        -- destruct (ascii_dec c c); [|congruence].
           rewrite (split_space_head s w0 ws0 E). reflexivity.
        -- rewrite (IH w (or_intror H)). apply orb_true_r.
Qed.

(** *** The shape of normalized text *)

Lemma lower_char_idempotent (c : ascii) :
  lower_char (lower_char c) = lower_char c.
Proof. destruct c as [[] [] [] [] [] [] [] []]; reflexivity. Qed.

Lemma word_is_not_space (c : ascii) : is_word c = true -> is_space c = false.
Proof.
  destruct c as [[] [] [] [] [] [] [] []]; intros H;
    reflexivity || discriminate H.
Qed.

Lemma settled_spec (c : ascii) :
  settled c = true ->
  is_word c = true /\ is_space c = false /\ lower_char c = c.
Proof.
  unfold settled. intros H. apply andb_true_iff in H as [Hw Hl].
  apply Ascii.eqb_eq in Hl. auto using word_is_not_space.
Qed.

Lemma every_weaken (P Q : ascii -> bool) (s : string) :
  (forall c, P c = true -> Q c = true) -> every P s = true -> every Q s = true.
Proof.
  intros HPQ. induction s as [|c s IH]; simpl; [reflexivity|].
  intros H. apply andb_true_iff in H as [Hc Hs].
  rewrite (HPQ c Hc), (IH Hs). reflexivity.
Qed.

Lemma every_toLowerCase (s : string) :
  every (fun c => Ascii.eqb (lower_char c) c) (toLowerCase s) = true.
Proof.
  induction s as [|c s IH]; simpl; [reflexivity|].
  rewrite lower_char_idempotent, Ascii.eqb_refl. exact IH.
Qed.

Lemma every_trimStart (P : ascii -> bool) (s : string) :
  every P s = true -> every P (trimStart s) = true.
Proof.
  induction s as [|c s IH]; simpl; [reflexivity|].
  intros H. destruct (is_space c); [|exact H].
  apply andb_true_iff in H as [_ H]. exact (IH H).
Qed.

Lemma every_trimEnd (P : ascii -> bool) (s : string) :
  every P s = true -> every P (trimEnd s) = true.
Proof.
  induction s as [|c s IH]; simpl; [reflexivity|].
  intros H. apply andb_true_iff in H as [Hc Hs]. specialize (IH Hs).
  destruct (trimEnd s) as [|c' r'].
  - destruct (is_space c); simpl; [reflexivity|]. rewrite Hc. reflexivity.
  - simpl in *. rewrite Hc. exact IH.
Qed.

Lemma every_strip_punctuation (P : ascii -> bool) (s : string) :
  every P s = true ->
  every (fun c => P c && (is_word c || is_space c)) (strip_punctuation s)
  = true.
Proof.
  induction s as [|c s IH]; simpl; [reflexivity|].
  intros H. apply andb_true_iff in H as [Hc Hs]. specialize (IH Hs).
  destruct (is_word c || is_space c) eqn:E; simpl; [|exact IH].
  rewrite Hc, E. exact IH.
Qed.

Lemma tidy_collapse (s : string) : forall in_run : bool,
  every (fun c => Ascii.eqb (lower_char c) c && (is_word c || is_space c)) s
  = true ->
  tidy in_run (collapse_from in_run s) = true.
Proof.
  induction s as [|c s IH]; intros in_run; simpl; [reflexivity|].
  intros H. apply andb_true_iff in H as [Hc Hs].
  apply andb_true_iff in Hc as [Hlow Hclass].
  destruct (is_space c) eqn:Esp.
  - destruct in_run; simpl; apply IH; exact Hs.
  - simpl. destruct (Ascii.eqb_spec c " ") as [->|_]; [discriminate Esp|].
    unfold settled. rewrite orb_false_r in Hclass.
    rewrite Hclass, Hlow. apply IH. exact Hs.
Qed.

Lemma tidy_toLowerCase (s : string) : forall b,
  tidy b s = true -> toLowerCase s = s.
Proof.
  induction s as [|c s IH]; intros b; simpl; [reflexivity|].
  destruct (Ascii.eqb_spec c " ") as [->|_]; intros H;
    apply andb_true_iff in H as [Hc Hs]; rewrite (IH _ Hs).
  - reflexivity.
  - apply settled_spec in Hc as (_ & _ & ->). reflexivity.
Qed.

Lemma tidy_trimStart (s : string) : forall b b',
  tidy b s = true -> tidy b' (trimStart s) = true.
Proof.
  induction s as [|c s IH]; intros b b'; simpl; [reflexivity|].
  destruct (Ascii.eqb_spec c " ") as [->|Hne]; intros H;
    apply andb_true_iff in H as [Hc Hs].
  - simpl. exact (IH _ _ Hs).
  - pose proof (settled_spec c Hc) as (_ & Hsp & _). rewrite Hsp. simpl.
    destruct (Ascii.eqb_spec c " "); [contradiction|].
    rewrite Hc. exact Hs.
Qed.

Lemma tidy_trimEnd (s : string) : forall b,
  tidy b s = true -> tidy b (trimEnd s) = true.
Proof.
  induction s as [|c s IH]; intros b; simpl; [reflexivity|].
  destruct (Ascii.eqb_spec c " ") as [->|Hne]; intros H;
    apply andb_true_iff in H as [Hc Hs]; specialize (IH _ Hs).
  - destruct (trimEnd s) as [|c' r']; simpl; [reflexivity|].
    rewrite Hc. exact IH.
  - pose proof (settled_spec c Hc) as (_ & Hsp & _).
    destruct (trimEnd s) as [|c' r']; [rewrite Hsp|]; simpl;
      destruct (Ascii.eqb_spec c " "); try contradiction;
      rewrite Hc; [reflexivity | exact IH].
Qed.

Lemma tidy_strip_punctuation (s : string) : forall b,
  tidy b s = true -> strip_punctuation s = s.
Proof.
  induction s as [|c s IH]; intros b; simpl; [reflexivity|].
  destruct (Ascii.eqb_spec c " ") as [->|_]; intros H;
    apply andb_true_iff in H as [Hc Hs]; rewrite (IH _ Hs).
  - reflexivity.
  - apply settled_spec in Hc as (-> & _ & _). reflexivity.
Qed.

Lemma tidy_collapse_unchanged (s : string) : forall b,
  tidy b s = true -> collapse_from b s = s.
Proof.
  induction s as [|c s IH]; intros b; simpl; [reflexivity|].
  destruct (Ascii.eqb_spec c " ") as [->|_]; intros H;
    apply andb_true_iff in H as [Hc Hs]; simpl.
  - destruct b; [discriminate Hc|]. rewrite (IH _ Hs). reflexivity.
  - apply settled_spec in Hc as (_ & -> & _). rewrite (IH _ Hs). reflexivity.
Qed.

End StringFacts.

Section DictionaryFacts.

Variable d : dictionary.

Lemma own_Some_key (key : string) (files : list string) :
  own d key = Some files -> In key (map fst d).
Proof.
  induction d as [|[k v] d' IH]; simpl; [discriminate|].
  destruct (String.eqb k key) eqn:E.
  - apply String.eqb_eq in E. intros _. left. exact E.
  - intros H. right. exact (IH H).
Qed.

Lemma In_insert_by_length (k x : string) (l : list string) :
  In x (insert_by_length k l) -> x = k \/ In x l.
Proof.
  induction l as [|y l IH]; simpl.
  - intros [<- | []]. left. reflexivity.
  - destruct (String.length k <? String.length y)%nat; simpl.
    + intros [<- | H]; [right; left; reflexivity|].
      destruct (IH H) as [-> | H']; [left | right; right]; auto.
    + intros [<- | H]; [left; reflexivity | right; exact H].
Qed.

Lemma In_sort_longest_first (x : string) (l : list string) :
  In x (sort_longest_first l) -> In x l.
Proof.
  induction l as [|k l IH]; simpl; [tauto|].
  intros H. apply In_insert_by_length in H as [-> | H]; [left | right]; auto.
Qed.

Lemma inherited_name_single_word (key : string) :
  inherited_name key = true -> split_space key = [key].
Proof.
  unfold inherited_name, object_prototype_names, existsb.
  repeat match goal with
         | |- context [String.eqb key ?name] =>
             destruct (String.eqb_spec key name) as [->|_];
             [intros _; reflexivity|]
         end.
  discriminate.
Qed.

(** A text in which no key occurs is not a property of the dictionary,
    own or inherited, as long as none of its words is inherited. *)
Lemma get_unmatched (text : string) :
  matches_no_key d text = true ->
  no_inherited_word text = true ->
  get d text = Undefined.
Proof.
  unfold matches_no_key, no_inherited_word. rewrite !forallb_forall.
  intros Hkeys Hwords. unfold get.
  destruct (own d text) as [files|] eqn:Eown.
  - apply own_Some_key in Eown. specialize (Hkeys _ Eown).
    rewrite includes_refl in Hkeys. discriminate.
  - destruct (inherited_name text) eqn:Einh; [|reflexivity].
    specialize (Hwords text). rewrite Einh in Hwords.
    rewrite (inherited_name_single_word _ Einh) in Hwords.
    discriminate Hwords. left. reflexivity.
Qed.

Lemma get_unmatched_word (text word : string) :
  matches_no_key d text = true ->
  no_inherited_word text = true ->
  In word (split_space text) ->
  get d word = Undefined.
Proof.
  unfold matches_no_key, no_inherited_word. rewrite !forallb_forall.
  intros Hkeys Hwords Hin. unfold get.
  destruct (own d word) as [files|] eqn:Eown.
  - apply own_Some_key in Eown. specialize (Hkeys _ Eown).
    rewrite (split_space_includes _ _ Hin) in Hkeys. discriminate.
  - specialize (Hwords _ Hin).
    destruct (inherited_name word); [discriminate | reflexivity].
Qed.

End DictionaryFacts.

Section LoopFacts.

Context {E S X : Type}.

(** A loop whose body leaves the state alone leaves the state alone. *)
Lemma for_each_unchanged (body : S -> X -> result E S) (xs : list X) (s : S) :
  (forall x, In x xs -> body s x = Ok s) ->
  for_each body xs s = Ok s.
Proof.
  induction xs as [|x xs IH]; simpl; intros H; [reflexivity|].
  rewrite (H x (or_introl eq_refl)). simpl.
  apply IH. intros y Hy. apply H. right. exact Hy.
Qed.

(** A property that every iteration preserves holds after the loop. *)
Lemma for_each_invariant (P : S -> Prop) (body : S -> X -> result E S)
    (xs : list X) : forall s s',
  (forall s x s', P s -> body s x = Ok s' -> P s') ->
  P s -> for_each body xs s = Ok s' -> P s'.
Proof.
  induction xs as [|x xs IH]; simpl; intros s s' Hbody Hs.
  - intros [= <-]. exact Hs.
  - destruct (body s x) as [s1|e] eqn:Hb; simpl; [|discriminate].
    apply IH; [exact Hbody|]. exact (Hbody s x s1 Hs Hb).
Qed.

End LoopFacts.

(** The result of [normalizeText] is made of lowercase words separated by
    single spaces, possibly with one space in front or at the end. *)
Lemma normalizeText_tidy (text : string) :
  tidy false (normalizeText text) = true.
Proof.
  unfold normalizeText, collapse_whitespace. apply tidy_collapse.
  apply (every_weaken
           (fun c => Ascii.eqb (lower_char c) c && (is_word c || is_space c)));
    [auto|].
  apply every_strip_punctuation. unfold trim.
  apply every_trimEnd, every_trimStart, every_toLowerCase.
Qed.

(** A second pass of [normalizeText] does nothing but trim. *)
Lemma normalizeText_twice (text : string) :
  normalizeText (normalizeText text) = trim (normalizeText text).
Proof.
  pose proof (normalizeText_tidy text) as Htidy.
  set (once := normalizeText text) in *.
  unfold normalizeText at 1. rewrite (tidy_toLowerCase once false Htidy).
  assert (Htrim : tidy false (trim once) = true).
  { unfold trim. apply tidy_trimEnd. eapply tidy_trimStart. exact Htidy. }
  rewrite (tidy_strip_punctuation _ false Htrim).
  exact (tidy_collapse_unchanged _ false Htrim).
Qed.

Section MappingProperties.

Variable svc : MappingService.service.
Variable d : dictionary.
Hypothesis loaded : mappingData svc = Some d.

(** When no key occurs in the text the two loops of [findMatches] find
    nothing and the fallback entry is returned. *)
Lemma findMatches_unmatched (text : string) :
  matches_no_key d text = true ->
  no_inherited_word text = true ->
  findMatches svc text = Ok fallback.
Proof.
  intros Hkeys Hwords. unfold findMatches. rewrite loaded.
  rewrite (get_unmatched d text Hkeys Hwords).
  rewrite for_each_unchanged; simpl.
  - rewrite for_each_unchanged; [reflexivity|].
    intros w Hw. apply filter_In in Hw as [Hw _].
    unfold word_step.
    rewrite (get_unmatched_word d text w Hkeys Hwords Hw). reflexivity.
  - intros k Hk. apply In_sort_longest_first in Hk.
    unfold phrase_step. simpl.
    unfold matches_no_key in Hkeys. rewrite forallb_forall in Hkeys.
    specialize (Hkeys k Hk). destruct (includes text k); [discriminate|].
    reflexivity.
Qed.

Lemma findMatches_exact (text : string) (files : list string) :
  own d text = Some files ->
  findMatches svc text =
    Ok {| videoFiles := files; captions := [text];
          confidence := 1; matchedPhrases := [text] |}.
Proof.
  intros Hown. unfold findMatches, get. rewrite loaded, Hown. reflexivity.
Qed.

Lemma record_match_ok (sc : scan) (phrase : string) (files : list string)
    (rest : string) (weight : Q) :
  (0 <= weight)%Q -> (weight <= 1)%Q ->
  scan_ok sc -> scan_ok (record_match sc phrase files rest weight).
Proof.
  intros Hw0 Hw1 (H0 & H1 & Hlen). unfold scan_ok, record_match.
  cbn [totalConfidence matchCount found matchedPhrases].
  split; [|split].
  - apply (Qle_trans _ (0 + 0)); [discriminate|].
    apply Qplus_le_compat; assumption.
  - rewrite Nat2Z.inj_succ, <- Z.add_1_r, inject_Z_plus.
    apply Qplus_le_compat; assumption.
  - rewrite length_app, Hlen. simpl. lia.
Qed.

Lemma phrase_step_ok (sc sc' : scan) (phrase : string) :
  scan_ok sc -> phrase_step d sc phrase = Ok sc' -> scan_ok sc'.
Proof.
  intros Hok. unfold phrase_step.
  destruct (includes (remainingText sc) phrase); [|intros [= <-]; exact Hok].
  destruct (get d phrase); try discriminate.
  intros [= <-]. apply record_match_ok; [discriminate | discriminate | exact Hok].
Qed.

Lemma word_step_ok (sc sc' : scan) (word : string) :
  scan_ok sc -> word_step d sc word = Ok sc' -> scan_ok sc'.
Proof.
  intros Hok. unfold word_step.
  destruct (get d word); try discriminate.
  - intros [= <-]. exact Hok.
  - intros [= <-]. apply record_match_ok; [discriminate | discriminate | exact Hok].
Qed.

Lemma split_space_nonempty (s : string) : (1 <= List.length (split_space s))%nat.
Proof.
  induction s as [|c s IH]; simpl; [lia|].
  destruct (Ascii.eqb c " "); simpl; [lia|].
  destruct (split_space s); simpl in *; lia.
Qed.

Lemma finish_bounds (sc : scan) (totalWords : nat) :
  (1 <= totalWords)%nat -> scan_ok sc ->
  let m := finish sc totalWords in
  (0 <= confidence m)%Q /\
  (confidence m <= inject_Z (Z.of_nat (List.length (matchedPhrases m))))%Q.
Proof.
  intros Hwords (H0 & H1 & Hlen). unfold finish.
  destruct (videoFiles (found sc)) as [|f fs]; simpl.
  - split; discriminate.
  - rewrite Hlen. destruct (0 <? matchCount sc)%nat.
    + assert (Hn : (0 < inject_Z (Z.of_nat totalWords))%Q).
      { rewrite <- (Zlt_Qlt 0). lia. }
      split.
      * apply Qle_shift_div_l; [exact Hn|]. rewrite Qmult_0_l. exact H0.
      * apply Qle_shift_div_r; [exact Hn|].
        apply (Qle_trans _ (inject_Z (Z.of_nat (matchCount sc)) * 1)).
        -- rewrite Qmult_1_r. exact H1.
        -- apply Qmult_le_compat_nonneg.
           ++ split; [|apply Qle_refl]. rewrite <- (Zle_Qle 0). lia.
           ++ split; [discriminate|]. rewrite <- (Zle_Qle 1). lia.
    + split; [discriminate|]. rewrite <- (Zle_Qle 0). lia.
Qed.

(** Whatever [findMatches] returns, its confidence is not negative and
    does not exceed the number of matched phrases. *)
Lemma findMatches_confidence_bounds (text : string) (m : matches) :
  findMatches svc text = Ok m ->
  (0 <= confidence m)%Q /\
  (confidence m <= inject_Z (Z.of_nat (List.length (matchedPhrases m))))%Q.
Proof.
  unfold findMatches. rewrite loaded.
  destruct (get d text) as [|files|]; [|intros [= <-]; simpl; split; discriminate
                                      |discriminate].
  destruct (for_each (phrase_step d) _ _) as [sc|e] eqn:E1; simpl; [|discriminate].
  destruct (for_each (word_step d) _ sc) as [sc'|e] eqn:E2; simpl; [|discriminate].
  intros [= <-]. apply finish_bounds; [apply split_space_nonempty|].
  eapply (for_each_invariant scan_ok); [| |exact E2].
  - intros s x s'. apply word_step_ok.
  - eapply (for_each_invariant scan_ok); [| |exact E1].
    + intros s x s'. apply phrase_step_ok.
    + repeat split; simpl; discriminate || reflexivity.
Qed.

End MappingProperties.

(** C2, as stated, fails on the empty string: no key of the dictionary
    occurs in it, yet [mapTextToSigns] rejects it with 'Invalid text
    input' instead of returning the fallback entry. *)
Lemma empty_text_is_rejected :
  matches_no_key createFallbackMapping (normalizeText "") = true /\
  mapTextToSigns sample_service (JString "") = Err InvalidTextInput.
Proof. split; reflexivity. Qed.

(** C2, amended: with the dictionary loaded, for every non-empty string
    whose normalized form contains no dictionary key and no word that names
    a member of Object.prototype, [mapTextToSigns] succeeds and returns
    exactly the fallback entry (one sign NOT-UNDERSTAND.mp4, one caption)
    with confidence 0.1; the empty string and every value that is not a
    string are rejected with 'Invalid text input'. *)
Theorem unmatched_text_yields_fallback
    (svc : MappingService.service) (d : dictionary) (text : string) :
  mappingData svc = Some d ->
  text <> "" ->
  matches_no_key d (normalizeText text) = true ->
  no_inherited_word (normalizeText text) = true ->
  mapTextToSigns svc (JString text) =
    Ok {| signs := [to_sign svc "NOT-UNDERSTAND.mp4"];
          mapCaptions := ["I don't understand"];
          mapConfidence := 1 # 10;
          mapMatchedPhrases := ["fallback"] |}
  /\ mapTextToSigns svc (JString "") = Err InvalidTextInput
  /\ mapTextToSigns svc JOther = Err InvalidTextInput.
Proof.
  intros Hd Hne Hkeys Hwords. split; [|split; reflexivity].
  destruct text as [|c r]; [congruence|].
  unfold mapTextToSigns.
  rewrite (findMatches_unmatched svc d Hd _ Hkeys Hwords). reflexivity.
Qed.

Lemma unmatched_text_yields_fallback_witness :
  mapTextToSigns sample_service (JString "  Good morning?  ") =
    Ok {| signs := [to_sign sample_service "NOT-UNDERSTAND.mp4"];
          mapCaptions := ["I don't understand"];
          mapConfidence := 1 # 10;
          mapMatchedPhrases := ["fallback"] |}
  /\ mapTextToSigns sample_service (JString "") = Err InvalidTextInput
  /\ mapTextToSigns sample_service JOther = Err InvalidTextInput.
Proof.
  apply (unmatched_text_yields_fallback sample_service createFallbackMapping
           "  Good morning?  ").
  - reflexivity.
  - discriminate.
  - reflexivity.
  - reflexivity.
Defined.

(** C3: the confidence is not confined to [0,1].  With the dictionary of
    [createFallbackMapping], the one-word text "nothing" contains the keys
    "hi" and "no"; both count as matches and the confidence is 2/1 = 2. *)
Theorem nothing_has_confidence_two :
  exists m : mapping,
    mapTextToSigns sample_service (JString "nothing") = Ok m /\
    mapMatchedPhrases m = ["hi"; "no"] /\
    mapConfidence m = 2%Q /\
    ~ (0 <= mapConfidence m <= 1)%Q.
Proof.
  eexists. split; [vm_compute; reflexivity|]. simpl.
  split; [reflexivity|]. split; [reflexivity|].
  intros [_ H]. vm_compute in H. apply H. reflexivity.
Qed.

(** C4: when the normalized text is a key of the dictionary, [findMatches]
    returns that entry's video files, unchanged and in order, with
    confidence 1, and [mapTextToSigns] turns exactly these files into the
    signs of its result. *)
Theorem exact_key_returns_entry
    (svc : MappingService.service) (d : dictionary) (text : string)
    (files : list string) :
  mappingData svc = Some d ->
  own d (normalizeText text) = Some files ->
  findMatches svc (normalizeText text) =
    Ok {| videoFiles := files; captions := [normalizeText text];
          confidence := 1; matchedPhrases := [normalizeText text] |}
  /\ (text <> "" ->
      exists m : mapping,
        mapTextToSigns svc (JString text) = Ok m /\
        map filename (signs m) = files /\
        mapConfidence m = 1%Q /\
        mapCaptions m = [normalizeText text]).
Proof.
  intros Hd Hown.
  pose proof (findMatches_exact svc d Hd _ files Hown) as Hfind.
  split; [exact Hfind|].
  intros Hne. destruct text as [|c r]; [congruence|].
  unfold mapTextToSigns. rewrite Hfind. simpl.
  eexists. split; [reflexivity|]. simpl.
  split; [|split; reflexivity].
  rewrite map_map. simpl. apply map_id.
Qed.

Lemma exact_key_returns_entry_witness :
  findMatches sample_service (normalizeText "Thank you!") =
    Ok {| videoFiles := ["THANK-YOU.mp4"];
          captions := [normalizeText "Thank you!"];
          confidence := 1;
          matchedPhrases := [normalizeText "Thank you!"] |}
  /\ ("Thank you!" <> "" ->
      exists m : mapping,
        mapTextToSigns sample_service (JString "Thank you!") = Ok m /\
        map filename (signs m) = ["THANK-YOU.mp4"] /\
        mapConfidence m = 1%Q /\
        mapCaptions m = [normalizeText "Thank you!"]).
Proof.
  apply (exact_key_returns_entry sample_service createFallbackMapping
           "Thank you!" ["THANK-YOU.mp4"]).
  - reflexivity.
  - reflexivity.
Defined.

(** C5: [normalizeText] is not idempotent.  It trims before it removes
    punctuation, so the space in front of a final punctuation mark
    survives the first pass and is trimmed by the second. *)
Theorem normalizeText_not_idempotent :
  normalizeText "hello !" = "hello " /\
  normalizeText (normalizeText "hello !") = "hello" /\
  normalizeText (normalizeText "hello !") <> normalizeText "hello !".
Proof.
  split; [reflexivity|]. split; [reflexivity|].
  vm_compute. discriminate.
Qed.

(** * Properties of the stream controller *)

Section JSMapFacts.

Context {V : Type}.
Implicit Types (m : list (string * V)) (k : string) (v : V).

Lemma get_set_eq m k v : JSMap.get k (JSMap.set k v m) = Some v.
Proof.
  induction m as [|[k' v'] m IH]; simpl.
  - rewrite String.eqb_refl. reflexivity.
  - destruct (String.eqb k' k) eqn:E; simpl; rewrite E; auto.
Qed.

Lemma get_set_ne m k k' v :
  k <> k' -> JSMap.get k' (JSMap.set k v m) = JSMap.get k' m.
Proof.
  intros Hne. induction m as [|[k0 v0] m IH]; simpl.
  - destruct (String.eqb_spec k k'); [contradiction | reflexivity].
  - destruct (String.eqb_spec k0 k) as [->|Hk]; simpl.
    + destruct (String.eqb_spec k k'); [contradiction | reflexivity].
    + rewrite IH. reflexivity.
Qed.

(** Overwriting the value of a key that is present neither adds nor
    moves an entry. *)
Lemma keys_set_present m k v v0 :
  JSMap.get k m = Some v0 -> JSMap.keys (JSMap.set k v m) = JSMap.keys m.
Proof.
  unfold JSMap.keys.
  induction m as [|[k' v'] m IH]; simpl; [discriminate|].
  destruct (String.eqb_spec k' k) as [->|Hk]; simpl; [reflexivity|].
  intros H. rewrite (IH H). reflexivity.
Qed.

Lemma keys_set_absent m k v :
  JSMap.get k m = None -> JSMap.keys (JSMap.set k v m) = JSMap.keys m ++ [k].
Proof.
  unfold JSMap.keys.
  induction m as [|[k' v'] m IH]; simpl; [reflexivity|].
  destruct (String.eqb_spec k' k) as [->|Hk]; simpl; [discriminate|].
  intros H. rewrite (IH H). reflexivity.
Qed.

Lemma get_None_keys m k : JSMap.get k m = None <-> ~ In k (JSMap.keys m).
Proof.
  unfold JSMap.keys.
  induction m as [|[k' v'] m IH]; simpl; [tauto|].
  destruct (String.eqb_spec k' k) as [->|Hk].
  - split; [discriminate | intros H; exfalso; apply H; left; reflexivity].
  - rewrite IH. tauto.
Qed.

Lemma get_Some_In m k v : JSMap.get k m = Some v -> In (k, v) m.
Proof.
  induction m as [|[k' v'] m IH]; simpl; [discriminate|].
  destruct (String.eqb_spec k' k) as [->|Hk].
  - intros [= ->]. left. reflexivity.
  - intros H. right. exact (IH H).
Qed.

Lemma In_get m k v :
  List.NoDup (JSMap.keys m) -> In (k, v) m -> JSMap.get k m = Some v.
Proof.
  induction m as [|[k' v'] m IH]; simpl; [tauto|].
  intros Hnd. apply List.NoDup_cons_iff in Hnd as [Hk' Hnd].
  intros [[= -> ->] | Hin].
  - rewrite String.eqb_refl. reflexivity.
  - destruct (String.eqb_spec k' k) as [->|Hk].
    + exfalso. apply Hk'. apply (in_map fst) in Hin. exact Hin.
    + exact (IH Hnd Hin).
Qed.

Lemma delete_filter m k :
  JSMap.delete k m = List.filter (fun e => negb (String.eqb (fst e) k)) m.
Proof.
  induction m as [|[k' v'] m IH]; simpl; [reflexivity|].
  rewrite IH. destruct (String.eqb k' k); reflexivity.
Qed.

Lemma In_delete m k e :
  In e (JSMap.delete k m) <-> In e m /\ fst e <> k.
Proof.
  rewrite delete_filter, filter_In.
  destruct (String.eqb_spec (fst e) k); simpl; intuition congruence.
Qed.

Lemma get_delete_eq m k : JSMap.get k (JSMap.delete k m) = None.
Proof.
  apply get_None_keys. intros H. apply in_map_iff in H as [e [He Hin]].
  apply In_delete in Hin as [_ Hne]. contradiction.
Qed.

Lemma get_delete_ne m k k' :
  k <> k' -> JSMap.get k' (JSMap.delete k m) = JSMap.get k' m.
Proof.
  intros Hne. induction m as [|[k0 v0] m IH]; simpl; [reflexivity|].
  destruct (String.eqb_spec k0 k) as [->|Hk]; simpl.
  - destruct (String.eqb_spec k k'); [contradiction | exact IH].
  - rewrite IH. reflexivity.
Qed.

(** Deleting a key that is absent changes nothing. *)
Lemma delete_absent m k : JSMap.get k m = None -> JSMap.delete k m = m.
Proof.
  induction m as [|[k' v'] m IH]; simpl; [reflexivity|].
  destruct (String.eqb_spec k' k) as [->|Hk]; [discriminate|].
  intros H. rewrite (IH H). reflexivity.
Qed.

Lemma NoDup_keys_filter m (keep : string * V -> bool) :
  List.NoDup (JSMap.keys m) -> List.NoDup (JSMap.keys (List.filter keep m)).
Proof.
  induction m as [|e m IH]; simpl; [auto|].
  intros Hnd. apply List.NoDup_cons_iff in Hnd as [Hk Hnd].
  destruct (keep e); simpl; [|exact (IH Hnd)].
  apply List.NoDup_cons; [|exact (IH Hnd)].
  intros Hin. apply Hk. apply in_map_iff in Hin as [e' [He' Hin]].
  apply filter_In in Hin as [Hin _]. rewrite <- He'.
  apply (in_map fst). exact Hin.
Qed.

Lemma NoDup_keys_delete m k :
  List.NoDup (JSMap.keys m) -> List.NoDup (JSMap.keys (JSMap.delete k m)).
Proof. rewrite delete_filter. apply NoDup_keys_filter. Qed.

Lemma NoDup_keys_set m k v :
  List.NoDup (JSMap.keys m) -> List.NoDup (JSMap.keys (JSMap.set k v m)).
Proof.
  intros Hnd. destruct (JSMap.get k m) as [v0|] eqn:E.
  - rewrite (keys_set_present _ _ _ _ E). exact Hnd.
  - rewrite (keys_set_absent _ _ _ E).
    apply List.NoDup_app; [exact Hnd | |].
    + apply List.NoDup_cons; [intros [] | apply List.NoDup_nil].
    + intros x Hx [<- | []]. apply get_None_keys in E. contradiction.
Qed.

Lemma In_set m k v e :
  In e (JSMap.set k v m) -> e = (k, v) \/ In e m.
Proof.
  induction m as [|[k' v'] m IH]; simpl.
  - intros [<- | []]. left. reflexivity.
  - destruct (String.eqb_spec k' k) as [->|Hk]; simpl.
    + intros [<- | Hin]; [left; reflexivity | right; right; exact Hin].
    + intros [<- | Hin]; [right; left; reflexivity|].
      destruct (IH Hin) as [-> | H]; [left | right; right]; auto.
Qed.

End JSMapFacts.

Section Handlers.

Implicit Types (st : state) (socket : socketId).

Lemma update_stream_connections (f : stream -> stream) (h : handle) st :
  activeConnections (update_stream f h st) = activeConnections st.
Proof. unfold update_stream. destruct (streams st !! h); reflexivity. Qed.

Lemma update_stream_emitted (f : stream -> stream) (h : handle) st :
  emitted (update_stream f h st) = emitted st.
Proof. unfold update_stream. destruct (streams st !! h); reflexivity. Qed.

Lemma update_stream_lookup (f : stream -> stream) (h h' : handle) st :
  streams (update_stream f h st) !! h' =
  if decide (h' = h) then f <$> streams st !! h else streams st !! h'.
Proof.
  unfold update_stream.
  destruct (streams st !! h) as [s|] eqn:E; simpl.
  - destruct (decide (h' = h)) as [->|Hne].
    + apply lookup_insert_eq.
    + apply lookup_insert_ne. congruence.
  - destruct (decide (h' = h)) as [->|Hne]; [exact E | reflexivity].
Qed.

(** [if (!stream.destroyed) stream.end()] *)
Lemma close_lookup (h h' : handle) st :
  streams (if is_destroyed h st then st else end_stream h st) !! h' =
  if decide (h' = h) then close_if_live <$> streams st !! h
  else streams st !! h'.
Proof.
  unfold is_destroyed, close_if_live.
  destruct (streams st !! h) as [s|] eqn:E.
  - destruct (destroyed s) eqn:D.
    + destruct (decide (h' = h)) as [->|]; [|reflexivity].
      rewrite E. simpl. rewrite D. reflexivity.
    + unfold end_stream. rewrite update_stream_lookup, E.
      destruct (decide (h' = h)); [|reflexivity]. simpl. rewrite D.
      reflexivity.
  - destruct (decide (h' = h)) as [->|]; [exact E | reflexivity].
Qed.

Lemma close_connections (h : handle) st :
  activeConnections (if is_destroyed h st then st else end_stream h st) =
  activeConnections st.
Proof.
  destruct (is_destroyed h st); [reflexivity|].
  apply update_stream_connections.
Qed.

Lemma close_emitted (h : handle) st :
  emitted (if is_destroyed h st then st else end_stream h st) = emitted st.
Proof.
  destruct (is_destroyed h st); [reflexivity|]. apply update_stream_emitted.
Qed.

Lemma stop_emitted socket st :
  emitted (stopStreamingRecognition socket st) =
  emitted st ++ [(socket, StreamingStopped)].
Proof.
  unfold stopStreamingRecognition.
  destruct (JSMap.get socket (activeConnections st)) as [c|]; [|reflexivity].
  simpl. rewrite close_emitted. reflexivity.
Qed.

Lemma stop_connections socket st :
  activeConnections (stopStreamingRecognition socket st) =
  JSMap.delete socket (activeConnections st).
Proof.
  unfold stopStreamingRecognition.
  destruct (JSMap.get socket (activeConnections st)) as [c|] eqn:E.
  - simpl. rewrite close_connections. reflexivity.
  - simpl. symmetry. apply delete_absent. exact E.
Qed.

Lemma stop_absent socket st :
  JSMap.get socket (activeConnections st) = None ->
  stopStreamingRecognition socket st = emit socket StreamingStopped st.
Proof. intros H. unfold stopStreamingRecognition. rewrite H. reflexivity. Qed.

Lemma handleStreamingResult_connections svc socket data st :
  activeConnections (handleStreamingResult svc socket data st) =
  activeConnections st.
Proof.
  unfold handleStreamingResult.
  destruct (results data) as [[|r rs]|]; try reflexivity.
  destruct (alternatives r) as [|a alts]; try reflexivity.
  destruct (isFinal r && negb (is_empty (trim (transcript a)))); [|reflexivity].
  destruct (mapTextToSigns svc _); reflexivity.
Qed.

Lemma handleStreamingResult_streams svc socket data st :
  streams (handleStreamingResult svc socket data st) = streams st.
Proof.
  unfold handleStreamingResult.
  destruct (results data) as [[|r rs]|]; try reflexivity.
  destruct (alternatives r) as [|a alts]; try reflexivity.
  destruct (isFinal r && negb (is_empty (trim (transcript a)))); [|reflexivity].
  destruct (mapTextToSigns svc _); reflexivity.
Qed.

End Handlers.

Section ListFacts.

Context {A B : Type}.

Lemma NoDup_map_inj (f : A -> B) (l : list A) (x y : A) :
  List.NoDup (map f l) -> In x l -> In y l -> f x = f y -> x = y.
Proof.
  induction l as [|a l IH]; simpl; [tauto|].
  intros Hnd. apply List.NoDup_cons_iff in Hnd as [Ha Hnd].
  intros [-> | Hx] [-> | Hy] Hf.
  - reflexivity.
  - exfalso. apply Ha. rewrite Hf. apply in_map. exact Hy.
  - exfalso. apply Ha. rewrite <- Hf. apply in_map. exact Hx.
  - exact (IH Hnd Hx Hy Hf).
Qed.

Lemma NoDup_map_filter (f : A -> B) (keep : A -> bool) (l : list A) :
  List.NoDup (map f l) -> List.NoDup (map f (List.filter keep l)).
Proof.
  induction l as [|a l IH]; simpl; [auto|].
  intros Hnd. apply List.NoDup_cons_iff in Hnd as [Ha Hnd].
  destruct (keep a); simpl; [|exact (IH Hnd)].
  apply List.NoDup_cons; [|exact (IH Hnd)].
  intros Hin. apply Ha. apply in_map_iff in Hin as [a' [Ha' Hin]].
  apply filter_In in Hin as [Hin _]. rewrite <- Ha'. apply in_map. exact Hin.
Qed.

Lemma filter_filter (p q : A -> bool) (l : list A) :
  List.filter p (List.filter q l) = List.filter (fun x => q x && p x) l.
Proof.
  induction l as [|a l IH]; simpl; [reflexivity|].
  destruct (q a); simpl; [destruct (p a)|]; rewrite IH; reflexivity.
Qed.

End ListFacts.

Section Sweep.

Variable now : Z.

Lemma stale_handle_absent l h :
  ~ In h (map handle_of l) -> stale_handle now l h = false.
Proof.
  intros Hin. unfold stale_handle. apply not_true_is_false. intros H.
  apply existsb_exists in H as [e [He H]].
  apply andb_true_iff in H as [_ H]. apply Nat.eqb_eq in H.
  apply Hin. rewrite <- H. apply in_map. exact He.
Qed.

Lemma stale_key_spec l e :
  List.NoDup (JSMap.keys l) -> In e l ->
  stale_key now l (fst e) = stale now (snd e).
Proof.
  intros Hnd Hin. unfold stale_key.
  destruct (stale now (snd e)) eqn:Es.
  - apply existsb_exists. exists e. split; [exact Hin|].
    rewrite Es, String.eqb_refl. reflexivity.
  - apply not_true_is_false. intros H.
    apply existsb_exists in H as [e' [He' H]].
    apply andb_true_iff in H as [Hs Hk]. apply String.eqb_eq in Hk.
    rewrite (NoDup_map_inj fst l e' e Hnd He' Hin Hk) in Hs. congruence.
Qed.

Lemma stale_handle_spec l e :
  List.NoDup (map handle_of l) -> In e l ->
  stale_handle now l (handle_of e) = stale now (snd e).
Proof.
  intros Hnd Hin. unfold stale_handle.
  destruct (stale now (snd e)) eqn:Es.
  - apply existsb_exists. exists e. split; [exact Hin|].
    rewrite Es, Nat.eqb_refl. reflexivity.
  - apply not_true_is_false. intros H.
    apply existsb_exists in H as [e' [He' H]].
    apply andb_true_iff in H as [Hs Hk]. apply Nat.eqb_eq in Hk.
    rewrite (NoDup_map_inj handle_of l e' e Hnd He' Hin Hk) in Hs. congruence.
Qed.

(** One iteration of the loop on a stale entry. *)
Lemma sweep_entry_stale st socket c :
  stale now c = true ->
  let st' := sweep_entry now st (socket, c) in
  emitted st' = emitted st /\
  activeConnections st' = JSMap.delete socket (activeConnections st) /\
  forall h, streams st' !! h =
            if decide (h = recognizeStream c)
            then close_if_live <$> streams st !! recognizeStream c
            else streams st !! h.
Proof.
  intros Hs. unfold sweep_entry. rewrite Hs.
  split; [|split].
  - rewrite close_emitted. reflexivity.
  - rewrite close_connections. reflexivity.
  - intros h. rewrite close_lookup. reflexivity.
Qed.

(** The loop over the entries [l]. *)
Lemma sweep_loop l : forall st,
  List.NoDup (map handle_of l) ->
  let st' := fold_left (sweep_entry now) l st in
  emitted st' = emitted st /\
  activeConnections st' =
    List.filter (fun e => negb (stale_key now l (fst e))) (activeConnections st) /\
  forall h, streams st' !! h =
            if stale_handle now l h then close_if_live <$> streams st !! h
            else streams st !! h.
Proof.
  induction l as [|[socket c] l IH]; intros st Hnd; cbn [fold_left]; cbv zeta.
  - split; [reflexivity|]. split; [|reflexivity]. simpl.
    symmetry. apply forallb_filter_id. apply forallb_forall. reflexivity.
  - apply List.NoDup_cons_iff in Hnd as [Hh Hnd].
    destruct (IH (sweep_entry now st (socket, c)) Hnd) as [He [Hc Hst]].
    destruct (stale now c) eqn:Es.
    + destruct (sweep_entry_stale st socket c Es) as [He1 [Hc1 Hst1]].
      split; [|split].
      * rewrite He. exact He1.
      * rewrite Hc, Hc1, delete_filter, filter_filter.
        apply filter_ext. intros e. unfold stale_key. cbn [existsb fst snd].
        rewrite Es, negb_orb, (String.eqb_sym socket). reflexivity.
      * intros h. rewrite Hst, !Hst1.
        unfold stale_handle at 2. cbn [existsb snd].
        fold (stale_handle now l h). rewrite Es.
        change (handle_of (socket, c)) with (recognizeStream c).
        destruct (decide (h = recognizeStream c)) as [->|Hne].
        -- rewrite (stale_handle_absent l (recognizeStream c) Hh), Nat.eqb_refl.
           reflexivity.
        -- destruct (Nat.eqb_spec (recognizeStream c) h); [congruence|].
           reflexivity.
    + assert (Hid : sweep_entry now st (socket, c) = st).
      { unfold sweep_entry. rewrite Es. reflexivity. }
      rewrite Hid in *. split; [exact He|]. split.
      * rewrite Hc. apply filter_ext. intros e.
        unfold stale_key. cbn [existsb fst snd]. rewrite Es. reflexivity.
      * intros h. rewrite Hst.
        unfold stale_handle at 2. cbn [existsb snd].
        rewrite Es. reflexivity.
Qed.

End Sweep.

Section Invariant.

Implicit Types (st : state) (socket : socketId) (c : connection).

Lemma wf_initial : wf initial.
Proof.
  split; simpl.
  - apply List.NoDup_nil.
  - apply List.NoDup_nil.
  - intros socket c [].
  - intros h s H. rewrite lookup_empty in H. discriminate.
Qed.

(** The invariant only reads the registry and the streams. *)
Lemma wf_same st st' :
  activeConnections st' = activeConnections st ->
  streams st' = streams st ->
  wf st -> wf st'.
Proof.
  intros Hc Hs [H1 H2 H3 H4].
  split; rewrite ?Hc, ?Hs; assumption.
Qed.

Lemma wf_emit socket (ev : event) st : wf st -> wf (emit socket ev st).
Proof. apply wf_same; reflexivity. Qed.

(** A method that leaves the count of [end()] calls alone. *)
Lemma wf_update_stream (f : stream -> stream) (h : handle) st :
  (forall s, ended (f s) = ended s) ->
  wf st -> wf (update_stream f h st).
Proof.
  intros Hf [H1 H2 H3 H4].
  split; rewrite ?update_stream_connections; try assumption.
  - intros socket c Hin. destruct (H3 socket c Hin) as [s [Hs He]].
    rewrite update_stream_lookup.
    destruct (decide (recognizeStream c = h)) as [<-|Hne].
    + rewrite Hs. exists (f s). split; [reflexivity|].
      rewrite Hf. exact He.
    + exists s. split; assumption.
  - intros h' s. rewrite update_stream_lookup.
    destruct (decide (h' = h)) as [->|Hne]; [|apply H4].
    destruct (streams st !! h) as [s0|] eqn:E; simpl; [|discriminate].
    intros [= <-]. rewrite Hf. exact (H4 h s0 E).
Qed.

(** Closing the stream of a registered connection and deleting its
    entry, in either order. *)
Lemma wf_closed st st' socket c :
  wf st ->
  In (socket, c) (activeConnections st) ->
  activeConnections st' = JSMap.delete socket (activeConnections st) ->
  (forall h, streams st' !! h =
             if decide (h = recognizeStream c)
             then close_if_live <$> streams st !! recognizeStream c
             else streams st !! h) ->
  wf st'.
Proof.
  intros [H1 H2 H3 H4] Hin Hc Hs.
  split; rewrite ?Hc.
  - apply NoDup_keys_delete. exact H1.
  - rewrite delete_filter. apply NoDup_map_filter. exact H2.
  - intros socket' c' Hin'. apply In_delete in Hin' as [Hin' Hne].
    simpl in Hne. rewrite Hs.
    destruct (decide (recognizeStream c' = recognizeStream c)) as [Heq|_].
    + exfalso. apply Hne.
      pose proof (NoDup_map_inj handle_of _ (socket', c') (socket, c)
                    H2 Hin' Hin Heq) as E.
      congruence.
    + exact (H3 socket' c' Hin').
  - intros h s. rewrite Hs.
    destruct (decide (h = recognizeStream c)) as [->|_]; [|apply H4].
    destruct (H3 socket c Hin) as [s0 [Hs0 He0]]. rewrite Hs0. simpl.
    intros [= <-]. unfold close_if_live.
    destruct (destroyed s0); simpl; lia.
Qed.

Lemma stop_streams socket c st (h : handle) :
  JSMap.get socket (activeConnections st) = Some c ->
  streams (stopStreamingRecognition socket st) !! h =
  if decide (h = recognizeStream c)
  then close_if_live <$> streams st !! recognizeStream c
  else streams st !! h.
Proof.
  intros Hget. unfold stopStreamingRecognition. rewrite Hget.
  cbn [emit with_connections streams]. apply close_lookup.
Qed.

Lemma wf_stop socket st : wf st -> wf (stopStreamingRecognition socket st).
Proof.
  intros Hwf.
  destruct (JSMap.get socket (activeConnections st)) as [c|] eqn:Hget.
  - apply (wf_closed st _ socket c Hwf).
    + apply get_Some_In. exact Hget.
    + apply stop_connections.
    + intros h. apply stop_streams. exact Hget.
  - rewrite (stop_absent _ _ Hget). apply wf_emit. exact Hwf.
Qed.

Lemma wf_sweep_entry (now : Z) st socket c :
  wf st -> In (socket, c) (activeConnections st) ->
  wf (sweep_entry now st (socket, c)).
Proof.
  intros Hwf Hin. destruct (stale now c) eqn:Es.
  - destruct (sweep_entry_stale now st socket c Es) as [_ [Hc Hs]].
    exact (wf_closed st _ socket c Hwf Hin Hc Hs).
  - unfold sweep_entry. rewrite Es. exact Hwf.
Qed.

Lemma sweep_entry_keeps (now : Z) st (e e' : socketId * connection) :
  In e' (activeConnections st) -> fst e' <> fst e ->
  In e' (activeConnections (sweep_entry now st e)).
Proof.
  intros Hin Hne. destruct e as [socket c]. destruct (stale now c) eqn:Es.
  - destruct (sweep_entry_stale now st socket c Es) as [_ [Hc _]].
    rewrite Hc. apply In_delete. split; assumption.
  - unfold sweep_entry. rewrite Es. exact Hin.
Qed.

Lemma wf_sweep_loop (now : Z) (l : list (socketId * connection)) : forall st,
  wf st -> List.NoDup (JSMap.keys l) ->
  (forall e, In e l -> In e (activeConnections st)) ->
  wf (fold_left (sweep_entry now) l st).
Proof.
  induction l as [|[socket c] l IH]; intros st Hwf Hnd Hincl;
    cbn [fold_left]; [exact Hwf|].
  unfold JSMap.keys in Hnd. simpl in Hnd.
  apply List.NoDup_cons_iff in Hnd as [Hk Hnd].
  apply IH.
  - apply wf_sweep_entry; [exact Hwf | apply Hincl; left; reflexivity].
  - exact Hnd.
  - intros e He. apply sweep_entry_keeps.
    + apply Hincl. right. exact He.
    + simpl. intros Heq. apply Hk. rewrite <- Heq. apply in_map. exact He.
Qed.

Lemma wf_cleanup (now : Z) st : wf st -> wf (cleanup now st).
Proof.
  intros Hwf. apply wf_sweep_loop; [exact Hwf | apply Hwf | auto].
Qed.

(** Handles that are registered have a stream, so a fresh one is not
    registered. *)
Lemma fresh_handle_unused st :
  streams st !! fresh (dom (streams st)) = None.
Proof. apply not_elem_of_dom. apply is_fresh. Qed.

Lemma handles_set_other (m : list (socketId * connection)) socket c :
  List.NoDup (map handle_of m) ->
  ~ In (recognizeStream c) (map handle_of m) ->
  List.NoDup (map handle_of (JSMap.set socket c m)).
Proof.
  induction m as [|[k v] m IH]; simpl; intros Hnd Hnew.
  - apply List.NoDup_cons; [intros [] | apply List.NoDup_nil].
  - apply List.NoDup_cons_iff in Hnd as [Hv Hnd].
    destruct (String.eqb k socket); simpl.
    + apply List.NoDup_cons; [|exact Hnd].
      intros Hin. apply Hnew. right. exact Hin.
    + apply List.NoDup_cons.
      * intros Hin. apply in_map_iff in Hin as [e [He Hin]].
        apply In_set in Hin as [-> | Hin].
        -- apply Hnew. left. symmetry. exact He.
        -- apply Hv. apply in_map_iff. exists e. split; [exact He | exact Hin].
      * apply IH; [exact Hnd|]. intros Hin. apply Hnew. right. exact Hin.
Qed.

Lemma handles_set_same (m : list (socketId * connection)) socket c c' :
  JSMap.get socket m = Some c ->
  recognizeStream c' = recognizeStream c ->
  map handle_of (JSMap.set socket c' m) = map handle_of m.
Proof.
  intros Hget Hh. induction m as [|[k v] m IH]; simpl in *; [discriminate|].
  destruct (String.eqb k socket); simpl.
  - injection Hget as ->. unfold handle_of. simpl. rewrite Hh. reflexivity.
  - rewrite (IH Hget). reflexivity.
Qed.

Lemma wf_start (speech : speechService) socket (opts : options) (now : Z) st :
  wf st -> wf (fst (startStreamingRecognition speech socket opts now st)).
Proof.
  intros Hwf. unfold startStreamingRecognition, createStreamingRecognition.
  destruct (googleClient speech); cbn [fst]; [|apply wf_emit; exact Hwf].
  apply wf_emit.
  pose proof (fresh_handle_unused st) as Hfresh.
  set (h := fresh (dom (streams st))) in *.
  destruct Hwf as [H1 H2 H3 H4].
  assert (Hunused : forall e, In e (activeConnections st) -> handle_of e <> h).
  { intros [k v] Hin Heq. destruct (H3 k v Hin) as [s [Hs _]].
    unfold handle_of in Heq. simpl in Heq. congruence. }
  split; cbn [with_connections with_stream activeConnections streams].
  - apply NoDup_keys_set. exact H1.
  - apply handles_set_other; [exact H2|]. simpl.
    intros Hin. apply in_map_iff in Hin as [e [He Hin]].
    exact (Hunused e Hin He).
  - intros socket' c' Hin. apply In_set in Hin as [[= -> ->] | Hin].
    + simpl. rewrite lookup_insert_eq. eexists. split; reflexivity.
    + rewrite lookup_insert_ne.
      * exact (H3 socket' c' Hin).
      * intros Heq. exact (Hunused (socket', c') Hin (eq_sym Heq)).
  - intros h' s. destruct (decide (h' = h)) as [->|Hne].
    + rewrite lookup_insert_eq. intros [= <-]. simpl. lia.
    + rewrite lookup_insert_ne by congruence. apply H4.
Qed.

Lemma wf_audio socket (audio : audioData) (now : Z) st :
  wf st -> wf (processStreamingAudio socket audio now st).
Proof.
  intros Hwf. unfold processStreamingAudio.
  destruct (JSMap.get socket (activeConnections st)) as [c|] eqn:Hget;
    [|apply wf_emit; exact Hwf].
  match goal with
  | |- context [with_connections ?m st] =>
      assert (Hwf1 : wf (with_connections m st))
  end.
  { destruct Hwf as [H1 H2 H3 H4].
    split; cbn [with_connections activeConnections streams].
    - apply NoDup_keys_set. exact H1.
    - rewrite (handles_set_same _ socket c); [exact H2 | exact Hget|].
      reflexivity.
    - intros socket' c' Hin. apply In_set in Hin as [[= -> ->] | Hin].
      + simpl. apply (H3 socket c). apply get_Some_In. exact Hget.
      + exact (H3 socket' c' Hin).
    - exact H4. }
  cbv zeta.
  match goal with
  | |- wf (if ?b then _ else _) => destruct b
  end.
  - apply wf_emit. exact Hwf1.
  - apply wf_update_stream; [reflexivity | exact Hwf1].
Qed.

Lemma wf_listener (svc : MappingService.service) socket (ev : providerEvent) st :
  wf st -> wf (listener svc socket ev st).
Proof.
  intros Hwf. destruct ev as [data|message|]; cbn [listener].
  - apply (wf_same st); [| |exact Hwf].
    + apply handleStreamingResult_connections.
    + apply handleStreamingResult_streams.
  - apply wf_stop, wf_emit, Hwf.
  - apply wf_stop, wf_emit, Hwf.
Qed.

Lemma wf_step (env : services) (now : Z) (i : input) st :
  wf st -> wf (step env now i st).
Proof.
  intros Hwf. destruct i; cbn [step].
  - unfold on_start_streaming.
    pose proof (wf_start (speech env) socket opts now st Hwf) as H.
    destruct (startStreamingRecognition (speech env) socket opts now st)
      as [st' [|message]]; [exact H | apply wf_emit; exact H].
  - apply wf_audio. exact Hwf.
  - apply wf_stop. exact Hwf.
  - apply wf_stop. exact Hwf.
  - unfold deliver. destruct (streams st !! h); [|exact Hwf].
    apply wf_listener. exact Hwf.
  - apply wf_update_stream; [reflexivity | exact Hwf].
  - apply wf_cleanup. exact Hwf.
Qed.

(** Every state the controller can reach satisfies the invariant. *)
Lemma wf_run (env : services) (inputs : list (Z * input)) : forall st,
  wf st -> wf (run env inputs st).
Proof.
  induction inputs as [|[now i] inputs IH]; intros st Hwf; [exact Hwf|].
  apply IH. apply wf_step. exact Hwf.
Qed.

End Invariant.

(** C9: every call of [stopStreamingRecognition] -- the handler of
    [stop-streaming] and of [disconnect] -- appends exactly one
    [streaming-stopped] for its socket and leaves the socket without an
    entry; when the socket had no entry, the registry and the streams are
    as before, so a repeated call only emits the event again. *)
Theorem stop_emits_one_streaming_stopped (socket : socketId) (st : state) :
  on_stop_streaming socket st = stopStreamingRecognition socket st
  /\ on_disconnect socket st = stopStreamingRecognition socket st
  /\ emitted (stopStreamingRecognition socket st) =
       emitted st ++ [(socket, StreamingStopped)]
  /\ JSMap.get socket
       (activeConnections (stopStreamingRecognition socket st)) = None
  /\ (JSMap.get socket (activeConnections st) = None ->
      JSMap.delete socket (activeConnections st) = activeConnections st /\
      activeConnections (stopStreamingRecognition socket st) =
        activeConnections st /\
      streams (stopStreamingRecognition socket st) = streams st)
  /\ (let once := stopStreamingRecognition socket st in
      let twice := stopStreamingRecognition socket once in
      activeConnections twice = activeConnections once /\
      streams twice = streams once /\
      emitted twice = emitted st ++ [(socket, StreamingStopped);
                                     (socket, StreamingStopped)]).
Proof.
  assert (Hgone : JSMap.get socket
            (activeConnections (stopStreamingRecognition socket st)) = None).
  { rewrite stop_connections. apply get_delete_eq. }
  repeat split; try reflexivity.
  - apply stop_emitted.
  - exact Hgone.
  - apply delete_absent. assumption.
  - rewrite stop_absent by assumption. reflexivity.
  - rewrite stop_absent by assumption. reflexivity.
  - rewrite (stop_absent socket (stopStreamingRecognition socket st) Hgone).
    reflexivity.
  - rewrite (stop_absent socket (stopStreamingRecognition socket st) Hgone).
    reflexivity.
  - rewrite (stop_absent socket (stopStreamingRecognition socket st) Hgone).
    simpl. rewrite stop_emitted, <- app_assoc. reflexivity.
Qed.

Lemma stop_emits_one_streaming_stopped_witness :
  activeConnections (stopStreamingRecognition "s2" streaming_state) =
    activeConnections streaming_state
  /\ emitted (stopStreamingRecognition "s2" streaming_state) =
       emitted streaming_state ++ [("s2", StreamingStopped)].
Proof.
  destruct (stop_emits_one_streaming_stopped "s2" streaming_state)
    as (_ & _ & Hemit & _ & Habsent & _).
  destruct (Habsent eq_refl) as (_ & Hsame & _).
  split; [exact Hsame | exact Hemit].
Defined.

(** C7, as stated, fails: in the state where the stream of "s1" has been
    destroyed, an audio chunk makes the controller emit [streaming-error]
    and drop the chunk, but the session is not torn down: it stays in
    [activeConnections], [end()] is not called and no [streaming-stopped]
    is emitted. *)
Lemma audio_after_bridge_end_keeps_session :
  let st := ended_bridge_state in
  let st' := on_audio_data "s1" (AudioString "UklGRg==") 3000 st in
  is_destroyed 0 st = true /\
  observed "s1" st' =
    observed "s1" st ++ [StreamingError "Streaming session ended" None] /\
  streams st' = streams st /\
  (exists c, JSMap.get "s1" (activeConnections st') = Some c /\
             recognizeStream c = 0 /\ lastActivity c = 3000%Z) /\
  st' <> stopStreamingRecognition "s1" st'.
Proof.
  vm_compute. repeat split; try reflexivity.
  - eexists. repeat split; reflexivity.
  - discriminate.
Qed.

(** C7, amended: when an audio chunk arrives for a registered session
    whose stream is destroyed, the controller emits [streaming-error]
    ('Streaming session ended') to that socket and does not forward the
    chunk -- no stream changes; the session stays registered, with its
    [lastActivity] set to the time of the chunk. *)
Theorem audio_on_destroyed_stream
    (socket : socketId) (audio : audioData) (now : Z) (st : state)
    (connection : connection) :
  JSMap.get socket (activeConnections st) = Some connection ->
  is_destroyed (recognizeStream connection) st = true ->
  let st' := processStreamingAudio socket audio now st in
  emitted st' =
    emitted st ++ [(socket, StreamingError "Streaming session ended" None)]
  /\ streams st' = streams st
  /\ JSMap.get socket (activeConnections st') =
       Some {| recognizeStream := recognizeStream connection;
               config := config connection;
               startTime := startTime connection;
               lastActivity := now |}
  /\ JSMap.keys (activeConnections st') = JSMap.keys (activeConnections st).
Proof.
  intros Hget Hdead. unfold processStreamingAudio. rewrite Hget.
  replace (is_destroyed (recognizeStream connection) (with_connections _ st))
    with (is_destroyed (recognizeStream connection) st) by reflexivity.
  rewrite Hdead. simpl. repeat split.
  - apply get_set_eq.
  - eapply keys_set_present. exact Hget.
Qed.

Lemma audio_on_destroyed_stream_witness :
  let st' := processStreamingAudio "s1" (AudioString "UklGRg==") 3000
               ended_bridge_state in
  emitted st' =
    emitted ended_bridge_state ++
    [("s1", StreamingError "Streaming session ended" None)]
  /\ streams st' = streams ended_bridge_state
  /\ JSMap.get "s1" (activeConnections st') =
       Some {| recognizeStream := 0;
               config := make_config default_options;
               startTime := 1000;
               lastActivity := 3000 |}
  /\ JSMap.keys (activeConnections st') =
       JSMap.keys (activeConnections ended_bridge_state).
Proof.
  apply (audio_on_destroyed_stream "s1" (AudioString "UklGRg==") 3000
           ended_bridge_state
           {| recognizeStream := 0; config := make_config default_options;
              startTime := 1000; lastActivity := 1000 |}).
  - reflexivity.
  - reflexivity.
Defined.

(** C10: a [data] event whose [results] are missing or empty changes
    nothing, so no event reaches the client.  Otherwise, when the first
    result has an alternative, the handler does what it would do for that
    first alternative alone, and the first event it emits is a
    [transcript-update] with the alternative's transcript, the result's
    [isFinal], and the alternative's confidence, which is 0.8 when the
    provider left it out. *)
Theorem streaming_result_relay
    (svc : MappingService.service) (socket : socketId) (st : state) :
  handleStreamingResult svc socket {| results := None |} st = st
  /\ handleStreamingResult svc socket {| results := Some [] |} st = st
  /\ (forall (first : recognition) (others : list recognition)
             (best : alternative) (rest : list alternative),
        alternatives first = best :: rest ->
        let st' := handleStreamingResult svc socket
                     {| results := Some (first :: others) |} st in
        st' = listener svc socket
                (transcript_event (transcript best) (altConfidence best)
                                  (isFinal first)) st
        /\ exists more,
             emitted st' =
               emitted st ++
               (socket, TranscriptUpdate (transcript best)
                          (or_confidence (altConfidence best))
                          (isFinal first)) :: more
             /\ (altConfidence best = None ->
                 or_confidence (altConfidence best) = 8 # 10)
             /\ Forall (fun e => fst e = socket) more).
Proof.
  split; [reflexivity|]. split; [reflexivity|].
  intros first others best rest Halt.
  unfold listener, transcript_event, handleStreamingResult.
  cbn [results alternatives isFinal transcript altConfidence]. rewrite Halt.
  split; [reflexivity|].
  destruct (isFinal first && negb (is_empty (trim (transcript best)))).
  - destruct (mapTextToSigns svc (JString (transcript best))) as [m|e];
      cbn [emit emitted]; rewrite <- app_assoc; eexists;
      (split; [reflexivity|]);
      (split; [intros ->; reflexivity|]);
      repeat constructor.
  - cbn [emit emitted]. eexists. split; [reflexivity|].
    split; [intros ->; reflexivity|]. constructor.
Qed.

Lemma streaming_result_relay_witness :
  let first := {| alternatives := [ {| transcript := "hello";
                                        altConfidence := None |};
                                     {| transcript := "hollow";
                                        altConfidence := Some (1 # 2) |} ];
                  isFinal := false |} in
  emitted (handleStreamingResult sample_service "s1"
             {| results := Some [first; first] |} streaming_state) =
  emitted streaming_state ++ [("s1", TranscriptUpdate "hello" (8 # 10) false)].
Proof.
  intros first.
  destruct (streaming_result_relay sample_service "s1" streaming_state)
    as [_ [_ H]].
  destruct (H first [first] _ _ eq_refl) as [H1 _].
  rewrite H1. reflexivity.
Defined.

(** C6, as stated, fails: after interim, interim, final and the end of the
    provider's stream, the client has observed six events, not five; the
    [end] listener calls [stopStreamingRecognition], which emits
    [streaming-stopped] after [streaming-ended]. *)
Lemma provider_end_also_emits_stopped :
  let script :=
    [ (2000%Z, Provider 0 (transcript_event "hel" None false));
      (2100%Z, Provider 0 (transcript_event "hello" None false));
      (2200%Z, Provider 0 (transcript_event "hello" (Some (9 # 10)) true));
      (2300%Z, Provider 0 End) ] in
  let st' := run sample_env script streaming_state in
  let five :=
    [ TranscriptUpdate "hel" (8 # 10) false;
      TranscriptUpdate "hello" (8 # 10) false;
      TranscriptUpdate "hello" (9 # 10) true;
      SignsUpdate "hello" [to_sign sample_service "HELLO.mp4"] ["hello"] 1;
      StreamingEnded ] in
  observed "s1" st' = observed "s1" streaming_state ++ five ++ [StreamingStopped]
  /\ observed "s1" st' <> observed "s1" streaming_state ++ five.
Proof.
  vm_compute. split; [reflexivity | discriminate].
Qed.

(** C6, amended: for a stream whose listeners belong to one socket, the
    provider events interim, interim, final (with a transcript that is not
    blank) and end make the controller emit, to that socket and in this
    order, transcript-update, transcript-update, transcript-update (final),
    then signs-update -- or mapping-error when the mapping fails --, then
    streaming-ended and streaming-stopped.  The three results, a failed
    mapping included, leave the registry and the streams as they were. *)
Theorem scripted_session_events
    (env : services) (h : handle) (s : stream) (st : state)
    (t1 t2 t3 : string) (c1 c2 c3 : option Q) (n1 n2 n3 n4 : Z) :
  streams st !! h = Some s ->
  is_empty (trim t3) = false ->
  let socket := owner s in
  let after_final :=
    run env [ (n1, Provider h (transcript_event t1 c1 false));
              (n2, Provider h (transcript_event t2 c2 false));
              (n3, Provider h (transcript_event t3 c3 true)) ] st in
  let after_end := run env [ (n4, Provider h End) ] after_final in
  let mapped :=
    match mapTextToSigns (mappings env) (JString t3) with
    | Ok m => SignsUpdate t3 (signs m) (mapCaptions m) (mapConfidence m)
    | Err e => MappingError "Failed to map text to signs" e
    end in
  emitted after_final =
    emitted st ++
    map (pair socket)
      [ TranscriptUpdate t1 (or_confidence c1) false;
        TranscriptUpdate t2 (or_confidence c2) false;
        TranscriptUpdate t3 (or_confidence c3) true;
        mapped ]
  /\ activeConnections after_final = activeConnections st
  /\ streams after_final = streams st
  /\ emitted after_end =
       emitted after_final ++
       [ (socket, StreamingEnded); (socket, StreamingStopped) ].
Proof.
  intros Hs Hfinal socket after_final after_end mapped.
  assert (Hrun : after_final =
    emit socket mapped
      (emit socket (TranscriptUpdate t3 (or_confidence c3) true)
         (emit socket (TranscriptUpdate t2 (or_confidence c2) false)
            (emit socket (TranscriptUpdate t1 (or_confidence c1) false) st)))).
  { subst after_final mapped socket.
    unfold run, transcript_event. cbn [fold_left step].
    unfold deliver at 3. rewrite Hs.
    cbn [listener handleStreamingResult results alternatives isFinal
         transcript altConfidence andb].
    unfold deliver at 2. cbn [emit streams]. rewrite Hs.
    cbn [listener handleStreamingResult results alternatives isFinal
         transcript altConfidence andb].
    unfold deliver. cbn [emit streams]. rewrite Hs.
    cbn [listener handleStreamingResult results alternatives isFinal
         transcript altConfidence andb].
    rewrite Hfinal. cbn [negb].
    destruct (mapTextToSigns (mappings env) (JString t3)); reflexivity. }
  split; [|split; [|split]].
  - rewrite Hrun. cbn [emit emitted map]. rewrite <- !app_assoc. reflexivity.
  - rewrite Hrun. reflexivity.
  - rewrite Hrun. reflexivity.
  - subst after_end. unfold run. cbn [fold_left step]. unfold deliver.
    replace (streams after_final !! h) with (Some s)
      by (rewrite Hrun; cbn [emit streams]; symmetry; exact Hs).
    cbn [listener]. rewrite stop_emitted. cbn [emit emitted].
    rewrite <- app_assoc. reflexivity.
Qed.

Lemma scripted_session_events_witness :
  let after_final :=
    run sample_env
      [ (2000%Z, Provider 0 (transcript_event "hel" None false));
        (2100%Z, Provider 0 (transcript_event "hello" None false));
        (2200%Z, Provider 0 (transcript_event "hello" (Some (9 # 10)) true)) ]
      streaming_state in
  emitted (run sample_env [ (2300%Z, Provider 0 End) ] after_final) =
    emitted after_final ++ [ ("s1", StreamingEnded); ("s1", StreamingStopped) ].
Proof.
  refine (proj2 (proj2 (proj2
    (scripted_session_events sample_env 0
       {| destroyed := false; ended := 0; written := []; owner := "s1" |}
       streaming_state "hel" "hello" "hello" None None (Some (9 # 10))
       2000 2100 2200 2300 _ _)))).
  - reflexivity.
  - reflexivity.
Defined.

(** C8, as stated, fails: the sweep does not take the path of a
    client-initiated stop.  It removes the stale session of "s1" and calls
    [end()] on its stream, but emits nothing, whereas
    [stopStreamingRecognition] also emits [streaming-stopped]; and on a
    stream that is already destroyed it does not call [end()] at all. *)
Lemma sweep_is_not_the_stop_path :
  let swept := cleanup 400000 streaming_state in
  JSMap.get "s1" (activeConnections swept) = None /\
  ended <$> streams swept !! 0 = Some 1 /\
  observed "s1" swept = observed "s1" streaming_state /\
  observed "s1" (stopStreamingRecognition "s1" streaming_state) =
    observed "s1" streaming_state ++ [StreamingStopped] /\
  swept <> stopStreamingRecognition "s1" streaming_state /\
  ended <$> streams (cleanup 400000 ended_bridge_state) !! 0 = Some 0.
Proof.
  vm_compute. repeat split; try reflexivity. discriminate.
Qed.

(** C8, amended: in a state that satisfies the controller's invariant, a
    sweep at time [now] keeps exactly the sessions whose [lastActivity] is
    at most five minutes old and emits no event.  For every session it
    removes, [end()] had not been called on its stream before, and the
    sweep calls it exactly once unless the stream is already destroyed, in
    which case it does not call it; the sessions it keeps and their
    streams are untouched. *)
Theorem sweep_removes_stale_sessions (now : Z) (st : state) :
  wf st ->
  let st' := cleanup now st in
  activeConnections st' =
    List.filter (fun e => negb (stale now (snd e))) (activeConnections st)
  /\ emitted st' = emitted st
  /\ forall socket connection,
       JSMap.get socket (activeConnections st) = Some connection ->
       exists s,
         streams st !! recognizeStream connection = Some s /\
         ended s = 0 /\
         if stale now connection
         then JSMap.get socket (activeConnections st') = None /\
              streams st' !! recognizeStream connection =
                Some (close_if_live s) /\
              ended (close_if_live s) = (if destroyed s then 0 else 1)
         else JSMap.get socket (activeConnections st') = Some connection /\
              streams st' !! recognizeStream connection = Some s.
Proof.
  intros Hwf st'.
  destruct (sweep_loop now (activeConnections st) st (wf_handles st Hwf))
    as [Hemit [Hconn Hstreams]].
  fold (cleanup now st) in Hemit, Hconn, Hstreams. fold st' in Hemit, Hconn, Hstreams.
  assert (Hkept : activeConnections st' =
            List.filter (fun e => negb (stale now (snd e))) (activeConnections st)).
  { rewrite Hconn. apply filter_ext_in. intros e He. cbv beta.
    rewrite (stale_key_spec now _ e (wf_keys st Hwf) He). reflexivity. }
  split; [exact Hkept|]. split; [exact Hemit|].
  intros socket connection Hget.
  pose proof (get_Some_In _ _ _ Hget) as Hin.
  destruct (wf_open st Hwf socket connection Hin) as [s [Hs He]].
  exists s. split; [exact Hs|]. split; [exact He|].
  pose proof (stale_handle_spec now _ (socket, connection)
                (wf_handles st Hwf) Hin) as Hstale.
  change (handle_of (socket, connection))
    with (recognizeStream connection) in Hstale.
  cbn [snd] in Hstale. rewrite Hstreams, Hs, Hstale.
  destruct (stale now connection) eqn:Es.
  - split; [|split].
    + apply get_None_keys. rewrite Hkept. intros Hk.
      apply in_map_iff in Hk as [e [Hfst Hk]].
      apply filter_In in Hk as [Hk Hfresh].
      assert (e = (socket, connection)) as ->.
      { apply (NoDup_map_inj fst (activeConnections st));
          [apply Hwf | exact Hk | exact Hin | exact Hfst]. }
      simpl in Hfresh. rewrite Es in Hfresh. discriminate.
    + reflexivity.
    + unfold close_if_live. destruct (destroyed s); simpl; lia.
  - split; [|reflexivity].
    apply In_get.
    + rewrite Hkept. apply NoDup_keys_filter. apply Hwf.
    + rewrite Hkept. apply filter_In. split; [exact Hin|].
      simpl. rewrite Es. reflexivity.
Qed.

Lemma sweep_removes_stale_sessions_witness :
  let st' := cleanup 400000 streaming_state in
  activeConnections st' =
    List.filter (fun e => negb (stale 400000 (snd e)))
                (activeConnections streaming_state)
  /\ emitted st' = emitted streaming_state.
Proof.
  assert (Hwf : wf streaming_state) by (apply wf_run, wf_initial).
  destruct (sweep_removes_stale_sessions 400000 streaming_state Hwf)
    as [H1 [H2 _]].
  split; [exact H1 | exact H2].
Defined.

(** C1, as stated, fails: a second [start-streaming] for "s1" is not
    rejected.  The client gets a second [streaming-started] and no error
    event, the entry of "s1" now refers to the new stream 1, and the old
    stream 0 is left as it was: never ended, and no longer reachable from
    the registry. *)
Lemma second_start_is_not_rejected :
  let st := on_start_streaming (speech sample_env) "s1" default_options 2000
              streaming_state in
  recognizeStream <$> JSMap.get "s1" (activeConnections streaming_state) = Some 0 /\
  observed "s1" st =
    observed "s1" streaming_state ++
    [StreamingStarted "s1" (make_config default_options)] /\
  recognizeStream <$> JSMap.get "s1" (activeConnections st) = Some 1 /\
  streams st !! 0 =
    Some {| destroyed := false; ended := 0; written := []; owner := "s1" |}.
Proof.
  vm_compute. repeat split; reflexivity.
Qed.

(** C1, amended: in every state the controller can reach, a
    [start-streaming] for a session that already has an entry is accepted
    when the bridge can be opened: [streaming-started] is emitted and no
    error event, and the entry of the session is overwritten with a new
    stream handle.  The registry keeps one entry per session: its keys are
    unchanged and free of duplicates. *)
Theorem second_start_replaces_entry
    (env : services) (inputs : list (Z * input)) (socket : socketId)
    (opts : options) (now : Z) (connection : connection) :
  let st := run env inputs initial in
  googleClient (speech env) = true ->
  JSMap.get socket (activeConnections st) = Some connection ->
  let h := fresh (dom (streams st)) in
  let st' := on_start_streaming (speech env) socket opts now st in
  emitted st' =
    emitted st ++ [(socket, StreamingStarted socket (make_config opts))]
  /\ JSMap.get socket (activeConnections st') =
       Some {| recognizeStream := h; config := make_config opts;
               startTime := now; lastActivity := now |}
  /\ h <> recognizeStream connection
  /\ JSMap.keys (activeConnections st') = JSMap.keys (activeConnections st)
  /\ List.NoDup (JSMap.keys (activeConnections st')).
Proof.
  intros st Hclient Hget h st'.
  assert (Hwf : wf st) by (apply wf_run, wf_initial).
  assert (Hkeys : JSMap.keys (activeConnections st') =
                  JSMap.keys (activeConnections st)).
  { subst st'. unfold on_start_streaming, startStreamingRecognition,
      createStreamingRecognition. rewrite Hclient.
    cbn [emit with_connections with_stream activeConnections].
    eapply keys_set_present. exact Hget. }
  split; [|split; [|split; [|split]]].
  - subst st'. unfold on_start_streaming, startStreamingRecognition,
      createStreamingRecognition. rewrite Hclient. reflexivity.
  - subst st'. unfold on_start_streaming, startStreamingRecognition,
      createStreamingRecognition. rewrite Hclient.
    cbn [emit with_connections with_stream activeConnections].
    apply get_set_eq.
  - intros Heq.
    destruct (wf_open st Hwf socket connection (get_Some_In _ _ _ Hget))
      as [s [Hs _]].
    rewrite <- Heq in Hs. subst h. rewrite fresh_handle_unused in Hs.
    discriminate.
  - exact Hkeys.
  - rewrite Hkeys. apply Hwf.
Qed.

Lemma second_start_replaces_entry_witness :
  let st := run sample_env [(1000%Z, StartStreaming "s1" default_options)]
              initial in
  let st' := on_start_streaming (speech sample_env) "s1" default_options 2000
               st in
  emitted st' =
    emitted st ++
    [("s1", StreamingStarted "s1" (make_config default_options))]
  /\ JSMap.keys (activeConnections st') = JSMap.keys (activeConnections st).
Proof.
  destruct (second_start_replaces_entry sample_env
              [(1000%Z, StartStreaming "s1" default_options)]
              "s1" default_options 2000
              {| recognizeStream := 0; config := make_config default_options;
                 startTime := 1000; lastActivity := 1000 |}
              eq_refl eq_refl) as [H1 [_ [_ [H2 _]]]].
  split; [exact H1 | exact H2].
Defined.

(** * Further properties of the stream controller *)

Section Reachability.

Variable env : services.

Lemma get_None_filter {V : Type} (keep : string * V -> bool)
    (m : list (string * V)) (k : string) :
  JSMap.get k m = None -> JSMap.get k (List.filter keep m) = None.
Proof.
  rewrite !get_None_keys. intros H Hin. apply H.
  apply in_map_iff in Hin as [e [He Hin]]. apply filter_In in Hin as [Hin _].
  apply in_map_iff. exists e. split; assumption.
Qed.

Lemma cleanup_connections_filter (now : Z) (st : state) :
  exists keep, activeConnections (cleanup now st) =
               List.filter keep (activeConnections st).
Proof.
  assert (H : forall l st0, exists keep,
             activeConnections (fold_left (sweep_entry now) l st0) =
             List.filter keep (activeConnections st0)).
  { induction l as [|[k c] l IH]; intros st0; cbn [fold_left].
    - exists (fun _ => true). symmetry. apply forallb_filter_id.
      apply forallb_forall. reflexivity.
    - destruct (IH (sweep_entry now st0 (k, c))) as [keep Hk].
      destruct (stale now c) eqn:Es.
      + destruct (sweep_entry_stale now st0 k c Es) as [_ [Hc _]].
        rewrite Hk, Hc, delete_filter, filter_filter. eexists. reflexivity.
      + assert (Hid : sweep_entry now st0 (k, c) = st0)
          by (unfold sweep_entry; rewrite Es; reflexivity).
        rewrite Hid in Hk |- *. exists keep. exact Hk. }
  apply H.
Qed.

(** A socket without an entry gets one only by its own [start-streaming]. *)
Lemma step_keeps_absent (now : Z) (i : input) (socket : socketId) (st : state) :
  starts socket i = false ->
  JSMap.get socket (activeConnections st) = None ->
  JSMap.get socket (activeConnections (step env now i st)) = None.
Proof.
  intros Hi Hget. destruct i as [s o|s a|s|s|h ev| h |]; cbn [step starts] in *.
  - apply String.eqb_neq in Hi.
    unfold on_start_streaming, startStreamingRecognition,
      createStreamingRecognition.
    destruct (googleClient (speech env)); cbn [emit activeConnections
      with_connections with_stream]; [|exact Hget].
    rewrite get_set_ne by exact Hi. exact Hget.
  - unfold on_audio_data, processStreamingAudio.
    destruct (JSMap.get s (activeConnections st)) as [c|] eqn:Es;
      [|exact Hget].
    assert (Hne : s <> socket) by congruence.
    cbv zeta.
    match goal with |- context [if ?b then _ else _] => destruct b end.
    + cbn [emit activeConnections with_connections].
      rewrite get_set_ne by exact Hne. exact Hget.
    + unfold write_stream. rewrite update_stream_connections.
      cbn [activeConnections with_connections].
      rewrite get_set_ne by exact Hne. exact Hget.
  - unfold on_stop_streaming. rewrite stop_connections.
    rewrite delete_filter. apply get_None_filter. exact Hget.
  - unfold on_disconnect. rewrite stop_connections.
    rewrite delete_filter. apply get_None_filter. exact Hget.
  - unfold deliver. destruct (streams st !! h) as [s|]; [|exact Hget].
    destruct ev as [data|message|]; cbn [listener].
    + rewrite handleStreamingResult_connections. exact Hget.
    + rewrite stop_connections, delete_filter. apply get_None_filter.
      exact Hget.
    + rewrite stop_connections, delete_filter. apply get_None_filter.
      exact Hget.
  - unfold destroy_stream. rewrite update_stream_connections. exact Hget.
  - destruct (cleanup_connections_filter now st) as [keep ->].
    apply get_None_filter. exact Hget.
Qed.

Lemma run_keeps_absent (inputs : list (Z * input)) (socket : socketId) :
  forall st,
  mentions_start socket inputs = false ->
  JSMap.get socket (activeConnections st) = None ->
  JSMap.get socket (activeConnections (run env inputs st)) = None.
Proof.
  induction inputs as [|[now i] inputs IH]; intros st Hm Hget; [exact Hget|].
  unfold mentions_start in Hm. cbn [existsb snd] in Hm.
  apply orb_false_iff in Hm as [Hi Hm].
  apply IH; [exact Hm|]. apply step_keeps_absent; assumption.
Qed.

End Reachability.

(** X1: in every state that the controller can reach from its initial
    state, each socket has at most one entry, two sessions never share a
    stream, the stream of a registered session exists and [end()] has not
    been called on it, and [end()] has been called at most once on any
    stream the controller ever opened. *)
Theorem reachable_states_close_streams_once
    (env : services) (inputs : list (Z * input)) :
  let st := run env inputs initial in
  List.NoDup (JSMap.keys (activeConnections st))
  /\ (forall socket socket' c c',
        JSMap.get socket (activeConnections st) = Some c ->
        JSMap.get socket' (activeConnections st) = Some c' ->
        recognizeStream c = recognizeStream c' -> socket = socket')
  /\ (forall socket c,
        JSMap.get socket (activeConnections st) = Some c ->
        exists s, streams st !! recognizeStream c = Some s /\ ended s = 0)
  /\ (forall h s, streams st !! h = Some s -> ended s <= 1).
Proof.
  intros st. assert (Hwf : wf st) by (apply wf_run, wf_initial).
  split; [apply Hwf|]. split; [|split].
  - intros socket socket' c c' H1 H2 Heq.
    apply get_Some_In in H1, H2.
    pose proof (NoDup_map_inj handle_of _ (socket, c) (socket', c')
                  (wf_handles st Hwf) H1 H2 Heq) as E.
    congruence.
  - intros socket c H. apply (wf_open st Hwf socket c).
    apply get_Some_In. exact H.
  - apply Hwf.
Qed.


(** X2: a socket that has not sent [start-streaming] has no session, in
    any run whatever the other clients do; an [audio-data] message from it
    emits an [error] event 'No active streaming session' to that socket
    and changes neither the registry nor any stream. *)
Theorem audio_without_start
    (env : services) (inputs : list (Z * input)) (socket : socketId)
    (audio : audioData) (now : Z) :
  mentions_start socket inputs = false ->
  let st := run env inputs initial in
  JSMap.get socket (activeConnections st) = None
  /\ on_audio_data socket audio now st =
       emit socket (ErrorEvent "No active streaming session" None) st.
Proof.
  intros Hm st.
  assert (Hget : JSMap.get socket (activeConnections st) = None).
  { apply run_keeps_absent; [exact Hm | reflexivity]. }
  split; [exact Hget|].
  unfold on_audio_data, processStreamingAudio. rewrite Hget. reflexivity.
Qed.

Lemma audio_without_start_witness :
  on_audio_data "s2" (AudioString "UklGRg==") 1500 streaming_state =
  emit "s2" (ErrorEvent "No active streaming session" None) streaming_state.
Proof.
  exact (proj2 (audio_without_start sample_env
                  [(1000%Z, StartStreaming "s1" default_options)]
                  "s2" (AudioString "UklGRg==") 1500 eq_refl)).
Defined.

Section SessionFacts.

Implicit Types (st : state) (socket : socketId) (c : connection).

Lemma delete_set_absent {V : Type} (m : list (string * V)) (k : string) (v : V) :
  JSMap.get k m = None -> JSMap.delete k (JSMap.set k v m) = m.
Proof.
  induction m as [|[k' v'] m IH]; simpl.
  - rewrite String.eqb_refl. reflexivity.
  - destruct (String.eqb k' k) eqn:E; [discriminate|].
    intros H. simpl. rewrite E, (IH H). reflexivity.
Qed.

Lemma last_default {A : Type} (l : list A) : forall (x d d' : A),
  List.last (x :: l) d = List.last (x :: l) d'.
Proof.
  induction l as [|y l IH]; intros x d d'; [reflexivity|].
  change (List.last (y :: l) d = List.last (y :: l) d'). apply IH.
Qed.

(** What [processStreamingAudio] does when the stream is live. *)
Lemma audio_on_live_stream socket (audio : audioData) (now : Z) st c s :
  JSMap.get socket (activeConnections st) = Some c ->
  streams st !! recognizeStream c = Some s ->
  destroyed s = false ->
  let st' := processStreamingAudio socket audio now st in
  emitted st' = emitted st
  /\ activeConnections st' =
       JSMap.set socket
         {| recognizeStream := recognizeStream c; config := config c;
            startTime := startTime c; lastActivity := now |}
         (activeConnections st)
  /\ streams st' =
       <[recognizeStream c :=
           {| destroyed := false; ended := ended s;
              written := written s ++ [to_buffer audio];
              owner := owner s |}]> (streams st).
Proof.
  intros Hget Hs Hlive. unfold processStreamingAudio. rewrite Hget.
  cbv zeta. unfold is_destroyed. cbn [with_connections streams].
  rewrite Hs, Hlive. unfold write_stream, update_stream.
  cbn [with_connections streams]. rewrite Hs.
  cbn [with_stream with_connections emitted activeConnections streams].
  rewrite Hlive. repeat split.
Qed.

Lemma audio_touches_entry socket (audio : audioData) (now : Z) st c :
  JSMap.get socket (activeConnections st) = Some c ->
  JSMap.get socket
    (activeConnections (processStreamingAudio socket audio now st)) =
  Some {| recognizeStream := recognizeStream c; config := config c;
          startTime := startTime c; lastActivity := now |}.
Proof.
  intros Hget. unfold processStreamingAudio. rewrite Hget. cbv zeta.
  match goal with |- context [if ?b then _ else _] => destruct b end.
  - cbn [emit activeConnections with_connections]. apply get_set_eq.
  - unfold write_stream. rewrite update_stream_connections.
    cbn [activeConnections with_connections]. apply get_set_eq.
Qed.

(** A sweep leaves alone whatever is not stale. *)
Lemma sweep_nothing_stale (now : Z) (l : list (socketId * connection)) :
  forall st,
  (forall e, In e l -> stale now (snd e) = false) ->
  fold_left (sweep_entry now) l st = st.
Proof.
  induction l as [|[k c] l IH]; intros st H; cbn [fold_left]; [reflexivity|].
  assert (Hid : sweep_entry now st (k, c) = st).
  { pose proof (H (k, c) (or_introl eq_refl)) as Hc. cbn [snd] in Hc.
    unfold sweep_entry. rewrite Hc. reflexivity. }
  rewrite Hid. apply IH. intros e He. apply H. right. exact He.
Qed.

Lemma cleanup_connections (now : Z) st :
  wf st ->
  activeConnections (cleanup now st) =
  List.filter (fun e => negb (stale now (snd e))) (activeConnections st).
Proof.
  intros Hwf.
  destruct (sweep_loop now (activeConnections st) st (wf_handles st Hwf))
    as [_ [Hconn _]].
  unfold cleanup. rewrite Hconn. apply filter_ext_in. intros e He. cbv beta.
  rewrite (stale_key_spec now _ e (wf_keys st Hwf) He). reflexivity.
Qed.

Lemma cleanup_keeps_fresh (now : Z) st socket c :
  wf st ->
  JSMap.get socket (activeConnections st) = Some c ->
  stale now c = false ->
  JSMap.get socket (activeConnections (cleanup now st)) = Some c.
Proof.
  intros Hwf Hget Hfresh. rewrite (cleanup_connections now st Hwf).
  apply In_get.
  - apply NoDup_keys_filter. apply Hwf.
  - apply filter_In. split; [apply get_Some_In; exact Hget|].
    simpl. rewrite Hfresh. reflexivity.
Qed.

End SessionFacts.

(** X3: audio chunks of a session whose stream is live are written to that
    stream in the order in which they arrive; nothing is emitted, no other
    stream changes, and the session's [lastActivity] becomes the time of
    the last chunk. *)
Theorem audio_chunks_forwarded_in_order
    (env : services) (socket : socketId) (chunks : list (Z * audioData)) :
  forall (st : state) (c : connection) (s : stream),
  JSMap.get socket (activeConnections st) = Some c ->
  streams st !! recognizeStream c = Some s ->
  destroyed s = false ->
  let st' := run env (audio_inputs socket chunks) st in
  emitted st' = emitted st
  /\ streams st' !! recognizeStream c =
       Some {| destroyed := false; ended := ended s;
               written := written s ++ map (fun tc => to_buffer (snd tc)) chunks;
               owner := owner s |}
  /\ (forall h, h <> recognizeStream c -> streams st' !! h = streams st !! h)
  /\ JSMap.get socket (activeConnections st') =
       Some {| recognizeStream := recognizeStream c; config := config c;
               startTime := startTime c;
               lastActivity := List.last (map fst chunks) (lastActivity c) |}.
Proof.
  induction chunks as [|[t a] chunks IH]; intros st c s Hget Hs Hlive.
  - cbn. split; [reflexivity|]. split; [|split; [reflexivity|]].
    + rewrite Hs, app_nil_r. destruct s. simpl in Hlive. subst. reflexivity.
    + rewrite Hget. destruct c. reflexivity.
  - assert (Hrun : run env (audio_inputs socket ((t, a) :: chunks)) st =
                    run env (audio_inputs socket chunks)
                        (processStreamingAudio socket a t st))
      by reflexivity.
    cbv zeta. rewrite Hrun. clear Hrun.
    destruct (audio_on_live_stream socket a t st c s Hget Hs Hlive)
      as [He [Hc Hst]].
    set (st1 := processStreamingAudio socket a t st) in *.
    set (c1 := {| recognizeStream := recognizeStream c; config := config c;
                  startTime := startTime c; lastActivity := t |}).
    set (s1 := {| destroyed := false; ended := ended s;
                  written := written s ++ [to_buffer a]; owner := owner s |}).
    assert (Hget1 : JSMap.get socket (activeConnections st1) = Some c1).
    { rewrite Hc. apply get_set_eq. }
    assert (Hs1 : streams st1 !! recognizeStream c1 = Some s1).
    { rewrite Hst. apply lookup_insert_eq. }
    destruct (IH st1 c1 s1 Hget1 Hs1 eq_refl) as [He' [Hst' [Hoth Hget']]].
    change (recognizeStream c1) with (recognizeStream c) in Hst', Hoth.
    split; [rewrite He'; exact He|]. split; [|split].
    + rewrite Hst'. cbn [ended written owner s1 map snd].
      rewrite <- app_assoc. reflexivity.
    + intros h Hh. rewrite (Hoth h Hh), Hst.
      apply lookup_insert_ne. congruence.
    + rewrite Hget'. cbn [c1 recognizeStream config startTime lastActivity].
      destruct chunks as [|[t' a'] chunks']; [reflexivity|].
      f_equal. f_equal. cbn [map fst].
      change (List.last (t :: t' :: map fst chunks') (lastActivity c))
        with (List.last (t' :: map fst chunks') (lastActivity c)).
      apply last_default.
Qed.

Lemma audio_chunks_forwarded_in_order_witness :
  streams (run sample_env
             (audio_inputs "s1" [ (1100%Z, AudioString "QQ==");
                                  (1200%Z, AudioBuffer [1%N; 2%N]) ])
             streaming_state) !! 0 =
  Some {| destroyed := false; ended := 0;
          written := [FromBase64 "QQ=="; Bytes [1%N; 2%N]];
          owner := "s1" |}.
Proof.
  exact (proj1 (proj2
    (audio_chunks_forwarded_in_order sample_env "s1"
       [ (1100%Z, AudioString "QQ=="); (1200%Z, AudioBuffer [1%N; 2%N]) ]
       streaming_state
       {| recognizeStream := 0; config := make_config default_options;
          startTime := 1000; lastActivity := 1000 |}
       {| destroyed := false; ended := 0; written := []; owner := "s1" |}
       eq_refl eq_refl eq_refl))).
Defined.

(** X4: a [start-streaming] of a socket without a session, followed by its
    [stop-streaming], leaves the registry as it was; the client has been
    sent [streaming-started] and then [streaming-stopped]; the stream that
    was opened has had [end()] called exactly once, and no other stream
    has changed. *)
Theorem start_then_stop
    (speech : speechService) (socket : socketId) (opts : options)
    (t1 : Z) (st : state) :
  googleClient speech = true ->
  JSMap.get socket (activeConnections st) = None ->
  let h := fresh (dom (streams st)) in
  let st' := on_stop_streaming socket
               (on_start_streaming speech socket opts t1 st) in
  activeConnections st' = activeConnections st
  /\ emitted st' =
       emitted st ++ [ (socket, StreamingStarted socket (make_config opts));
                       (socket, StreamingStopped) ]
  /\ streams st !! h = None
  /\ streams st' !! h =
       Some {| destroyed := false; ended := 1; written := []; owner := socket |}
  /\ (forall h', h' <> h -> streams st' !! h' = streams st !! h').
Proof.
  intros Hclient Habsent h st'.
  assert (Hstart : on_start_streaming speech socket opts t1 st =
            emit socket (StreamingStarted socket (make_config opts))
              (with_connections
                 (JSMap.set socket
                    {| recognizeStream := h; config := make_config opts;
                       startTime := t1; lastActivity := t1 |}
                    (activeConnections st))
                 (with_stream h {| destroyed := false; ended := 0;
                                   written := []; owner := socket |} st))).
  { unfold on_start_streaming, startStreamingRecognition,
      createStreamingRecognition. rewrite Hclient. reflexivity. }
  subst st'. rewrite Hstart. clear Hstart.
  unfold on_stop_streaming, stopStreamingRecognition.
  cbn [emit with_connections with_stream activeConnections].
  rewrite get_set_eq. cbn [recognizeStream].
  unfold is_destroyed. cbn [emit with_connections with_stream streams].
  rewrite lookup_insert_eq. cbn [destroyed].
  unfold end_stream, update_stream.
  cbn [emit with_connections with_stream streams]. rewrite lookup_insert_eq.
  cbn [emit with_connections with_stream streams activeConnections emitted
       destroyed ended written owner].
  split; [apply delete_set_absent; exact Habsent|].
  split; [rewrite <- app_assoc; reflexivity|].
  split; [apply fresh_handle_unused|].
  split; [apply lookup_insert_eq|].
  intros h' Hne. rewrite !lookup_insert_ne by congruence. reflexivity.
Qed.

Lemma start_then_stop_witness :
  activeConnections
    (on_stop_streaming "s9"
       (on_start_streaming (speech sample_env) "s9" default_options 5000
          streaming_state)) =
  activeConnections streaming_state.
Proof.
  exact (proj1 (start_then_stop (speech sample_env) "s9" default_options 5000
                  streaming_state eq_refl eq_refl)).
Defined.

(** X5: without a Google client no session is ever registered and no
    stream is ever opened, whatever the clients send; every
    [start-streaming] is answered with [streaming-error] followed by
    [error] and changes nothing else. *)
Theorem no_client_no_session (env : services) (inputs : list (Z * input)) :
  googleClient (speech env) = false ->
  (activeConnections (run env inputs initial) = []
   /\ streams (run env inputs initial) = ∅)
  /\ forall socket opts now st,
       on_start_streaming (speech env) socket opts now st =
       emit socket (ErrorEvent "Failed to start streaming recognition" None)
         (emit socket
            (StreamingError "Failed to start streaming recognition"
               (Some "Google Cloud Speech client not available for streaming"))
            st).
Proof.
  intros Hclient.
  assert (Hstart : forall socket opts now st,
       on_start_streaming (speech env) socket opts now st =
       emit socket (ErrorEvent "Failed to start streaming recognition" None)
         (emit socket
            (StreamingError "Failed to start streaming recognition"
               (Some "Google Cloud Speech client not available for streaming"))
            st)).
  { intros. unfold on_start_streaming, startStreamingRecognition,
      createStreamingRecognition. rewrite Hclient. reflexivity. }
  split; [|exact Hstart].
  assert (Hrun : forall st, activeConnections st = [] -> streams st = ∅ ->
            activeConnections (run env inputs st) = [] /\
            streams (run env inputs st) = ∅).
  { induction inputs as [|[now i] inputs IH]; intros st Hc Hs; [auto|].
    apply IH.
    - destruct i; cbn [step].
      + rewrite Hstart. exact Hc.
      + unfold on_audio_data, processStreamingAudio. rewrite Hc. exact Hc.
      + unfold on_stop_streaming, stopStreamingRecognition. rewrite Hc.
        exact Hc.
      + unfold on_disconnect, stopStreamingRecognition. rewrite Hc. exact Hc.
      + unfold deliver. rewrite Hs, lookup_empty. exact Hc.
      + unfold destroy_stream. rewrite update_stream_connections. exact Hc.
      + unfold cleanup. rewrite Hc. exact Hc.
    - destruct i; cbn [step].
      + rewrite Hstart. exact Hs.
      + unfold on_audio_data, processStreamingAudio. rewrite Hc. exact Hs.
      + unfold on_stop_streaming, stopStreamingRecognition. rewrite Hc.
        exact Hs.
      + unfold on_disconnect, stopStreamingRecognition. rewrite Hc. exact Hs.
      + unfold deliver. rewrite Hs, lookup_empty. exact Hs.
      + unfold destroy_stream, update_stream. rewrite Hs, lookup_empty.
        exact Hs.
      + unfold cleanup. rewrite Hc. exact Hs. }
  apply Hrun; reflexivity.
Qed.

Lemma no_client_no_session_witness :
  activeConnections
    (run {| speech := {| googleClient := false |};
            mappings := sample_service |}
         [ (1000%Z, StartStreaming "s1" default_options);
           (1100%Z, AudioData "s1" (AudioString "QQ==")) ] initial) = [].
Proof.
  exact (proj1 (proj1
    (no_client_no_session
       {| speech := {| googleClient := false |}; mappings := sample_service |}
       [ (1000%Z, StartStreaming "s1" default_options);
         (1100%Z, AudioData "s1" (AudioString "QQ==")) ] eq_refl))).
Defined.

(** X6: sessions are independent.  In every reachable state, stopping one
    socket (by [stop-streaming] or [disconnect]) leaves the entry of every
    other socket, and the stream of that entry, exactly as they were. *)
Theorem stop_leaves_other_sessions
    (env : services) (inputs : list (Z * input))
    (socket other : socketId) (c : connection) :
  let st := run env inputs initial in
  other <> socket ->
  JSMap.get other (activeConnections st) = Some c ->
  let st' := on_stop_streaming socket st in
  on_disconnect socket st = st'
  /\ JSMap.get other (activeConnections st') = Some c
  /\ streams st' !! recognizeStream c = streams st !! recognizeStream c.
Proof.
  intros st Hne Hget st'.
  assert (Hwf : wf st) by (apply wf_run, wf_initial).
  split; [reflexivity|]. subst st'. unfold on_stop_streaming. split.
  - rewrite stop_connections, get_delete_ne by congruence. exact Hget.
  - destruct (JSMap.get socket (activeConnections st)) as [c0|] eqn:Hs.
    + rewrite (stop_streams socket c0 st _ Hs).
      destruct (decide (recognizeStream c = recognizeStream c0)) as [Heq|_];
        [|reflexivity].
      exfalso. apply Hne.
      pose proof (NoDup_map_inj handle_of _ (other, c) (socket, c0)
                    (wf_handles st Hwf) (get_Some_In _ _ _ Hget)
                    (get_Some_In _ _ _ Hs) Heq) as E.
      congruence.
    + rewrite (stop_absent _ _ Hs). reflexivity.
Qed.

Lemma stop_leaves_other_sessions_witness :
  let st := run sample_env
              [ (1000%Z, StartStreaming "s1" default_options);
                (1001%Z, StartStreaming "s2" default_options) ] initial in
  streams (on_stop_streaming "s1" st) !! 1 = streams st !! 1.
Proof.
  exact (proj2 (proj2
    (stop_leaves_other_sessions sample_env
       [ (1000%Z, StartStreaming "s1" default_options);
         (1001%Z, StartStreaming "s2" default_options) ]
       "s1" "s2"
       {| recognizeStream := 1; config := make_config default_options;
          startTime := 1001; lastActivity := 1001 |}
       ltac:(discriminate) eq_refl))).
Defined.

(** X7: when the provider's stream reports an error, the socket that owns
    the stream is sent [streaming-error] ('Speech recognition error', with
    the provider's message) and then [streaming-stopped], and is left
    without a session; the sessions of other sockets stay registered. *)
Theorem provider_failure_tears_down
    (svc : MappingService.service) (h : handle) (s : stream)
    (message : string) (st : state) :
  streams st !! h = Some s ->
  let st' := deliver svc h (Failure message) st in
  emitted st' =
    emitted st ++
    [ (owner s, StreamingError "Speech recognition error" (Some message));
      (owner s, StreamingStopped) ]
  /\ JSMap.get (owner s) (activeConnections st') = None
  /\ forall other, other <> owner s ->
       JSMap.get other (activeConnections st') =
       JSMap.get other (activeConnections st).
Proof.
  intros Hs. unfold deliver. rewrite Hs. cbn [listener]. split; [|split].
  - rewrite stop_emitted. cbn [emit emitted]. rewrite <- app_assoc.
    reflexivity.
  - rewrite stop_connections. apply get_delete_eq.
  - intros other Hne. rewrite stop_connections.
    cbn [emit activeConnections]. apply get_delete_ne. congruence.
Qed.

Lemma provider_failure_tears_down_witness :
  JSMap.get "s1"
    (activeConnections
       (deliver sample_service 0 (Failure "UNAVAILABLE") streaming_state))
  = None.
Proof.
  exact (proj1 (proj2
    (provider_failure_tears_down sample_service 0
       {| destroyed := false; ended := 0; written := []; owner := "s1" |}
       "UNAVAILABLE" streaming_state eq_refl))).
Defined.

(** X8: in every reachable state, a second sweep at the same time changes
    nothing: the sweep has already removed every stale session. *)
Theorem cleanup_idempotent
    (env : services) (inputs : list (Z * input)) (now : Z) :
  let st := run env inputs initial in
  cleanup now (cleanup now st) = cleanup now st.
Proof.
  intros st. assert (Hwf : wf st) by (apply wf_run, wf_initial).
  unfold cleanup at 1. apply sweep_nothing_stale.
  intros e He. rewrite (cleanup_connections now st Hwf) in He.
  apply filter_In in He as [_ He]. apply negb_true_iff in He. exact He.
Qed.

(** X9: a session that has sent audio during the last five minutes
    survives the sweep.  In every reachable state, after an [audio-data]
    message of a registered socket at time [t], a sweep at a time [now]
    with [now - t <= 300000] keeps the session, with [lastActivity = t]. *)
Theorem recent_audio_survives_sweep
    (env : services) (inputs : list (Z * input)) (socket : socketId)
    (c : connection) (audio : audioData) (t now : Z) :
  let st := run env inputs initial in
  JSMap.get socket (activeConnections st) = Some c ->
  (now - t <= 300000)%Z ->
  JSMap.get socket
    (activeConnections (cleanup now (on_audio_data socket audio t st))) =
  Some {| recognizeStream := recognizeStream c; config := config c;
          startTime := startTime c; lastActivity := t |}.
Proof.
  intros st Hget Hrecent.
  assert (Hwf : wf (on_audio_data socket audio t st)).
  { apply wf_audio. apply wf_run, wf_initial. }
  apply cleanup_keeps_fresh; [exact Hwf | |].
  - apply audio_touches_entry. exact Hget.
  - unfold stale, timeout. cbn [lastActivity]. apply Z.ltb_ge. lia.
Qed.

Lemma recent_audio_survives_sweep_witness :
  JSMap.get "s1"
    (activeConnections
       (cleanup 400000
          (on_audio_data "s1" (AudioString "QQ==") 200000 streaming_state))) =
  Some {| recognizeStream := 0; config := make_config default_options;
          startTime := 1000; lastActivity := 200000 |}.
Proof.
  apply (recent_audio_survives_sweep sample_env
           [(1000%Z, StartStreaming "s1" default_options)] "s1"
           {| recognizeStream := 0; config := make_config default_options;
              startTime := 1000; lastActivity := 1000 |}
           (AudioString "QQ==") 200000 400000).
  - reflexivity.
  - lia.
Defined.

(** X10: what [getStats] reports right after a sweep, in every reachable
    state: the count is the number of connections listed, every listed
    connection has been active during the last five minutes, no socket id
    is listed twice, and each duration is the time since the session's
    start. *)
Theorem stats_after_sweep
    (env : services) (inputs : list (Z * input)) (now : Z) :
  let report := getStats now (cleanup now (run env inputs initial)) in
  activeCount report = List.length (connections report)
  /\ Forall (fun cs => (now - statLastActivity cs <= 300000)%Z
                       /\ statDuration cs = (now - statStartTime cs)%Z)
            (connections report)
  /\ List.NoDup (map statId (connections report)).
Proof.
  set (st := run env inputs initial).
  assert (Hwf : wf st) by (apply wf_run, wf_initial).
  cbv zeta. unfold getStats. cbn [activeCount connections].
  split; [rewrite length_map; reflexivity|]. split.
  - apply List.Forall_forall. intros cs Hin.
    apply in_map_iff in Hin as [[id conn] [<- Hin]].
    cbn [statLastActivity statDuration statStartTime].
    split; [|reflexivity].
    rewrite (cleanup_connections now st Hwf) in Hin.
    apply filter_In in Hin as [_ Hfresh]. apply negb_true_iff in Hfresh.
    unfold stale, timeout in Hfresh. cbn [snd] in Hfresh.
    apply Z.ltb_ge in Hfresh. lia.
  - rewrite map_map.
    rewrite (map_ext _ fst) by (intros [id conn]; reflexivity).
    apply (wf_keys _ (wf_cleanup now st Hwf)).
Qed.

(** * Further properties of the mapping service *)

Section MoreMappingFacts.

Variable svc : MappingService.service.
Variable d : dictionary.
Hypothesis loaded : mappingData svc = Some d.

Lemma record_match_consistent (sc : scan) (phrase : string)
    (files : list string) (rest : string) (weight : Q) :
  (8 # 10 <= weight)%Q ->
  scan_consistent sc ->
  scan_consistent (record_match sc phrase files rest weight).
Proof.
  intros Hw (Hcap & Hlen & _ & Hsum). unfold scan_consistent, record_match.
  cbn [found captions matchedPhrases matchCount videoFiles totalConfidence].
  split; [rewrite Hcap; reflexivity|]. split; [|split].
  - rewrite length_app, Hlen. simpl. lia.
  - discriminate.
  - rewrite Nat2Z.inj_succ, <- Z.add_1_r, inject_Z_plus.
    rewrite Qmult_plus_distr_r. apply Qplus_le_compat; [exact Hsum|].
    rewrite Qmult_1_r. exact Hw.
Qed.

Lemma phrase_step_consistent (sc sc' : scan) (phrase : string) :
  scan_consistent sc -> phrase_step d sc phrase = Ok sc' -> scan_consistent sc'.
Proof.
  intros Hok. unfold phrase_step.
  destruct (includes (remainingText sc) phrase); [|intros [= <-]; exact Hok].
  destruct (get d phrase); try discriminate.
  intros [= <-]. apply record_match_consistent; [discriminate | exact Hok].
Qed.

Lemma word_step_consistent (sc sc' : scan) (word : string) :
  scan_consistent sc -> word_step d sc word = Ok sc' -> scan_consistent sc'.
Proof.
  intros Hok. unfold word_step.
  destruct (get d word); try discriminate.
  - intros [= <-]. exact Hok.
  - intros [= <-]. apply record_match_consistent; [apply Qle_refl | exact Hok].
Qed.

(** The state of [findMatches] after its two loops. *)
Lemma findMatches_scan (text : string) (m : matches) :
  findMatches svc text = Ok m ->
  (exists files, own d text = Some files /\
                 m = {| videoFiles := files; captions := [text];
                        confidence := 1; matchedPhrases := [text] |})
  \/ (own d text = None /\
      exists sc, scan_ok sc /\ scan_consistent sc /\
                 m = finish sc (List.length (split_space text))).
Proof.
  unfold findMatches, get. rewrite loaded.
  destruct (own d text) as [files|] eqn:Eown.
  - intros [= <-]. left. exists files. split; reflexivity.
  - destruct (inherited_name text); [discriminate|].
    destruct (for_each (phrase_step d) _ _) as [sc|e] eqn:E1; simpl;
      [|discriminate].
    destruct (for_each (word_step d) _ sc) as [sc'|e] eqn:E2; simpl;
      [|discriminate].
    intros [= <-]. right. split; [reflexivity|]. exists sc'.
    assert (H1 : scan_ok sc /\ scan_consistent sc).
    { eapply (for_each_invariant (fun s => scan_ok s /\ scan_consistent s));
        [| |exact E1].
      - intros s x s' [Ha Hb] Hstep. split.
        + eapply (phrase_step_ok d); eassumption.
        + eapply phrase_step_consistent; eassumption.
      - split; repeat split; simpl; try discriminate; reflexivity. }
    assert (H2 : scan_ok sc' /\ scan_consistent sc').
    { eapply (for_each_invariant (fun s => scan_ok s /\ scan_consistent s));
        [| |exact E2].
      - intros s x s' [Ha Hb] Hstep. split.
        + eapply (word_step_ok d); eassumption.
        + eapply word_step_consistent; eassumption.
      - exact H1. }
    destruct H2 as [Ha Hb]. split; [exact Ha|]. split; [exact Hb|].
    reflexivity.
Qed.

Lemma finish_positive (sc : scan) (totalWords : nat) :
  (1 <= totalWords)%nat -> scan_consistent sc ->
  (0 < confidence (finish sc totalWords))%Q.
Proof.
  intros Hwords (_ & _ & Hnone & Hsum). unfold finish.
  destruct (videoFiles (found sc)) as [|f fs] eqn:Ev; simpl; [reflexivity|].
  destruct (matchCount sc) as [|n] eqn:Ec; [discriminate (Hnone eq_refl)|].
  cbn [Nat.ltb Nat.leb].
  assert (Hn : (0 < inject_Z (Z.of_nat totalWords))%Q).
  { rewrite <- (Zlt_Qlt 0). lia. }
  apply Qlt_shift_div_l; [exact Hn|]. rewrite Qmult_0_l.
  eapply Qlt_le_trans; [|exact Hsum].
  apply (Qlt_le_trans _ ((8 # 10) * 1)); [reflexivity|].
  apply Qmult_le_compat_nonneg.
  - split; [discriminate | apply Qle_refl].
  - split; [discriminate|]. rewrite <- (Zle_Qle 1). lia.
Qed.

Lemma finish_shape (sc : scan) (totalWords : nat) :
  scan_consistent sc ->
  let m := finish sc totalWords in
  videoFiles m <> [] /\ captions m <> [] /\
  (m = fallback \/ captions m = matchedPhrases m).
Proof.
  intros (Hcap & Hlen & Hnone & _). unfold finish.
  destruct (videoFiles (found sc)) as [|f fs] eqn:Ev; simpl.
  - split; [discriminate|]. split; [discriminate|]. left. reflexivity.
  - split; [discriminate|]. split; [|right; exact Hcap].
    intros Hempty. rewrite Hempty in Hlen. simpl in Hlen.
    symmetry in Hlen. specialize (Hnone Hlen). discriminate.
Qed.

End MoreMappingFacts.

(** X11: with the dictionary loaded, the confidence that [mapTextToSigns]
    returns is always positive and never more than the number of matched
    phrases it reports. *)
Theorem confidence_positive_and_bounded
    (svc : MappingService.service) (d : dictionary) (text : value)
    (m : mapping) :
  mappingData svc = Some d ->
  mapTextToSigns svc text = Ok m ->
  (0 < mapConfidence m)%Q /\
  (mapConfidence m <=
     inject_Z (Z.of_nat (List.length (mapMatchedPhrases m))))%Q.
Proof.
  intros Hd. unfold mapTextToSigns.
  destruct text as [[|c r]|]; try discriminate.
  destruct (findMatches svc (normalizeText (String c r))) as [found|e] eqn:E;
    simpl; [|discriminate].
  intros [= <-]. cbn [mapConfidence mapMatchedPhrases].
  split; [|apply (findMatches_confidence_bounds svc d Hd _ _ E)].
  destruct (findMatches_scan svc d Hd _ _ E)
    as [(files & _ & ->) | (_ & sc & _ & Hcons & ->)]; [reflexivity|].
  apply finish_positive; [apply split_space_nonempty | exact Hcons].
Qed.

Lemma confidence_positive_and_bounded_witness :
  exists m, mapTextToSigns sample_service (JString "yes please stop") = Ok m /\
            (0 < mapConfidence m)%Q /\
            (mapConfidence m <=
               inject_Z (Z.of_nat (List.length (mapMatchedPhrases m))))%Q.
Proof.
  eexists. split; [reflexivity|].
  apply (confidence_positive_and_bounded sample_service createFallbackMapping
           (JString "yes please stop")); reflexivity.
Defined.

(** X12: with the dictionary loaded, a result of [findMatches] always has
    a caption, and its captions are its matched phrases unless it is the
    fallback entry; it has no video file only when the text itself is a
    key whose list of videos is empty. *)
Theorem results_are_never_empty
    (svc : MappingService.service) (d : dictionary) (text : string)
    (m : matches) :
  mappingData svc = Some d ->
  findMatches svc text = Ok m ->
  captions m <> []
  /\ (m = fallback \/ captions m = matchedPhrases m)
  /\ (videoFiles m = [] -> own d text = Some []).
Proof.
  intros Hd Hfind.
  destruct (findMatches_scan svc d Hd _ _ Hfind)
    as [(files & Hown & ->) | (_ & sc & _ & Hcons & ->)].
  - cbn [captions matchedPhrases videoFiles].
    split; [discriminate|]. split; [right; reflexivity|].
    intros ->. exact Hown.
  - destruct (finish_shape sc (List.length (split_space text)) Hcons)
      as (Hv & Hc & Hcm).
    split; [exact Hc|]. split; [exact Hcm|]. intros Hempty. contradiction.
Qed.

Lemma results_are_never_empty_witness :
  match findMatches sample_service "hello how are you" with
  | Ok m => m = fallback \/ captions m = matchedPhrases m
  | Err _ => False
  end.
Proof.
  destruct (findMatches sample_service "hello how are you") as [m|e] eqn:E.
  - exact (proj1 (proj2 (results_are_never_empty sample_service
                           createFallbackMapping "hello how are you" m
                           eq_refl E))).
  - vm_compute in E. discriminate E.
Defined.

Section TrimFacts.

Lemma trimEnd_idempotent (s : string) : trimEnd (trimEnd s) = trimEnd s.
Proof.
  induction s as [|c s IH]; simpl; [reflexivity|].
  destruct (trimEnd s) as [|c' r'] eqn:E.
  - destruct (is_space c) eqn:Ec; simpl; [reflexivity|]. rewrite Ec.
    reflexivity.
  - change (trimEnd (String c (String c' r'))) with
      (match trimEnd (String c' r') with
       | EmptyString => if is_space c then EmptyString else String c EmptyString
       | r0 => String c r0
       end).
    rewrite IH. reflexivity.
Qed.

(** [trimEnd] keeps a first code unit that is not white space. *)
Lemma trimEnd_head (c : ascii) (s : string) :
  is_space c = false -> exists r, trimEnd (String c s) = String c r.
Proof.
  intros Hc. simpl. destruct (trimEnd s) as [|c' r'].
  - rewrite Hc. eexists. reflexivity.
  - eexists. reflexivity.
Qed.

Lemma trimStart_head (s : string) :
  trimStart s = EmptyString \/
  exists c r, trimStart s = String c r /\ is_space c = false.
Proof.
  induction s as [|c s IH]; simpl; [left; reflexivity|].
  destruct (is_space c) eqn:Ec; [exact IH|].
  right. exists c, s. split; [reflexivity | exact Ec].
Qed.

Lemma trim_idempotent (s : string) : trim (trim s) = trim s.
Proof.
  unfold trim. destruct (trimStart_head s) as [-> | (c & r & -> & Hc)].
  - reflexivity.
  - destruct (trimEnd_head c r Hc) as [r' Hr']. rewrite Hr'.
    simpl trimStart. rewrite Hc. rewrite <- Hr'. apply trimEnd_idempotent.
Qed.

Lemma space_is_lowercase (c : ascii) : is_space c = true -> lower_char c = c.
Proof.
  destruct c as [[] [] [] [] [] [] [] []]; intros H;
    reflexivity || discriminate H.
Qed.

Lemma blank_normalizes_to_empty (s : string) :
  every is_space s = true -> normalizeText s = EmptyString.
Proof.
  intros H. unfold normalizeText, trim.
  assert (Hstart : trimStart (toLowerCase s) = EmptyString).
  { induction s as [|c s IH]; simpl in *; [reflexivity|].
    apply andb_true_iff in H as [Hc Hs].
    rewrite (space_is_lowercase c Hc), Hc. exact (IH Hs). }
  rewrite Hstart. reflexivity.
Qed.

End TrimFacts.

(** X13: a second pass of [normalizeText] only trims the result of the
    first, and from then on the text no longer changes: normalizing twice
    reaches a fixed point. *)
Theorem normalizeText_settles_after_two_passes (text : string) :
  normalizeText (normalizeText text) = trim (normalizeText text)
  /\ normalizeText (normalizeText (normalizeText text)) =
     normalizeText (normalizeText text).
Proof.
  split; [apply normalizeText_twice|].
  rewrite (normalizeText_twice (normalizeText text)).
  rewrite (normalizeText_twice text). apply trim_idempotent.
Qed.

(** X14: a text made of white space only is not rejected: with a loaded
    dictionary that has no empty key, [mapTextToSigns] answers it with the
    fallback entry and confidence 0.1. *)
Theorem blank_text_yields_fallback
    (svc : MappingService.service) (d : dictionary) (text : string) :
  mappingData svc = Some d ->
  own d EmptyString = None ->
  text <> EmptyString ->
  every is_space text = true ->
  mapTextToSigns svc (JString text) =
    Ok {| signs := [to_sign svc "NOT-UNDERSTAND.mp4"];
          mapCaptions := ["I don't understand"];
          mapConfidence := 1 # 10;
          mapMatchedPhrases := ["fallback"] |}.
Proof.
  intros Hd Hown Hne Hblank.
  destruct text as [|c r]; [congruence|].
  unfold mapTextToSigns. rewrite (blank_normalizes_to_empty _ Hblank).
  rewrite (findMatches_unmatched svc d Hd); [reflexivity| |reflexivity].
  unfold matches_no_key. apply forallb_forall. intros k Hk.
  destruct k as [|c' k']; [|reflexivity].
  exfalso. clear - Hown Hk.
  induction d as [|[k v] d' IH]; simpl in *; [contradiction|].
  destruct (String.eqb_spec k EmptyString) as [->|Hk']; [discriminate|].
  destruct Hk as [Hk|Hk]; [contradiction | exact (IH Hown Hk)].
Qed.

Lemma blank_text_yields_fallback_witness :
  mapTextToSigns sample_service (JString "   ") =
    Ok {| signs := [to_sign sample_service "NOT-UNDERSTAND.mp4"];
          mapCaptions := ["I don't understand"];
          mapConfidence := 1 # 10;
          mapMatchedPhrases := ["fallback"] |}.
Proof.
  apply (blank_text_yields_fallback sample_service createFallbackMapping "   ").
  - reflexivity.
  - reflexivity.
  - discriminate.
  - reflexivity.
Defined.

Section SortFacts.

Lemma insert_by_length_perm (k : string) (l : list string) :
  Permutation (k :: l) (insert_by_length k l).
Proof.
  induction l as [|x l IH]; simpl; [apply Permutation_refl|].
  destruct (String.length k <? String.length x)%nat.
  - eapply Permutation_trans; [apply perm_swap|].
    apply perm_skip. exact IH.
  - apply Permutation_refl.
Qed.

Lemma insert_by_length_sorted (k : string) (l : list string) :
  StronglySorted (fun a b => (String.length b <= String.length a)%nat) l ->
  StronglySorted (fun a b => (String.length b <= String.length a)%nat)
                 (insert_by_length k l).
Proof.
  induction l as [|x l IH]; simpl; intros Hs.
  - constructor; [constructor | constructor].
  - apply StronglySorted_inv in Hs as [Hs Hx].
    destruct (Nat.ltb_spec (String.length k) (String.length x)) as [Hlt|Hge].
    + constructor; [exact (IH Hs)|].
      apply List.Forall_forall. intros y Hy.
      apply (Permutation_in y (Permutation_sym (insert_by_length_perm k l)))
        in Hy.
      destruct Hy as [<- | Hy]; [lia|].
      rewrite List.Forall_forall in Hx. exact (Hx y Hy).
    + constructor; [constructor; assumption|].
      constructor; [exact Hge|].
      rewrite List.Forall_forall in Hx |- *. intros y Hy.
      specialize (Hx y Hy). lia.
Qed.

Lemma insert_by_length_stable (n : nat) (k : string) (l : list string) :
  StronglySorted (fun a b => (String.length b <= String.length a)%nat) l ->
  List.filter (fun x => String.length x =? n)%nat (insert_by_length k l) =
  List.filter (fun x => String.length x =? n)%nat (k :: l).
Proof.
  induction l as [|x l IH]; intros Hs; [reflexivity|].
  apply StronglySorted_inv in Hs as [Hs Hx]. cbn [insert_by_length].
  destruct (Nat.ltb_spec (String.length k) (String.length x)) as [Hlt|Hge];
    [|reflexivity].
  cbn [List.filter]. rewrite (IH Hs). cbn [List.filter].
  destruct (Nat.eqb_spec (String.length x) n) as [Hxn|Hxn];
    destruct (Nat.eqb_spec (String.length k) n) as [Hkn|Hkn];
    try reflexivity.
  lia.
Qed.

End SortFacts.

(** X15: the order in which [findMatches] tries the phrases: all keys of
    the dictionary, each as often as it is enumerated, longest first, and
    keys of equal length in their order of enumeration. *)
Theorem phrases_are_tried_longest_first (keys : list string) :
  Permutation keys (sort_longest_first keys)
  /\ StronglySorted (fun a b => (String.length b <= String.length a)%nat)
                    (sort_longest_first keys)
  /\ forall n,
       List.filter (fun x => String.length x =? n)%nat (sort_longest_first keys)
       = List.filter (fun x => String.length x =? n)%nat keys.
Proof.
  induction keys as [|k keys (Hperm & Hsorted & Hstable)]; simpl.
  - split; [apply perm_nil|]. split; [constructor | reflexivity].
  - split; [|split].
    + eapply Permutation_trans; [apply perm_skip; exact Hperm|].
      apply insert_by_length_perm.
    + apply insert_by_length_sorted. exact Hsorted.
    + intros n. rewrite (insert_by_length_stable n k _ Hsorted).
      cbn [List.filter]. rewrite Hstable. reflexivity.
Qed.


(** * Properties of the vocabulary file *)

Section CsvFacts.

Import Vocabulary.

Lemma append_cons (c : ascii) (s t : string) :
  (String c s ++ t)%string = String c (s ++ t).
Proof. reflexivity. Qed.

Lemma append_empty_r (s : string) : (s ++ EmptyString)%string = s.
Proof.
  induction s as [|c s IH]; [reflexivity|].
  rewrite append_cons, IH. reflexivity.
Qed.

Lemma append_assoc (s t u : string) :
  ((s ++ t) ++ u)%string = (s ++ (t ++ u))%string.
Proof.
  induction s as [|c s IH]; [reflexivity|].
  rewrite !append_cons, IH. reflexivity.
Qed.

Lemma quote_free_append (s t : string) :
  quote_free (s ++ t) = quote_free s && quote_free t.
Proof.
  unfold quote_free. induction s as [|c s IH]; [reflexivity|].
  rewrite append_cons. cbn [every]. rewrite IH, andb_assoc. reflexivity.
Qed.

Lemma split_on_nonempty (sep : ascii) (s : string) : split_on sep s <> [].
Proof.
  destruct s as [|c s]; simpl; [discriminate|].
  destruct (Ascii.eqb c sep); [discriminate|].
  destruct (split_on sep s); discriminate.
Qed.

Lemma parse_fields_nonempty (line current : string) (q : bool) :
  parse_fields line current q <> [].
Proof.
  revert current q. induction line as [|c line IH]; intros current q; simpl;
    [discriminate|].
  destruct (Ascii.eqb c quote); [apply IH|].
  destruct (Ascii.eqb c comma && negb q); [discriminate | apply IH].
Qed.

Lemma join_cons (sep piece : string) (rest : list string) :
  rest <> [] -> join sep (piece :: rest) = (piece ++ sep ++ join sep rest)%string.
Proof. destruct rest; [congruence | reflexivity]. Qed.

Lemma parse_fields_join (line : string) : forall (current : string) (q : bool),
  join "," (parse_fields line current q) = (current ++ unquoted line)%string.
Proof.
  induction line as [|c line IH]; intros current q;
    cbn [parse_fields unquoted join].
  - symmetry. apply append_empty_r.
  - destruct (Ascii.eqb c quote) eqn:Eq; [apply IH|].
    destruct (Ascii.eqb_spec c comma) as [->|Hc]; cbn [andb].
    + destruct q; cbn [negb].
      * rewrite IH, append_assoc. reflexivity.
      * rewrite join_cons by apply parse_fields_nonempty.
        rewrite IH. reflexivity.
    + rewrite IH, append_assoc. reflexivity.
Qed.

Lemma parse_fields_quote_free (line : string) : forall (current : string) (q : bool),
  quote_free current = true ->
  Forall (fun field => quote_free field = true) (parse_fields line current q).
Proof.
  induction line as [|c line IH]; intros current q Hcur; simpl.
  - constructor; [exact Hcur | constructor].
  - destruct (Ascii.eqb c quote) eqn:Eq; [apply IH; exact Hcur|].
    destruct (Ascii.eqb c comma && negb q).
    + constructor; [exact Hcur | apply IH; reflexivity].
    + apply IH. rewrite quote_free_append, Hcur. unfold quote_free. simpl.
      rewrite Eq. reflexivity.
Qed.

Lemma parse_fields_plain (line : string) : forall current : string,
  quote_free line = true ->
  parse_fields line current false =
  match split_on comma line with
  | first :: rest => (current ++ first)%string :: rest
  | [] => [current]
  end.
Proof.
  induction line as [|c line IH]; intros current Hfree; simpl.
  - rewrite append_empty_r. reflexivity.
  - unfold quote_free in Hfree. simpl in Hfree.
    apply andb_true_iff in Hfree as [Hc Hfree].
    apply negb_true_iff in Hc. rewrite Hc.
    destruct (Ascii.eqb c comma); simpl.
    + rewrite (IH EmptyString Hfree), append_empty_r.
      pose proof (split_on_nonempty comma line) as Hne.
      destruct (split_on comma line); [congruence | reflexivity].
    + rewrite (IH _ Hfree).
      pose proof (split_on_nonempty comma line) as Hne.
      destruct (split_on comma line); [congruence|].
      rewrite append_assoc. reflexivity.
Qed.

Lemma get_assign_eq (key value : string) (obj : object) :
  key <> "__proto__" -> JSMap.get key (assign key value obj) = Some value.
Proof.
  intros Hne. unfold assign.
  destruct (String.eqb_spec key "__proto__"); [contradiction|].
  apply get_set_eq.
Qed.

Lemma get_assign_ne (key key' value : string) (obj : object) :
  key <> key' -> JSMap.get key' (assign key value obj) = JSMap.get key' obj.
Proof.
  intros Hne. unfold assign.
  destruct (String.eqb key "__proto__"); [reflexivity|].
  apply get_set_ne. exact Hne.
Qed.

Lemma get_assign_cases (key key' value v : string) (obj : object) :
  JSMap.get key' (assign key value obj) = Some v ->
  (key' = key /\ v = value) \/ JSMap.get key' obj = Some v.
Proof.
  unfold assign. destruct (String.eqb key "__proto__"); [auto|].
  destruct (String.eqb_spec key key') as [->|Hne].
  - rewrite get_set_eq. intros [= <-]. left. split; reflexivity.
  - rewrite get_set_ne by exact Hne. auto.
Qed.

Lemma fill_get_other (headers : list string) (key : string)
    (values : list string) : forall (index : nat) (obj : object),
  ~ In key (map trim headers) ->
  JSMap.get key (fill headers index values obj) = JSMap.get key obj.
Proof.
  induction headers as [|h headers IH]; intros index obj Hin; simpl;
    [reflexivity|].
  rewrite IH by (intros H; apply Hin; right; exact H).
  apply get_assign_ne. intros Heq. apply Hin. left. exact Heq.
Qed.

Lemma fill_get_column (headers : list string) (values : list string) :
  forall (index column : nat) (obj : object) (header : string),
  List.NoDup (map trim headers) ->
  nth_error headers column = Some header ->
  trim header <> "__proto__" ->
  JSMap.get (trim header) (fill headers index values obj) =
  Some (cell values (index + column)).
Proof.
  induction headers as [|h headers IH];
    intros index column obj header Hnd Hnth Hproto.
  - destruct column; discriminate.
  - simpl in Hnd. apply List.NoDup_cons_iff in Hnd as [Hh Hnd].
    destruct column as [|column]; simpl in Hnth.
    + injection Hnth as ->. simpl.
      rewrite fill_get_other by exact Hh.
      rewrite Nat.add_0_r. apply get_assign_eq. exact Hproto.
    + simpl. rewrite (IH (S index) column _ header Hnd Hnth Hproto).
      rewrite Nat.add_succ_r. reflexivity.
Qed.

Lemma cell_trimmed (values : list string) (index : nat) :
  trim (cell values index) = cell values index.
Proof.
  unfold cell. destruct (nth_error values index); [|reflexivity].
  apply trim_idempotent.
Qed.

Lemma fill_get_cases (headers : list string) (values : list string) :
  forall (index : nat) (obj : object) (key v : string),
  JSMap.get key (fill headers index values obj) = Some v ->
  JSMap.get key obj = Some v \/
  (In key (map trim headers) /\ trim v = v).
Proof.
  induction headers as [|h headers IH]; intros index obj key v; simpl;
    [auto|].
  intros H. destruct (IH _ _ _ _ H) as [H' | [Hin Htrim]].
  - destruct (get_assign_cases _ _ _ _ _ H') as [[-> ->] | Hobj].
    + right. split; [left; reflexivity | apply cell_trimmed].
    + left. exact Hobj.
  - right. split; [right; exact Hin | exact Htrim].
Qed.

Lemma distinct_spec (xs : list (option string)) :
  forall seen,
  List.NoDup (distinct seen xs)
  /\ forall x, In x (distinct seen xs) <-> In x xs /\ ~ In x seen.
Proof.
  induction xs as [|x xs IH]; intros seen; simpl.
  - split; [apply List.NoDup_nil | tauto].
  - destruct (existsb _ seen) eqn:E.
    + apply existsb_exists in E as [y [Hy Hxy]].
      destruct (decide (x = y)) as [<-|]; [|discriminate].
      destruct (IH seen) as [Hnd Hin]. split; [exact Hnd|].
      intros z. rewrite Hin. intuition congruence.
    + assert (Hx : ~ In x seen).
      { intros Hin. apply not_true_iff_false in E. apply E.
        apply existsb_exists. exists x. split; [exact Hin|].
        destruct (decide (x = x)); congruence. }
      destruct (IH (x :: seen)) as [Hnd Hin]. split.
      * apply List.NoDup_cons; [|exact Hnd].
        rewrite Hin. simpl. tauto.
      * intros z. simpl. rewrite Hin. simpl.
        destruct (decide (x = z)) as [->|Hne]; intuition congruence.
Qed.


End CsvFacts.

(** X16: [parseCSVLine] always returns at least one field, and loses
    nothing of the line but its quotation marks: the fields joined with
    commas are the line without them, and no field contains one.  On a
    line without quotation marks it returns exactly [line.split(',')]. *)
Theorem parseCSVLine_keeps_all_but_quotes (line : string) :
  Vocabulary.parseCSVLine line <> []
  /\ join "," (Vocabulary.parseCSVLine line) = unquoted line
  /\ Forall (fun field => quote_free field = true)
            (Vocabulary.parseCSVLine line)
  /\ (quote_free line = true ->
      Vocabulary.parseCSVLine line = split_on Vocabulary.comma line).
Proof.
  unfold Vocabulary.parseCSVLine. split; [apply parse_fields_nonempty|].
  split; [apply parse_fields_join|].
  split; [apply parse_fields_quote_free; reflexivity|].
  intros Hfree. rewrite (parse_fields_plain line EmptyString Hfree).
  pose proof (split_on_nonempty Vocabulary.comma line) as Hne.
  destruct (split_on Vocabulary.comma line); [congruence | reflexivity].
Qed.

Lemma parseCSVLine_keeps_all_but_quotes_witness :
  Vocabulary.parseCSVLine "thank you,THANK-YOU,courtesy" =
  split_on Vocabulary.comma "thank you,THANK-YOU,courtesy".
Proof.
  exact (proj2 (proj2 (proj2
    (parseCSVLine_keeps_all_but_quotes "thank you,THANK-YOU,courtesy")))
    eq_refl).
Defined.

(** X17: [parseCSVToJSON] returns one object per line after the header
    line.  Every member of an object is named by a (trimmed) header and
    its value carries no white space at either end; when the trimmed
    headers are distinct, the object built from a line holds, under every
    header other than [__proto__], the trimmed field of that column, or
    the empty string when the line has no such field. *)
Theorem csv_rows_follow_the_header
    (csvContent first : string) (lines : list string) :
  split_on Vocabulary.newline (trim csvContent) = first :: lines ->
  let headers := split_on Vocabulary.comma first in
  let rows := Vocabulary.parseCSVToJSON csvContent in
  List.length rows = List.length lines
  /\ forall i line, nth_error lines i = Some line ->
       exists row, nth_error rows i = Some row
       /\ (forall key value, JSMap.get key row = Some value ->
             In key (map trim headers) /\ trim value = value)
       /\ (List.NoDup (map trim headers) ->
           forall column header,
             nth_error headers column = Some header ->
             trim header <> "__proto__" ->
             JSMap.get (trim header) row =
             Some (Vocabulary.cell (Vocabulary.parseCSVLine line) column)).
Proof.
  intros Hsplit headers rows. subst rows. unfold Vocabulary.parseCSVToJSON.
  rewrite Hsplit. fold headers. split; [apply length_map|].
  intros i line Hline.
  exists (Vocabulary.fill headers 0 (Vocabulary.parseCSVLine line) []).
  split; [rewrite nth_error_map, Hline; reflexivity|]. split.
  - intros key value Hget.
    destruct (fill_get_cases _ _ _ _ _ _ Hget) as [H | H];
      [discriminate H | exact H].
  - intros Hnd column header Hnth Hproto.
    exact (fill_get_column headers _ 0 column [] header Hnd Hnth Hproto).
Qed.

Lemma csv_rows_follow_the_header_witness :
  List.length (Vocabulary.parseCSVToJSON sample_csv) = 2.
Proof.
  refine (proj1 (csv_rows_follow_the_header sample_csv
    "phrase,gloss,category,video_filename,duration_ms,spoken_variants"
    [ ("hello,HELLO,greeting,HELLO.mp4,1500," ++
       String Vocabulary.quote ("hello,hi" ++ String Vocabulary.quote ""))%string;
      "thank you,THANK-YOU,courtesy,THANK-YOU.mp4,,"%string ] _)).
  vm_compute. reflexivity.
Defined.



(** X19: [getStats] of the mapping service counts the dictionary keys and
    the vocabulary rows, and lists every category of the vocabulary
    exactly once. *)
Theorem mapping_stats_list_categories_once
    (d : dictionary) (rows : list Vocabulary.object) (cdn : string) :
  let report := Vocabulary.getStats (Some d) (Some rows) cdn in
  Vocabulary.totalMappings report = List.length d
  /\ Vocabulary.totalVocabulary report = List.length rows
  /\ List.NoDup (Vocabulary.categories report)
  /\ forall c, In c (Vocabulary.categories report) <->
               In c (map (JSMap.get "category") rows).
Proof.
  cbn. split; [apply length_map|]. split; [reflexivity|].
  destruct (distinct_spec (map (JSMap.get "category") rows) []) as [Hnd Hin].
  split; [exact Hnd|]. intros c. rewrite Hin. simpl. tauto.
Qed.

(** * Properties of the monitoring middleware *)

Section MonitoringFacts.

Import Monitoring.

Lemma trackError_step (type t : string) (e : errors) :
  inherited_name type = false ->
  counts_positive e ->
  counts_positive (trackError type e)
  /\ counted t (trackError type e) =
     counted t e + (if String.eqb type t then 1 else 0).
Proof.
  intros Hinh Hpos. unfold trackError, counted, counts_positive, bump.
  cbn [byType].
  assert (Hproto : String.eqb type "__proto__" = false).
  { destruct (String.eqb_spec type "__proto__") as [->|]; [|reflexivity].
    discriminate Hinh. }
  destruct (JSMap.get type (byType e)) as [c|] eqn:Eget.
  - destruct (Hpos type c Eget) as [n ->]. split.
    + intros t' c'. destruct (String.eqb_spec type t') as [<-|Hne].
      * rewrite get_set_eq. intros [= <-]. eexists. reflexivity.
      * rewrite get_set_ne by exact Hne. apply Hpos.
    + destruct (String.eqb_spec type t) as [<-|Hne].
      * rewrite get_set_eq, Eget. lia.
      * rewrite get_set_ne by exact Hne. lia.
  - rewrite Hproto, Hinh. split.
    + intros t' c'. destruct (String.eqb_spec type t') as [<-|Hne].
      * rewrite get_set_eq. intros [= <-]. eexists. reflexivity.
      * rewrite get_set_ne by exact Hne. apply Hpos.
    + destruct (String.eqb_spec type t) as [<-|Hne].
      * rewrite get_set_eq, Eget. reflexivity.
      * rewrite get_set_ne by exact Hne. lia.
Qed.

Lemma track_errors_counts (types : list string) (t : string) : forall e,
  forallb (fun type => negb (inherited_name type)) types = true ->
  counts_positive e ->
  counts_positive (track_errors types e)
  /\ total (track_errors types e) = total e + List.length types
  /\ counted t (track_errors types e) =
     counted t e + count_occ string_dec types t.
Proof.
  induction types as [|type types IH]; intros e Hok Hpos; simpl.
  - repeat split; [exact Hpos | lia | lia].
  - simpl in Hok. apply andb_true_iff in Hok as [Hty Hok].
    apply negb_true_iff in Hty.
    destruct (trackError_step type t e Hty Hpos) as [Hpos' Hcount].
    destruct (IH (trackError type e) Hok Hpos') as (H1 & H2 & H3).
    split; [exact H1|]. split; [rewrite H2; simpl; lia|].
    rewrite H3, Hcount.
    destruct (string_dec type t) as [->|Hne].
    + rewrite String.eqb_refl. lia.
    + destruct (String.eqb_spec type t); [contradiction | lia].
Qed.

Lemma history_step (duration : Z) (p : processing) :
  (List.length (latencyHistory p) <= 100)%nat ->
  latencyHistory (trackProcessingTime "" duration p) =
  skipn (List.length (latencyHistory p ++ [duration]) - 100)
        (latencyHistory p ++ [duration]).
Proof.
  intros Hlen. unfold trackProcessingTime. cbn [latencyHistory].
  rewrite length_app in *. cbn [List.length] in *.
  destruct (Nat.ltb_spec 100 (List.length (latencyHistory p) + 1)) as [H|H].
  - replace (List.length (latencyHistory p) + 1 - 100) with 1 by lia.
    destruct (latencyHistory p ++ [duration]); reflexivity.
  - replace (List.length (latencyHistory p) + 1 - 100) with 0 by lia.
    reflexivity.
Qed.

Lemma history_any_type (type : string) (duration : Z) (p : processing) :
  latencyHistory (trackProcessingTime type duration p) =
  latencyHistory (trackProcessingTime "" duration p).
Proof. reflexivity. Qed.

Lemma track_times_history (calls : list (string * Z)) : forall p,
  (List.length (latencyHistory p) <= 100)%nat ->
  latencyHistory (track_times calls p) =
  skipn (List.length (latencyHistory p ++ map snd calls) - 100)
        (latencyHistory p ++ map snd calls).
Proof.
  induction calls as [|[type d] calls IH]; intros p Hlen.
  - cbn. rewrite app_nil_r.
    replace (List.length (latencyHistory p) - 100) with 0 by lia. reflexivity.
  - cbn [track_times fold_left fst snd map].
    change (fold_left _ calls ?q) with (track_times calls q).
    set (p1 := trackProcessingTime type d p).
    assert (H1 : latencyHistory p1 =
                 skipn (List.length (latencyHistory p ++ [d]) - 100)
                       (latencyHistory p ++ [d])).
    { unfold p1. rewrite history_any_type. apply history_step. exact Hlen. }
    assert (Hlen1 : (List.length (latencyHistory p1) <= 100)%nat).
    { rewrite H1, length_skipn, length_app. cbn [List.length]. lia. }
    rewrite (IH p1 Hlen1), H1.
    set (L := latencyHistory p ++ [d]).
    assert (HL : (List.length L <= 101)%nat).
    { unfold L. rewrite length_app. cbn [List.length]. lia. }
    replace (latencyHistory p ++ d :: map snd calls)
      with (L ++ map snd calls)
      by (unfold L; rewrite <- app_assoc; reflexivity).
    set (k := List.length L - 100).
    assert (Hk : skipn k L ++ map snd calls = skipn k (L ++ map snd calls)).
    { rewrite skipn_app.
      replace (k - List.length L) with 0 by (unfold k; lia). reflexivity. }
    rewrite Hk, length_skipn, skipn_skipn. f_equal.
    rewrite length_app. unfold k. lia.
Qed.

End MonitoringFacts.

(** X20: error counting adds up.  After [trackError] has been called with
    a series of types, none of them a name of Object.prototype, starting
    from reset metrics, [total] is the number of calls, every type that
    occurred is counted as often as it occurred, and no other type has a
    member in [byType]. *)
Theorem error_counts_add_up (types : list string) (t : string) :
  forallb (fun type => negb (inherited_name type)) types = true ->
  let e := track_errors types Monitoring.reset_errors in
  Monitoring.total e = List.length types
  /\ JSMap.get t (Monitoring.byType e) =
     match count_occ string_dec types t with
     | O => None
     | S n => Some (Monitoring.Count (S n))
     end.
Proof.
  intros Hok e.
  assert (Hpos0 : counts_positive Monitoring.reset_errors)
    by (intros type c H; discriminate H).
  destruct (track_errors_counts types t Monitoring.reset_errors Hok Hpos0)
    as (Hpos & Htotal & Hcount).
  fold e in Hpos, Htotal, Hcount. split; [exact Htotal|].
  unfold counted in Hcount. cbn [Monitoring.reset_errors Monitoring.byType
    JSMap.get] in Hcount. rewrite Nat.add_0_l in Hcount.
  destruct (JSMap.get t (Monitoring.byType e)) as [c|] eqn:E.
  - destruct (Hpos t c E) as [n ->]. rewrite <- Hcount. reflexivity.
  - rewrite <- Hcount. reflexivity.
Qed.

Lemma error_counts_add_up_witness :
  JSMap.get "mapping"
    (Monitoring.byType
       (track_errors ["mapping"; "websocket"; "mapping"]
          Monitoring.reset_errors)) =
  Some (Monitoring.Count 2).
Proof.
  exact (proj2 (error_counts_add_up ["mapping"; "websocket"; "mapping"]
                  "mapping" eq_refl)).
Defined.

(** X21: the latency history is a window of the last hundred durations.
    Starting from a history of at most a hundred entries, after any series
    of calls of [trackProcessingTime] the history holds, in order, the
    last hundred of the durations recorded so far -- all of them when
    there are fewer -- and so never more than a hundred. *)
Theorem latency_history_is_a_window
    (calls : list (string * Z)) (p : Monitoring.processing) :
  (List.length (Monitoring.latencyHistory p) <= 100)%nat ->
  let recorded := Monitoring.latencyHistory p ++ map snd calls in
  Monitoring.latencyHistory (track_times calls p) =
    skipn (List.length recorded - 100) recorded
  /\ (List.length (Monitoring.latencyHistory (track_times calls p)) <= 100)%nat.
Proof.
  intros Hlen recorded.
  pose proof (track_times_history calls p Hlen) as H. fold recorded in H.
  split; [exact H|]. rewrite H, length_skipn. lia.
Qed.

Lemma latency_history_is_a_window_witness :
  Monitoring.latencyHistory
    (track_times [("mapping", 12%Z); ("transcription", 340%Z)]
       Monitoring.reset_processing) = [12%Z; 340%Z].
Proof.
  refine (proj1 (latency_history_is_a_window
                   [("mapping", 12%Z); ("transcription", 340%Z)]
                   Monitoring.reset_processing _)).
  simpl. lia.
Defined.

(** * Properties of transcription and of the endpoints *)

Section TranscriptionFacts.

Lemma for_each_error {E S X} (P : E -> Prop)
    (body : S -> X -> result E S) (xs : list X) : forall s e,
  (forall s x e, body s x = Err e -> P e) ->
  for_each body xs s = Err e -> P e.
Proof.
  induction xs as [|x xs IH]; simpl; intros s e Hbody; [discriminate|].
  destruct (body s x) as [s'|e'] eqn:Ebody; simpl.
  - apply IH. exact Hbody.
  - intros [= <-]. exact (Hbody _ _ _ Ebody).
Qed.

Lemma findMatches_error (svc : MappingService.service) (text : string)
    (e : MappingService.error) :
  findMatches svc text = Err e -> e = NotIterable.
Proof.
  unfold findMatches. destruct (mappingData svc) as [d|]; [|discriminate].
  destruct (get d text); try discriminate; [|intros [= <-]; reflexivity].
  destruct (for_each (phrase_step d) _ _) as [sc|e1] eqn:E1; simpl.
  - destruct (for_each (word_step d) _ sc) as [sc'|e2] eqn:E2; simpl;
      [discriminate|].
    intros [= <-].
    apply (for_each_error (fun e => e = NotIterable) _ _ _ _) in E2;
      [exact E2|].
    intros s0 w e0. unfold word_step.
    destruct (get d w); try discriminate. intros [= <-]. reflexivity.
  - intros [= <-].
    apply (for_each_error (fun e => e = NotIterable) _ _ _ _) in E1;
      [exact E1|].
    intros s0 k e0. unfold phrase_step.
    destruct (includes _ _); [|discriminate].
    destruct (get d k); try discriminate; intros [= <-]; reflexivity.
Qed.

Lemma mapTextToSigns_string_error (svc : MappingService.service)
    (c : ascii) (r : string) (e : MappingService.error) :
  mapTextToSigns svc (JString (String c r)) = Err e -> e = NotIterable.
Proof.
  unfold mapTextToSigns.
  destruct (findMatches svc (normalizeText (String c r))) as [m|e'] eqn:E;
    simpl; [discriminate|].
  intros [= <-]. exact (findMatches_error _ _ _ E).
Qed.

Lemma mapTextToSigns_other (svc : MappingService.service) :
  mapTextToSigns svc JOther = Err InvalidTextInput.
Proof. reflexivity. Qed.

Lemma is_empty_false (s : string) : is_empty s = false -> s <> "".
Proof. destruct s; [discriminate|]. intros _. discriminate. Qed.

Lemma classify_classified (f : Transcription.failure) :
  In (Transcription.statusCode (Transcription.classify f),
      Transcription.type (Transcription.classify f)) classified.
Proof.
  unfold Transcription.classify, classified.
  repeat match goal with
         | |- context [if ?b then _ else _] => destruct b
         end; cbn; tauto.
Qed.

Lemma transcribeWithGoogle_ok (client : option Transcription.recognizer)
    (audio : Transcription.buffer) (options : StreamController.options)
    (t : Transcription.transcription) :
  Transcription.transcribeWithGoogle client audio options = Ok t ->
  Transcription.transcript t <> ""
  /\ trim (Transcription.transcript t) = Transcription.transcript t
  /\ audio <> []
  /\ Transcription.service t = "google".
Proof.
  unfold Transcription.transcribeWithGoogle.
  destruct client as [recognize|]; [|discriminate].
  destruct audio as [|b audio]; [discriminate|].
  destruct (_ <? _)%Z; [discriminate|].
  destruct (recognize _ _) as [[[[[|[|a alts] rest]|]]|]|f]; try discriminate.
  destruct (Transcription.first_alternatives rest) as [others|];
    [|discriminate].
  cbv zeta.
  destruct (is_empty (trim _)) eqn:E; [discriminate|].
  intros [= <-]. cbn [Transcription.transcript Transcription.service].
  repeat split.
  - apply is_empty_false. exact E.
  - apply trim_idempotent.
  - discriminate.
Qed.

Lemma transcribeWithOpenAI_ok (client : Transcription.whisper)
    (audio : Transcription.buffer) (options : StreamController.options)
    (s : string) :
  Transcription.transcribeWithOpenAI client audio options = Ok s ->
  s <> "" /\ trim s = s.
Proof.
  unfold Transcription.transcribeWithOpenAI.
  destruct (client _ _) as [text|msg]; [|discriminate].
  destruct (is_empty (trim text)) eqn:E; [discriminate|].
  intros [= <-]. split; [apply is_empty_false; exact E|apply trim_idempotent].
Qed.

Lemma transcribeAudio_google (c : Transcription.clients)
    (audio : Transcription.buffer) (options : StreamController.options)
    (o : Transcription.outcome) :
  Transcription.googleClient c <> None ->
  Transcription.transcribeAudio c audio options = Ok o ->
  exists t, o = Transcription.Recognized t.
Proof.
  unfold Transcription.transcribeAudio.
  destruct (Transcription.googleClient c) as [g|]; [|congruence].
  intros _.
  destruct (Transcription.transcribeWithGoogle _ _ _) as [t|e]; simpl;
    [|discriminate].
  intros [= <-]. exists t. reflexivity.
Qed.

Lemma transcribeAudio_whisper (c : Transcription.clients)
    (audio : Transcription.buffer) (options : StreamController.options)
    (o : Transcription.outcome) :
  Transcription.googleClient c = None ->
  Transcription.transcribeAudio c audio options = Ok o ->
  exists ch r, o = Transcription.Text (String ch r).
Proof.
  unfold Transcription.transcribeAudio. intros ->.
  destruct (Transcription.openaiClient c) as [w|]; [|discriminate].
  destruct (Transcription.transcribeWithOpenAI w audio options) as [s|e]
    eqn:E; simpl; [|discriminate].
  intros [= <-]. destruct (transcribeWithOpenAI_ok _ _ _ _ E) as [Hne _].
  destruct s as [|ch r]; [congruence|]. exists ch, r. reflexivity.
Qed.

End TranscriptionFacts.

(** X22: a transcription is never blank.  Whenever [transcribeAudio]
    resolves, the text it carries is not empty and has no white space at
    either end; with a Google client the result is the object of the
    Google path, built from a recording that is not empty, and without one
    it is the string of the OpenAI path. *)
Theorem transcriptions_are_trimmed_and_not_blank
    (c : Transcription.clients) (audio : Transcription.buffer)
    (options : StreamController.options) (o : Transcription.outcome) :
  Transcription.transcribeAudio c audio options = Ok o ->
  spoken o <> ""
  /\ trim (spoken o) = spoken o
  /\ match o with
     | Transcription.Recognized t =>
         Transcription.googleClient c <> None /\ audio <> []
         /\ Transcription.service t = "google"
     | Transcription.Text _ => Transcription.googleClient c = None
     end.
Proof.
  unfold Transcription.transcribeAudio.
  destruct (Transcription.googleClient c) as [g|] eqn:Eg.
  - destruct (Transcription.transcribeWithGoogle _ _ _) as [t|e] eqn:E;
      simpl; [|discriminate].
    intros [= <-]. cbn [spoken].
    destruct (transcribeWithGoogle_ok _ _ _ _ E) as (H1 & H2 & H3 & H4).
    repeat split; try assumption. discriminate.
  - destruct (Transcription.openaiClient c) as [w|]; [|discriminate].
    destruct (Transcription.transcribeWithOpenAI w audio options) as [s|e]
      eqn:E; simpl; [|discriminate].
    intros [= <-]. cbn [spoken].
    destruct (transcribeWithOpenAI_ok _ _ _ _ E) as [H1 H2].
    repeat split; assumption.
Qed.

Lemma transcriptions_are_trimmed_and_not_blank_witness :
  trim (spoken
          (Transcription.Recognized
             {| Transcription.transcript := "thank you please";
                Transcription.confidence := 9 # 10;
                Transcription.language := "en-US";
                Transcription.service := "google" |})) =
  "thank you please".
Proof.
  exact (proj1 (proj2 (transcriptions_are_trimmed_and_not_blank
                         (Server.speechService google_app)
                         [82; 73; 70; 70]%N Server.no_options _ eq_refl))).
Defined.

(** X23: every failure of [transcribeWithGoogle] is an [AppError] whose
    status code and error type form one of nine pairs: 400 for a recording
    that is empty, too large, without speech or of an invalid format, 401,
    403, 429 and 503 for what the provider reports, and 500 otherwise.  No
    other error leaves the function. *)
Theorem google_failures_are_classified
    (client : option Transcription.recognizer) (audio : Transcription.buffer)
    (options : StreamController.options) (e : Transcription.thrown) :
  Transcription.transcribeWithGoogle client audio options = Err e ->
  exists error,
    e = Transcription.AppError error
    /\ In (Transcription.statusCode error, Transcription.type error)
          classified.
Proof.
  unfold Transcription.transcribeWithGoogle, Transcription.no_audio.
  assert (Hc : forall f x,
    Err (Transcription.AppError (Transcription.classify f)) =
      @Err Transcription.thrown Transcription.transcription x ->
    exists error, x = Transcription.AppError error
      /\ In (Transcription.statusCode error, Transcription.type error)
            classified).
  { intros f x [= <-]. eexists. split; [reflexivity|].
    apply classify_classified. }
  assert (Hk : forall msg code ty x,
    In (code, ty) classified ->
    Err (Transcription.AppError
           {| Transcription.message := msg; Transcription.statusCode := code;
              Transcription.type := ty |}) =
      @Err Transcription.thrown Transcription.transcription x ->
    exists error, x = Transcription.AppError error
      /\ In (Transcription.statusCode error, Transcription.type error)
            classified).
  { intros msg code ty x Hin [= <-]. eexists. split; [reflexivity|].
    exact Hin. }
  destruct client as [recognize|];
    [|apply Hk; unfold classified; cbn; tauto].
  destruct audio as [|b audio]; [apply Hk; unfold classified; cbn; tauto|].
  destruct (_ <? _)%Z; [apply Hk; unfold classified; cbn; tauto|].
  destruct (recognize _ _) as [[[[[|[|a alts] rest]|]]|]|f];
    try (apply Hk; unfold classified; cbn; tauto); try apply Hc.
  destruct (Transcription.first_alternatives rest) as [others|];
    [|apply Hc].
  cbv zeta. destruct (is_empty (trim _)); [|discriminate].
  apply Hk; unfold classified; cbn; tauto.
Qed.

Lemma google_failures_are_classified_witness :
  exists error,
    Transcription.AppError
      {| Transcription.message := "Google Cloud Speech quota exceeded";
         Transcription.statusCode := 429;
         Transcription.type := Transcription.SPEECH_QUOTA_EXCEEDED |} =
    Transcription.AppError error
    /\ In (Transcription.statusCode error, Transcription.type error)
          classified.
Proof.
  exact (google_failures_are_classified (Some exhausted_recognizer)
           [82; 73; 70; 70]%N Server.no_options _ eq_refl).
Defined.

(** X24: with a Google client, [POST /api/speech-to-signs] never answers
    200.  [transcribeAudio] then resolves with an object, which
    [mapTextToSigns] rejects: whatever the recording and whatever the
    provider replies, a request with audio is answered 500 and counted as
    one 'combined-processing' error, and a request without audio is
    answered 400 and not counted. *)
Theorem speech_to_signs_fails_with_google
    (from_base64 : string -> Transcription.buffer) (a : Server.app)
    (req : Server.request) (errors : Monitoring.errors) :
  Transcription.googleClient (Server.speechService a) <> None ->
  let answer := Server.speech_to_signs from_base64 a req errors in
  match Server.audio_input from_base64 req with
  | None =>
      Server.status (fst answer) = 400%Z /\ snd answer = errors
  | Some _ =>
      Server.status (fst answer) = 500%Z
      /\ snd answer = Monitoring.trackError "combined-processing" errors
  end.
Proof.
  intros Hg answer. unfold answer, Server.speech_to_signs.
  destruct (Server.audio_input from_base64 req) as [audioData|];
    [|split; reflexivity].
  destruct (Transcription.transcribeAudio _ _ _) as [o|e] eqn:E;
    [|split; reflexivity].
  destruct (transcribeAudio_google _ _ _ _ Hg E) as [t ->].
  cbn [Server.as_value]. rewrite mapTextToSigns_other. split; reflexivity.
Qed.

Lemma speech_to_signs_fails_with_google_witness :
  Server.status
    (fst (Server.speech_to_signs sample_decoder google_app sample_upload
            Monitoring.reset_errors)) = 500%Z
  /\ snd (Server.speech_to_signs sample_decoder google_app sample_upload
            Monitoring.reset_errors) =
     Monitoring.trackError "combined-processing" Monitoring.reset_errors.
Proof.
  refine (speech_to_signs_fails_with_google sample_decoder google_app
            sample_upload Monitoring.reset_errors _).
  discriminate.
Defined.

(** X25: without a Google client, [POST /api/speech-to-signs] hands
    [mapTextToSigns] a string that is not empty.  Its answer is 200 with
    that string as the transcript, 400 for a request without audio, or
    500; and a 500 is never due to 'Invalid text input'. *)
Theorem speech_to_signs_maps_whisper_text
    (from_base64 : string -> Transcription.buffer) (a : Server.app)
    (req : Server.request) (errors : Monitoring.errors) :
  Transcription.googleClient (Server.speechService a) = None ->
  let answer := Server.speech_to_signs from_base64 a req errors in
  (Server.status (fst answer) = 400%Z
   /\ Server.audio_input from_base64 req = None /\ snd answer = errors)
  \/ (exists s m,
        s <> ""
        /\ mapTextToSigns (Server.mappingService a) (JString s) = Ok m
        /\ fst answer =
             {| Server.status := 200;
                Server.content :=
                  Server.Signs (Transcription.Text s) (signs m)
                               (mapCaptions m) (mapConfidence m) |}
        /\ snd answer = errors)
  \/ (exists caught,
        fst answer =
          {| Server.status := 500;
             Server.content :=
               Server.Failure "Speech to signs conversion failed" caught |}
        /\ caught <> Server.MappingFailed InvalidTextInput
        /\ snd answer = Monitoring.trackError "combined-processing" errors).
Proof.
  intros Hg answer. unfold answer, Server.speech_to_signs.
  destruct (Server.audio_input from_base64 req) as [audioData|];
    [|left; repeat split; reflexivity].
  right.
  destruct (Transcription.transcribeAudio _ _ _) as [o|e] eqn:E.
  - destruct (transcribeAudio_whisper _ _ _ _ Hg E) as (ch & r & ->).
    cbn [Server.as_value].
    destruct (mapTextToSigns _ (JString (String ch r))) as [m|e] eqn:Em.
    + left. exists (String ch r), m. repeat split; try reflexivity.
      * discriminate.
      * exact Em.
    + right. eexists. repeat split.
      rewrite (mapTextToSigns_string_error _ _ _ _ Em). discriminate.
  - right. eexists. repeat split. discriminate.
Qed.

Lemma speech_to_signs_maps_whisper_text_witness :
  Server.status
    (fst (Server.speech_to_signs sample_decoder whisper_app sample_upload
            Monitoring.reset_errors)) = 200%Z.
Proof.
  destruct (speech_to_signs_maps_whisper_text sample_decoder whisper_app
              sample_upload Monitoring.reset_errors eq_refl)
    as [(_ & H & _) | [(s & m & _ & _ & H & _) | (caught & H & _)]].
  - vm_compute in H. discriminate H.
  - rewrite H. reflexivity.
  - vm_compute in H. discriminate H.
Defined.

(** X26: [POST /api/map] answers 400 exactly for a text that is missing,
    not a string or empty, and then [mapTextToSigns] is not reached; for
    every other text it answers 200 with the result of [mapTextToSigns],
    or 500 when spreading a member of Object.prototype threw.  An error is
    counted, under 'mapping', exactly with a 500. *)
Theorem map_endpoint_answers (a : Server.app)
    (req : Server.request) (errors : Monitoring.errors) :
  let answer := Server.map_text a req errors in
  match Server.text req with
  | JString (String c r) =>
      (exists m,
         mapTextToSigns (Server.mappingService a) (Server.text req) = Ok m
         /\ fst answer =
              {| Server.status := 200;
                 Server.content :=
                   Server.Mapped (String c r) (signs m) (mapCaptions m)
                                 (mapConfidence m) |}
         /\ snd answer = errors)
      \/ (mapTextToSigns (Server.mappingService a) (Server.text req) =
            Err NotIterable
          /\ fst answer =
               {| Server.status := 500;
                  Server.content :=
                    Server.Failure "Text to sign mapping failed"
                                   (Server.MappingFailed NotIterable) |}
          /\ snd answer = Monitoring.trackError "mapping" errors)
  | _ =>
      fst answer =
        {| Server.status := 400;
           Server.content :=
             Server.Problem "Text is required and must be a string" |}
      /\ snd answer = errors
  end.
Proof.
  intros answer. unfold answer, Server.map_text.
  destruct (Server.text req) as [[|c r]|]; try (split; reflexivity).
  destruct (mapTextToSigns _ (JString (String c r))) as [m|e] eqn:Em.
  - left. exists m. repeat split.
  - right. rewrite (mapTextToSigns_string_error _ _ _ _ Em).
    repeat split.
Qed.

(** X27: [POST /api/transcribe] answers 400 exactly when no file was
    uploaded, and otherwise 200 with a transcript that is not blank, or
    500.  The status code of an [AppError] never reaches the client: a
    failed transcription is answered 500 and counted once under
    'transcription'. *)
Theorem transcribe_endpoint_answers
    (a : Server.app) (req : Server.request) (errors : Monitoring.errors) :
  let answer := Server.transcribe a req errors in
  match Server.file req with
  | None => Server.status (fst answer) = 400%Z /\ snd answer = errors
  | Some audioData =>
      match Transcription.transcribeAudio (Server.speechService a) audioData
                                          Server.no_options with
      | Ok o =>
          fst answer =
            {| Server.status := 200; Server.content := Server.Transcript o |}
          /\ spoken o <> "" /\ snd answer = errors
      | Err e =>
          Server.status (fst answer) = 500%Z
          /\ snd answer = Monitoring.trackError "transcription" errors
      end
  end.
Proof.
  intros answer. unfold answer, Server.transcribe.
  destruct (Server.file req) as [audioData|]; [|split; reflexivity].
  destruct (Transcription.transcribeAudio _ _ _) as [o|e] eqn:E;
    [|split; reflexivity].
  repeat split.
  unfold Transcription.transcribeAudio in E.
  destruct (Transcription.googleClient _) as [g|].
  - destruct (Transcription.transcribeWithGoogle _ _ _) as [t|e] eqn:Et;
      simpl in E; [|discriminate].
    injection E as <-. apply (transcribeWithGoogle_ok _ _ _ _ Et).
  - destruct (Transcription.openaiClient _) as [w|]; [|discriminate].
    destruct (Transcription.transcribeWithOpenAI w _ _) as [s|e] eqn:Es;
      simpl in E; [|discriminate].
    injection E as <-. apply (transcribeWithOpenAI_ok _ _ _ _ Es).
Qed.
